(** * FractalsParallel: the MPI master/worker Mandelbrot renderer

    A shallow embedding of [sources/backend/c/fractal_C_MPI_live_CLIArgs.c]:
    the escape-time kernel [mandelbrot], the colour mapper
    [iteration_to_color], the row-chunk renderer [compute_rows] and the
    master/worker dispatch loop of [main].

    Conventions.
    - A C [int] is a [Z]; the range [INT_MIN..INT_MAX] matters only where a
      [double] is converted to [int], every [int] expression of the source
      staying within it as long as the size of the frame buffer does.  An
      [unsigned char] is a [Z] in [0..255].
    - The arithmetic of C [double] is an interface, [DoubleOps], so that every
      function of the source is written once.  What is said of the program
      is proved for every instance, or for IEEE-754 binary64 through Rocq's
      primitive floats, the two functions of libm being parameters.  The
      real numbers are a second instance; it serves at the points [(0, 0)]
      and [(2, 0)] and for [clamp], where the orbit and every comparison
      are exact in binary64 as well.
    - A conversion whose value does not fit its target type is undefined in
      C; such a computation is [None]. *)

From Stdlib Require Import ZArith Reals Lra Lia Floats.
From stdpp Require Import base tactics option list list_numbers.

Local Open Scope Z_scope.

(** ** Integer limits *)

Definition INT_MIN : Z := -2147483648.
Definition INT_MAX : Z := 2147483647.
Definition UCHAR_MAX : Z := 255.

Definition in_int_range (z : Z) : bool := (INT_MIN <=? z) && (z <=? INT_MAX).
Definition in_uchar_range (z : Z) : bool := (0 <=? z) && (z <=? UCHAR_MAX).

(** ** Compile-time constants of the source *)

Definition DEFAULT_WIDTH : Z := 800.
Definition DEFAULT_HEIGHT : Z := 600.
Definition DEFAULT_MAX_ITER : Z := 200.
Definition CHUNK_SIZE : Z := 10.

(** ** The arithmetic of [double] *)

Class DoubleOps (D : Type) := {
  dadd : D → D → D;
  dsub : D → D → D;
  dmul : D → D → D;
  ddiv : D → D → D;
  dleb : D → D → bool;            (* [a <= b] *)
  dltb : D → D → bool;            (* [a < b] *)
  dabs : D → D;                   (* [fabs] *)
  dlog : D → D;                   (* [log] of math.h *)
  dfmod : D → D → D;              (* [fmod] of math.h *)
  of_int : Z → D;                 (* [(double) i] *)
  trunc : D → option Z            (* integral part, toward zero *)
}.

Declare Scope double_scope.
Delimit Scope double_scope with D.
Infix "+" := dadd : double_scope.
Infix "-" := dsub : double_scope.
Infix "*" := dmul : double_scope.
Infix "/" := ddiv : double_scope.
Infix "<=?" := dleb : double_scope.
Infix "<?" := dltb : double_scope.

(** [(int) d] and [(unsigned char) d]: the integral part when the target
    type can hold it. *)
Definition to_int `{DoubleOps D} (d : D) : option Z :=
  z ← trunc d; if in_int_range z then Some z else None.

Definition to_uchar `{DoubleOps D} (d : D) : option Z :=
  z ← trunc d; if in_uchar_range z then Some z else None.

(** *** Instance 1: binary64 *)

Module Binary64.

(** [(double) i] for an [int]: exact, since |i| < 2^53. *)
Definition double_of_int (z : Z) : float :=
  match z with
  | Z0 => PrimFloat.zero
  | Zpos _ => PrimFloat.of_uint63 (Uint63.of_Z z)
  | Zneg p => PrimFloat.opp (PrimFloat.of_uint63 (Uint63.of_Z (Zpos p)))
  end.

(** Integral part of a finite binary64 number [±m·2^e]; a NaN or an
    infinity has none. *)
Definition integral_part (d : float) : option Z :=
  match Prim2SF d with
  | S754_zero _ => Some 0
  | S754_finite s m e =>
      let a := Z.shiftl (Zpos m) e in
      Some (if s then - a else a)
  | S754_infinity _ | S754_nan => None
  end.

(** The two functions of libm the source calls are arguments. *)
Definition ops (log : float → float) (fmod : float → float → float)
  : DoubleOps float := {|
  dadd := PrimFloat.add;
  dsub := PrimFloat.sub;
  dmul := PrimFloat.mul;
  ddiv := PrimFloat.div;
  dleb := PrimFloat.leb;
  dltb := PrimFloat.ltb;
  dabs := PrimFloat.abs;
  dlog := log;
  dfmod := fmod;
  of_int := double_of_int;
  trunc := integral_part
  |}.


(** Stand-ins for the two functions of libm, so that the model runs.
    [ref_fmod] is the exact remainder of ISO C ([x − n·y], [n] the quotient
    truncated toward zero, with the sign of [x]).  [ref_log] reduces its
    argument to [m·2^e] with [m] in [[√½, √2)] and sums thirteen terms of
    [log m = 2·atanh ((m − 1)/(m + 1))]; it is a few units in the last
    place off the true logarithm, as a libm may be. *)
Definition ref_fmod (x y : float) : float :=
  match Prim2SF x, Prim2SF y with
  | S754_finite sx mx ex, S754_finite _ my ey =>
      let e := Z.min ex ey in
      let a := Z.shiftl (Zpos mx) (ex - e) in
      let b := Z.shiftl (Zpos my) (ey - e) in
      let r := a mod b in
      let f := Z.ldexp (PrimFloat.of_uint63 (Uint63.of_Z r)) e in
      if sx then PrimFloat.opp f else f
  | S754_zero _, S754_finite _ _ _
  | S754_zero _, S754_infinity _
  | S754_finite _ _ _, S754_infinity _ => x
  | _, _ => PrimFloat.nan
  end.

Fixpoint atanh_poly (n : nat) (d s2 : float) : float :=
  match n with
  | O => PrimFloat.div 1 d
  | S n' =>
      PrimFloat.add (PrimFloat.div 1 d)
        (PrimFloat.mul s2 (atanh_poly n' (PrimFloat.add d 2) s2))
  end.

Definition ln2 : float := 0x1.62e42fefa39efp-1%float.
Definition sqrt_half : float := 0x1.6a09e667f3bcdp-1%float.

Definition ref_log (x : float) : float :=
  match Prim2SF x with
  | S754_nan => PrimFloat.nan
  | S754_zero _ => PrimFloat.neg_infinity
  | S754_infinity s | S754_finite s _ _ =>
      if s then PrimFloat.nan
      else if PrimFloat.eqb x PrimFloat.infinity then PrimFloat.infinity
      else
        let '(m, e) := Z.frexp x in
        let '(m, e) :=
          if PrimFloat.ltb m sqrt_half then (PrimFloat.mul 2 m, e - 1)
          else (m, e) in
        let s := PrimFloat.div (PrimFloat.sub m 1) (PrimFloat.add m 1) in
        PrimFloat.add (PrimFloat.mul (double_of_int e) ln2)
          (PrimFloat.mul (PrimFloat.mul 2 s)
             (atanh_poly 12 1 (PrimFloat.mul s s)))
  end.

Definition reference : DoubleOps float := ops ref_log ref_fmod.

End Binary64.

(** *** Instance 2: real numbers *)

Module RealArith.

Definition leb (a b : R) : bool := if Rle_dec a b then true else false.
Definition ltb (a b : R) : bool := if Rlt_dec a b then true else false.

(** Integral part toward zero: [floor] on the non-negative side. *)
Definition integral_part (r : R) : option Z :=
  Some (if Rle_dec 0 r then Int_part r else - Int_part (- r)).

(** [fmod x y = x - n·y], [n] the integral part of [x / y]. *)
Definition fmod (x y : R) : R :=
  let q := (x / y)%R in
  let n := if Rle_dec 0 q then Int_part q else - Int_part (- q) in
  (x - IZR n * y)%R.

Definition ops : DoubleOps R := {|
  dadd := Rplus;
  dsub := Rminus;
  dmul := Rmult;
  ddiv := Rdiv;
  dleb := leb;
  dltb := ltb;
  dabs := Rabs;
  dlog := ln;
  dfmod := fmod;
  of_int := IZR;
  trunc := integral_part
  |}.

End RealArith.

(** ** The source functions, over any [DoubleOps] *)

Section Kernel.
Context `{DoubleOps D}.
Local Open Scope double_scope.

Local Notation "# z" := (of_int z) (at level 1, format "# z").

(** [static inline double map_pixel_to_complex(int pixel, int dimension,
    double center, double scale)]; [dimension / 2] is an [int] division. *)
Definition map_pixel_to_complex (pixel dimension : Z) (center scale : D) : D :=
  center + #(pixel - dimension ÷ 2) * scale.

(** The [while] loop of [mandelbrot]; [fuel] bounds the iterations and
    [escape_loop_fuel] below shows that [max_iter] of it is enough. *)
Fixpoint escape_loop (fuel : nat) (x0 y0 : D) (max_iter : Z)
    (x y : D) (iter : Z) : D * D * Z :=
  match fuel with
  | O => (x, y, iter)
  | S fuel' =>
      if (x * x + y * y <=? #4) && (iter <? max_iter)%Z then
        let xtemp := x * x - y * y + x0 in
        let y' := #2 * x * y + y0 in
        escape_loop fuel' x0 y0 max_iter xtemp y' (iter + 1)%Z
      else (x, y, iter)
  end.

(** The value of the expression [iter + 1 - nu] before it is returned. *)
Definition smooth_count (x y : D) (iter : Z) : D :=
  let log_zn := dlog (x * x + y * y) / #2 in
  let nu := dlog (log_zn / dlog #2) / dlog #2 in
  #(iter + 1) - nu.

(** [int mandelbrot(double x0, double y0, int max_iter)] *)
Definition mandelbrot (x0 y0 : D) (max_iter : Z) : option Z :=
  let '(x, y, iter) :=
    escape_loop (Z.to_nat max_iter) x0 y0 max_iter #0 #0 0%Z in
  if (iter =? max_iter)%Z then Some max_iter
  else to_int (smooth_count x y iter).

(** The six-way selection of [iteration_to_color]. *)
Definition hsv_select (hue c x : D) : D * D * D :=
  if hue <? #60 then (c, x, #0)
  else if hue <? #120 then (x, c, #0)
  else if hue <? #180 then (#0, c, x)
  else if hue <? #240 then (#0, x, c)
  else if hue <? #300 then (x, #0, c)
  else (c, #0, x).

(** [void iteration_to_color(double iter, int max_iter, unsigned char* rgb)];
    the three bytes stored through [rgb] are the result. *)
Definition iteration_to_color (iter : D) (max_iter : Z) : option (Z * Z * Z) :=
  if #max_iter <=? iter then Some (0, 0, 0)%Z
  else
    let t := iter / #max_iter in
    let hue := #360 * t in
    let c := #1 in
    let x := c * (#1 - dabs (dfmod (hue / #60) #2 - #1)) in
    let m := #0 in
    let '(r, g, b) := hsv_select hue c x in
    r' ← to_uchar ((r + m) * #255);
    g' ← to_uchar ((g + m) * #255);
    b' ← to_uchar ((b + m) * #255);
    Some (r', g', b').

(** [for (int i = lo; i < hi; i++) body], the state threaded through. *)
Fixpoint for_each {S : Type} (l : list Z) (body : Z → S → option S) (s : S)
    : option S :=
  match l with
  | [] => Some s
  | i :: l' => s' ← body i s; for_each l' body s'
  end.

Definition for_range {S : Type} (lo hi : Z) (body : Z → S → option S) (s : S)
    : option S :=
  for_each (seqZ lo (hi - lo)) body s.

(** [buffer[i] = v]; a store outside the buffer is undefined. *)
Definition store (buffer : list Z) (i v : Z) : option (list Z) :=
  if (0 <=? i)%Z && (i <? Z.of_nat (length buffer))%Z
  then Some (<[Z.to_nat i := v]> buffer) else None.

(** [void compute_rows(double zoom, double centerX, double centerY,
    int startY, int endY, int width, int height, int max_iter,
    unsigned char* buffer)]; the buffer after the call is the result. *)
Definition compute_rows (zoom centerX centerY : D)
    (startY endY width height max_iter : Z) (buffer : list Z)
    : option (list Z) :=
  let scale := #4 / (#width * zoom) in
  for_range startY endY (λ y buffer,
    for_range 0 width (λ x buffer,
      let cx := map_pixel_to_complex x width centerX scale in
      let cy := map_pixel_to_complex y height centerY scale in
      it ← mandelbrot cx cy max_iter;
      let iter := #it in
      let localY := (y - startY)%Z in
      let index := ((localY * width + x) * 3)%Z in
      '(r, g, b) ← iteration_to_color iter max_iter;
      buffer ← store buffer index r;
      buffer ← store buffer (index + 1) g;
      store buffer (index + 2) b) buffer) buffer.
End Kernel.

(** ** The escape loop and the orbit of [z ↦ z² + c] *)

Section EscapeLoop.
Context `{DoubleOps D}.
Local Open Scope double_scope.

(** The [k]-th iterate of the loop body, from [(0, 0)]. *)
Fixpoint orbit (x0 y0 : D) (k : nat) : D * D :=
  match k with
  | O => (of_int 0, of_int 0)
  | S k' =>
      let '(x, y) := orbit x0 y0 k' in
      (x * x - y * y + x0, of_int 2 * x * y + y0)
  end.

(** The first conjunct of the loop guard, [x*x + y*y <= 4.0]. *)
Definition within_radius (p : D * D) : bool :=
  p.1 * p.1 + p.2 * p.2 <=? of_int 4.

(** What the loop computes: started at the [k]-th iterate it stops at the
    first later iterate [j] that fails the guard, or when the fuel is
    spent. *)
Lemma escape_loop_orbit (x0 y0 : D) (max_iter : Z) (fuel k : nat) :
  ∃ j : nat,
    escape_loop fuel x0 y0 max_iter (orbit x0 y0 k).1 (orbit x0 y0 k).2
      (Z.of_nat k) = ((orbit x0 y0 j).1, (orbit x0 y0 j).2, Z.of_nat j)
    ∧ (k ≤ j ≤ k + fuel)%nat
    ∧ (∀ i, (k ≤ i < j)%nat →
         within_radius (orbit x0 y0 i) = true ∧ (Z.of_nat i < max_iter)%Z)
    ∧ ((j < k + fuel)%nat →
         within_radius (orbit x0 y0 j) && (Z.of_nat j <? max_iter)%Z = false).
Proof.
  revert k; induction fuel as [|fuel IH]; intros k.
  - exists k. simpl. repeat split; intros; lia.
  - simpl.
    destruct (_ && _) eqn:Hg.
    + destruct (IH (S k)) as (j & Hj & Hr & Hb & He).
      exists j. repeat split; try lia.
      * rewrite <- Hj. simpl orbit.
        destruct (orbit x0 y0 k) as [x y]; simpl.
        by rewrite Nat2Z.inj_succ, <- Z.add_1_r.
      * destruct (decide (i = k)) as [->|Hne].
        -- by apply andb_prop in Hg as [Hg _].
        -- apply Hb; lia.
      * destruct (decide (i = k)) as [->|Hne].
        -- apply andb_prop in Hg as [_ Hg]. lia.
        -- apply Hb; lia.
      * intros; apply He; lia.
    + exists k. repeat split; intros; try lia. done.
Qed.

(** [max_iter] units of fuel are enough: the loop leaves through its guard,
    and more fuel changes nothing. *)
Lemma escape_loop_fuel (x0 y0 : D) (max_iter : Z) (fuel : nat) :
  (Z.to_nat max_iter ≤ fuel)%nat →
  escape_loop fuel x0 y0 max_iter (of_int 0) (of_int 0) 0
  = escape_loop (Z.to_nat max_iter) x0 y0 max_iter (of_int 0) (of_int 0) 0.
Proof.
  intros Hf.
  destruct (escape_loop_orbit x0 y0 max_iter fuel 0) as (j & Hj & Hr & Hb & He).
  destruct (escape_loop_orbit x0 y0 max_iter (Z.to_nat max_iter) 0)
    as (j' & Hj' & Hr' & Hb' & He').
  change (Z.of_nat 0) with 0%Z in Hj, Hj'. simpl in Hj, Hj'.
  rewrite Hj, Hj'.
  assert (Hjm : (j ≤ Z.to_nat max_iter)%nat).
  { destruct j as [|j]; [lia|]. destruct (Hb j) as [_ ?]; lia. }
  assert (j = j') as ->; [|done].
  destruct (Nat.lt_trichotomy j j') as [Hlt|[->|Hlt]]; [|done|].
  - destruct (Hb' j) as [Hw Hlt']; [lia|].
    specialize (He ltac:(lia)). rewrite Hw in He. simpl in He. lia.
  - destruct (Hb j') as [Hw Hlt']; [lia|].
    specialize (He' ltac:(lia)). rewrite Hw in He'. simpl in He'. lia.
Qed.

(** The value of [iter] when the loop of [mandelbrot] is left. *)
Definition escape_iter (x0 y0 : D) (max_iter : Z) : Z :=
  (escape_loop (Z.to_nat max_iter) x0 y0 max_iter (of_int 0) (of_int 0) 0).2.

(** The two exits of [mandelbrot], in terms of the orbit: either all of
    the first [max_iter] iterates lie within the radius and [max_iter] is
    returned, or the iterate [j < max_iter] is the first outside of it and
    the integral part of the smooth count at that iterate is returned. *)
Lemma mandelbrot_cases (x0 y0 : D) (max_iter : Z) :
  (0 ≤ max_iter)%Z →
  ∃ j : nat,
    escape_iter x0 y0 max_iter = Z.of_nat j
    ∧ (∀ i, (i < j)%nat → within_radius (orbit x0 y0 i) = true)
    ∧ ((Z.of_nat j = max_iter ∧ mandelbrot x0 y0 max_iter = Some max_iter)
       ∨ ((Z.of_nat j < max_iter)%Z
          ∧ within_radius (orbit x0 y0 j) = false
          ∧ mandelbrot x0 y0 max_iter
            = to_int (smooth_count (orbit x0 y0 j).1 (orbit x0 y0 j).2
                        (Z.of_nat j)))).
Proof.
  intros Hm. unfold escape_iter, mandelbrot.
  destruct (escape_loop_orbit x0 y0 max_iter (Z.to_nat max_iter) 0)
    as (j & Hj & Hr & Hb & He).
  change (Z.of_nat 0) with 0%Z in Hj. simpl in Hj. rewrite Hj. simpl.
  exists j. split; [done|]. split.
  { intros i Hi. apply Hb; lia. }
  destruct (Z.eqb_spec (Z.of_nat j) max_iter) as [Heq|Hne]; [by left|right].
  assert (Hlt : (Z.of_nat j < max_iter)%Z) by lia.
  specialize (He ltac:(lia)).
  split; [done|]. split; [|done].
  apply andb_false_iff in He as [He|He]; [done|lia].
Qed.
End EscapeLoop.

(** ** Termination of the kernel *)

Section KernelTermination.
Context `{DoubleOps D}.

(** The value of the variable [nu] of [mandelbrot]. *)
Definition nu (x y : D) : D :=
  let log_zn := ddiv (dlog (dadd (dmul x x) (dmul y y))) (of_int 2) in
  ddiv (dlog (ddiv log_zn (dlog (of_int 2)))) (dlog (of_int 2)).

Lemma smooth_count_nu (x y : D) (iter : Z) :
  smooth_count x y iter = dsub (of_int (iter + 1)) (nu x y).
Proof. done. Qed.

(** For any arithmetic of [double]: the loop of [mandelbrot] runs
    [j ≤ max_iter] iterations, each test before the [j]-th passing, and
    leaves through its guard; fuel beyond [max_iter] changes nothing; all
    [max_iter] iterations are run exactly when every test passed, and then
    [max_iter] is returned; otherwise the test failed at the iterate [j]
    and the conversion of the smooth count there is returned. *)
Lemma mandelbrot_exits (cx cy : D) (max_iter : Z) :
  1 ≤ max_iter →
  ∃ j : nat,
    escape_loop (Z.to_nat max_iter) cx cy max_iter (of_int 0) (of_int 0) 0
      = ((orbit cx cy j).1, (orbit cx cy j).2, Z.of_nat j)
    ∧ Z.of_nat j ≤ max_iter
    ∧ (∀ i, (i < j)%nat → within_radius (orbit cx cy i) = true)
    ∧ within_radius (orbit cx cy j) && (Z.of_nat j <? max_iter) = false
    ∧ (∀ fuel, (Z.to_nat max_iter ≤ fuel)%nat →
         escape_loop fuel cx cy max_iter (of_int 0) (of_int 0) 0
         = escape_loop (Z.to_nat max_iter) cx cy max_iter
             (of_int 0) (of_int 0) 0)
    ∧ (Z.of_nat j = max_iter ↔
         ∀ k, (k < Z.to_nat max_iter)%nat →
              within_radius (orbit cx cy k) = true)
    ∧ (Z.of_nat j = max_iter → mandelbrot cx cy max_iter = Some max_iter)
    ∧ (Z.of_nat j < max_iter →
         within_radius (orbit cx cy j) = false
         ∧ mandelbrot cx cy max_iter
           = to_int (smooth_count (orbit cx cy j).1 (orbit cx cy j).2
                       (Z.of_nat j))).
Proof.
  intros Hm.
  destruct (mandelbrot_cases cx cy max_iter) as (j & Hj & Hin & Hcase); [lia|].
  pose proof (escape_loop_orbit cx cy max_iter (Z.to_nat max_iter) 0)
    as (j' & Hj' & Hr' & _ & He').
  change (Z.of_nat 0) with 0 in Hj'. simpl in Hj'.
  assert (j' = j) as ->.
  { unfold escape_iter in Hj. rewrite Hj' in Hj. simpl in Hj. lia. }
  exists j. split; [exact Hj'|].
  assert (Hjm : Z.of_nat j ≤ max_iter)
    by (destruct Hcase as [[? _]|[? _]]; lia).
  split; [done|]. split; [done|]. split.
  { destruct (decide (Z.of_nat j = max_iter)) as [Heq|Hne].
    - apply andb_false_iff; right. lia.
    - apply He'. lia. }
  split; [intros fuel Hf; exact (escape_loop_fuel cx cy max_iter fuel Hf)|].
  split.
  { split.
    - intros Heq k Hk. apply Hin. lia.
    - intros Hall. destruct Hcase as [[Heq _]|(Hlt & Hout & _)]; [done|].
      rewrite Hall in Hout by lia. done. }
  split.
  - intros Heq. destruct Hcase as [[_ Hret]|[Hlt _]]; [done|lia].
  - intros Hlt. destruct Hcase as [[Heq _]|(_ & Hout & Hret)]; [lia|done].
Qed.
End KernelTermination.

(** ** The kernel over the real numbers *)

Module RealKernel.
  #[local] Existing Instance RealArith.ops.
Local Open Scope R_scope.

Lemma leb_true (a b : R) : RealArith.leb a b = true ↔ a <= b.
Proof. unfold RealArith.leb. destruct (Rle_dec a b); naive_solver. Qed.

Lemma leb_false (a b : R) : RealArith.leb a b = false ↔ b < a.
Proof.
  unfold RealArith.leb. destruct (Rle_dec a b); split; try done; lra.
Qed.

Lemma ln_2_pos : 0 < ln 2.
Proof. rewrite <- ln_1. apply ln_increasing; lra. Qed.

Lemma ln_4 : ln 4 = 2 * ln 2.
Proof. replace 4 with (2 * 2) by lra. rewrite ln_mult; lra. Qed.

(** [nu] is positive once the orbit has left the radius. *)
Lemma nu_pos (s : R) : 4 < s → 0 < ln (ln s / 2 / ln 2) / ln 2.
Proof.
  intros Hs. pose proof ln_2_pos as H2.
  assert (Hl : 2 * ln 2 < ln s).
  { rewrite <- ln_4. apply ln_increasing; lra. }
  apply Rdiv_lt_0_compat; [|done].
  rewrite <- ln_1. apply ln_increasing; [lra|].
  apply Rmult_lt_reg_r with (ln 2); [done|].
  unfold Rdiv. rewrite Rmult_assoc, Rinv_l by lra. lra.
Qed.

Lemma to_int_between (r : R) (k : Z) :
  (0 ≤ k ≤ INT_MAX)%Z → IZR k <= r < IZR k + 1 → to_int r = Some k.
Proof.
  intros Hk [Hlo Hhi]. unfold to_int. simpl.
  assert (0 <= IZR k) by (apply (IZR_le 0 k); lia).
  assert (0 <= r) by lra.
  destruct (Rle_dec 0 r); [|done].
  rewrite <- (Int_part_spec r k) by lra.
  unfold in_int_range, INT_MIN, INT_MAX in *.
  by destruct (Z.leb_spec (-2147483648) k), (Z.leb_spec k 2147483647); try lia.
Qed.

(** *** The result is defined for the views of interest *)

(** One iteration from within the radius, with [|c|² ≤ 16], lands within
    [|z|² ≤ 64]. *)
Lemma step_bound (cx cy x y : R) :
  cx * cx + cy * cy <= 16 → x * x + y * y <= 4 →
  (x * x - y * y + cx) * (x * x - y * y + cx)
  + (2 * x * y + cy) * (2 * x * y + cy) <= 64.
Proof.
  intros Hc Hz.
  assert (Hsq : (x * x - y * y) * (x * x - y * y) + (2 * x * y) * (2 * x * y)
                = (x * x + y * y) * (x * x + y * y)) by ring.
  assert (0 <= x * x + y * y) as H0 by nra.
  assert ((x * x + y * y) * (x * x + y * y) <= 16) as H16 by nra.
  set (A := x * x - y * y) in *. set (B := 2 * x * y) in *.
  pose proof (Rle_0_sqr (A - cx)) as HA. pose proof (Rle_0_sqr (B - cy)) as HB.
  unfold Rsqr in HA, HB. lra.
Qed.

(** For [4 < s ≤ 64], [nu] lies strictly between 0 and 2. *)
Lemma nu_range (s : R) : 4 < s <= 64 → 0 < ln (ln s / 2 / ln 2) / ln 2 < 2.
Proof.
  intros [Hlo Hhi]. split; [by apply nu_pos|].
  pose proof ln_2_pos as H2. pose proof ln_4 as H4.
  assert (H64 : ln 64 = 6 * ln 2).
  { replace 64 with (4 * (4 * 4)) by lra. rewrite !ln_mult by lra. lra. }
  assert (Hs : 2 * ln 2 < ln s <= 6 * ln 2).
  { rewrite <- H4, <- H64. split; [apply ln_increasing; lra|].
    destruct (Req_dec s 64) as [->|Hne]; [lra|].
    left. apply ln_increasing; lra. }
  set (q := ln s / 2 / ln 2).
  assert (Hq : 1 < q <= 3).
  { unfold q. split.
    - apply Rmult_lt_reg_r with (ln 2); [done|].
      unfold Rdiv. rewrite Rmult_assoc, Rinv_l by lra. lra.
    - apply Rmult_le_reg_r with (ln 2); [done|].
      unfold Rdiv. rewrite Rmult_assoc, Rinv_l by lra. lra. }
  assert (ln q < 2 * ln 2) as Hlnq.
  { rewrite <- H4. apply ln_increasing; lra. }
  apply Rmult_lt_reg_r with (ln 2); [done|].
  unfold Rdiv. rewrite Rmult_assoc, Rinv_l by lra. lra.
Qed.

(** For [cx² + cy² ≤ 16] and [1 ≤ max_iter ≤ INT_MAX] the conversion to
    [int] is defined: the kernel returns a value, [max_iter] or one of
    [iter − 1], [iter] for the [iter] at which the loop was left. *)
Lemma mandelbrot_defined (cx cy : R) (max_iter : Z) :
  cx * cx + cy * cy <= 16 → (1 ≤ max_iter ≤ INT_MAX)%Z →
  ∃ r, mandelbrot cx cy max_iter = Some r
    ∧ (escape_iter cx cy max_iter - 1 ≤ r ≤ escape_iter cx cy max_iter)%Z
    ∧ (0 ≤ r ≤ max_iter)%Z.
Proof.
  intros Hc Hm.
  destruct (mandelbrot_cases cx cy max_iter) as (j & Hj & Hin & Hcase); [lia|].
  rewrite Hj.
  destruct Hcase as [[Heq Hret]|(Hlt & Hout & Hret)].
  - exists max_iter. split; [done|]. lia.
  - destruct j as [|j].
    { exfalso. apply leb_false in Hout. simpl in Hout. lra. }
    pose proof (Hin j ltac:(lia)) as Hprev. apply leb_true in Hprev.
    apply leb_false in Hout. simpl in Hout, Hprev.
    destruct (orbit cx cy j) as [x y] eqn:Ho. simpl in Hout, Hprev.
    change (of_int 2) with 2 in Hout. change (of_int 4) with 4 in Hout, Hprev.
    pose proof (step_bound cx cy x y Hc Hprev) as Hb.
    set (x' := x * x - y * y + cx) in *. set (y' := 2 * x * y + cy) in *.
    destruct (nu_range (x' * x' + y' * y') ltac:(lra)) as [Hnu0 Hnu2].
    rewrite Hret. simpl orbit. rewrite Ho. simpl fst. simpl snd.
    change (of_int 2 * x * y + cy) with y'. fold x'.
    assert (Hs : IZR (Z.of_nat j) < smooth_count x' y' (Z.of_nat (S j))
                 < IZR (Z.of_nat j) + 2).
    { unfold smooth_count. simpl.
      replace (Z.of_nat (S j) + 1)%Z with (Z.of_nat j + 2)%Z by lia.
      rewrite plus_IZR. lra. }
    assert (0 <= IZR (Z.of_nat j)) as Hj0 by (apply IZR_le; lia).
    set (sc := smooth_count x' y' (Z.of_nat (S j))) in *.
    assert (HS : IZR (Z.of_nat (S j)) = IZR (Z.of_nat j) + 1)
      by (by rewrite Nat2Z.inj_succ, succ_IZR).
    destruct (Rle_dec (IZR (Z.of_nat j) + 1) sc) as [Hge|Hlt'].
    + exists (Z.of_nat (S j)). split; [|lia].
      apply to_int_between; [lia|].
      change (IZR (Z.of_nat (S j)) <= sc < IZR (Z.of_nat (S j)) + 1). lra.
    + exists (Z.of_nat j). split; [|lia].
      apply to_int_between; [lia|].
      change (IZR (Z.of_nat j) <= sc < IZR (Z.of_nat j) + 1). lra.
Qed.

(** *** The kernel at [(0, 0)] and at [(2, 0)] *)

Lemma escape_loop_enter (x0 y0 x y : R) (max_iter i : Z) (fuel : nat) :
  x * x + y * y <= 4 → (i < max_iter)%Z →
  escape_loop (S fuel) x0 y0 max_iter x y i
  = escape_loop fuel x0 y0 max_iter (x * x - y * y + x0) (2 * x * y + y0) (i + 1).
Proof.
  intros Hr%leb_true Hi. simpl. simpl in Hr. rewrite Hr.
  by destruct (Z.ltb_spec i max_iter); [|lia].
Qed.

Lemma escape_loop_leave (x0 y0 x y : R) (max_iter i : Z) (fuel : nat) :
  4 < x * x + y * y →
  escape_loop fuel x0 y0 max_iter x y i = (x, y, i).
Proof.
  intros Hr%leb_false. destruct fuel; [done|].
  simpl. simpl in Hr. by rewrite Hr.
Qed.

Lemma escape_loop_origin (max_iter : Z) (fuel : nat) (i : Z) :
  (i + Z.of_nat fuel ≤ max_iter)%Z →
  escape_loop fuel 0 0 max_iter 0 0 i = (0, 0, (i + Z.of_nat fuel)%Z).
Proof.
  revert i; induction fuel as [|fuel IH]; intros i Hi.
  - simpl. f_equal. lia.
  - rewrite escape_loop_enter by (lra || lia).
    replace (0 * 0 - 0 * 0 + 0) with 0 by lra.
    replace (2 * 0 * 0 + 0) with 0 by lra.
    rewrite IH by lia. f_equal. lia.
Qed.

Lemma mandelbrot_origin (max_iter : Z) :
  (0 ≤ max_iter)%Z → mandelbrot 0 0 max_iter = Some max_iter.
Proof.
  intros Hm. unfold mandelbrot. change (of_int 0) with 0.
  rewrite escape_loop_origin by lia.
  rewrite Z2Nat.id, Z.add_0_l, Z.eqb_refl by lia. done.
Qed.

Lemma iteration_to_color_max (max_iter : Z) :
  iteration_to_color (IZR max_iter) max_iter = Some (0, 0, 0)%Z.
Proof.
  unfold iteration_to_color.
  assert (dleb (of_int max_iter) (IZR max_iter) = true) as ->; [|done].
  apply leb_true. simpl. lra.
Qed.

(** At [(2, 0)] the guard holds twice, with [|z|² = 0] and [|z|² = 4]; the
    third iterate is [(6, 0)]. *)
Lemma escape_loop_2_0 (max_iter : Z) :
  (3 ≤ max_iter)%Z →
  escape_loop (Z.to_nat max_iter) 2 0 max_iter 0 0 0 = (6, 0, 2%Z).
Proof.
  intros Hm.
  replace (Z.to_nat max_iter) with (S (S (S (Z.to_nat max_iter - 3)))) by lia.
  rewrite escape_loop_enter by (lra || lia).
  replace (0 * 0 - 0 * 0 + 2) with 2 by lra.
  replace (2 * 0 * 0 + 0) with 0 by lra.
  rewrite escape_loop_enter by (lra || lia).
  replace (2 * 2 - 0 * 0 + 2) with 6 by lra.
  replace (2 * 2 * 0 + 0) with 0 by lra.
  by rewrite escape_loop_leave by lra.
Qed.

Lemma ln_between (a b c : R) : 0 < a → a < b → b < c → ln a < ln b < ln c.
Proof. intros. split; apply ln_increasing; lra. Qed.

(** The smooth count at the exit [(6, 0)], [iter = 2], is [3 − log₂ log₂ 6],
    strictly between 1 and 2. *)
Lemma smooth_count_2_0 : 1 < smooth_count 6 0 2 < 2.
Proof.
  unfold smooth_count. simpl.
  pose proof ln_2_pos as H2. pose proof ln_4 as H4.
  assert (H36 : ln (6 * 6 + 0 * 0) = 2 * ln 6).
  { replace (6 * 6 + 0 * 0) with (6 * 6) by lra. rewrite ln_mult; lra. }
  assert (H16 : ln 16 = 4 * ln 2).
  { replace 16 with (4 * 4) by lra. rewrite ln_mult; lra. }
  destruct (ln_between 4 6 16) as [Hlo Hhi]; [lra..|].
  set (q := ln (6 * 6 + 0 * 0) / 2 / ln 2).
  assert (Hq : 2 < q < 4).
  { unfold q. rewrite H36. replace (2 * ln 6 / 2) with (ln 6) by lra.
    split.
    - apply Rmult_lt_reg_r with (ln 2); [done|].
      unfold Rdiv. rewrite Rmult_assoc, Rinv_l by lra. lra.
    - apply Rmult_lt_reg_r with (ln 2); [done|].
      unfold Rdiv. rewrite Rmult_assoc, Rinv_l by lra. lra. }
  destruct (ln_between 2 q 4) as [Hlo' Hhi']; [lra..|].
  assert (Hnu : 1 < ln q / ln 2 < 2).
  { split.
    - apply Rmult_lt_reg_r with (ln 2); [done|].
      unfold Rdiv. rewrite Rmult_assoc, Rinv_l by lra. lra.
    - apply Rmult_lt_reg_r with (ln 2); [done|].
      unfold Rdiv. rewrite Rmult_assoc, Rinv_l by lra. lra. }
  change (IZR (2 + 1)) with 3. lra.
Qed.

Lemma mandelbrot_2_0 (max_iter : Z) :
  (3 ≤ max_iter)%Z → mandelbrot 2 0 max_iter = Some 1%Z.
Proof.
  intros Hm. unfold mandelbrot. change (of_int 0) with 0.
  rewrite escape_loop_2_0 by done.
  destruct (Z.eqb_spec 2 max_iter); [lia|].
  apply to_int_between; [done|]. pose proof smooth_count_2_0. lra.
Qed.

(** C3, at the input [(2, 0, 200)]: the loop is left with [iter = 2] at
    [(x, y) = (6, 0)], the smooth count [iter + 1 − nu] lies strictly
    between 1 and 2, and [mandelbrot], whose result is an [int], returns
    1: the integral part of the smooth count, not the smooth count. *)
Theorem mandelbrot_truncates_smooth_count :
  escape_loop (Z.to_nat 200) 2 0 200 0 0 0 = (6, 0, 2%Z)
  ∧ 1 < smooth_count 6 0 2 < 2
  ∧ mandelbrot 2 0 200 = Some 1%Z
  ∧ of_int 1 ≠ smooth_count 6 0 2.
Proof.
  pose proof smooth_count_2_0 as Hs.
  split; [by apply escape_loop_2_0|]. split; [done|].
  split; [by apply mandelbrot_2_0|]. change (of_int 1) with 1. lra.
Qed.



End RealKernel.

(** ** Facts of binary64

    From the specification of the primitive floats ([SpecFloat],
    [FloatAxioms]): the conversion of an [int] is exact and keeps the
    order, and subtracting a number that is not negative from it does not
    give more. *)

Module Binary64Facts.

Lemma SFcompare_refl (f : spec_float) :
  f ≠ S754_nan → SFcompare f f = Some Eq.
Proof.
  destruct f as [s|s| |s m e]; try done; intros _; simpl.
  - by destruct s.
  - rewrite Z.compare_refl, Pos.compare_cont_refl. by destruct s.
Qed.

(** A number that is not a NaN is at most itself. *)
Lemma leb_refl (x : float) : Prim2SF x ≠ S754_nan → PrimFloat.leb x x = true.
Proof.
  intros Hx. rewrite leb_spec. unfold SFleb. by rewrite SFcompare_refl.
Qed.

Lemma shr_1_nonneg (mrs : shr_record) :
  0 ≤ shr_m mrs → 0 ≤ shr_m (shr_1 mrs).
Proof. destruct mrs as [[|[p|p|]|p] r s]; simpl; lia. Qed.

Lemma iter_shr_1_nonneg (p : positive) (mrs : shr_record) :
  0 ≤ shr_m mrs → 0 ≤ shr_m (SpecFloat.iter_pos shr_1 p mrs).
Proof.
  revert mrs. induction p as [p IH|p IH|]; intros mrs Hm; simpl.
  - by apply IH, IH, shr_1_nonneg.
  - by apply IH, IH.
  - by apply shr_1_nonneg.
Qed.

Lemma shr_fexp_nonneg (prec emax m e : Z) (l : location) :
  0 ≤ m → 0 ≤ shr_m (shr_fexp prec emax m e l).1.
Proof.
  intros Hm. unfold shr_fexp, shr.
  assert (0 ≤ shr_m (shr_record_of_loc m l)) as H0
    by (by destruct l as [|[]]).
  destruct (_ - e) as [|p|p]; simpl; [done| |done].
  by apply iter_shr_1_nonneg.
Qed.

Lemma round_nearest_even_nonneg (m : Z) (l : location) :
  0 ≤ m → 0 ≤ round_nearest_even m l.
Proof.
  intros Hm. destruct l as [|[]]; simpl; try lia.
  destruct (Z.even m); lia.
Qed.

(** Rounding a non-negative mantissa gives a zero, a finite number or an
    infinity. *)
Lemma binary_round_aux_not_nan (prec emax : Z) (sx : bool) (mx ex : Z)
    (lx : location) :
  0 ≤ mx → binary_round_aux prec emax sx mx ex lx ≠ S754_nan.
Proof.
  intros Hm. unfold binary_round_aux.
  pose proof (shr_fexp_nonneg prec emax mx ex lx Hm) as H1.
  destruct (shr_fexp prec emax mx ex lx) as [mrs' e']. simpl in H1.
  pose proof (shr_fexp_nonneg prec emax _ e' loc_Exact
                (round_nearest_even_nonneg _ (loc_of_shr_record mrs') H1))
    as H2.
  destruct (shr_fexp prec emax _ e' loc_Exact) as [mrs'' e'']. simpl in H2.
  destruct (shr_m mrs'') as [|m|m]; [done| |lia].
  by destruct (e'' <=? emax - prec).
Qed.

Lemma binary_normalize_not_nan (prec emax m e : Z) (szero : bool) :
  binary_normalize prec emax m e szero ≠ S754_nan.
Proof.
  destruct m as [|m|m]; simpl; [done|..]; unfold binary_round;
    destruct (shl_align _ _ _) as [mz ez];
    by apply binary_round_aux_not_nan.
Qed.

(** The conversion of an [int] is never a NaN ... *)
Lemma double_of_int_not_nan (z : Z) :
  Prim2SF (Binary64.double_of_int z) ≠ S754_nan.
Proof.
  destruct z as [|p|p]; simpl.
  - by vm_compute.
  - rewrite of_uint63_spec. apply binary_normalize_not_nan.
  - rewrite opp_spec, of_uint63_spec.
    pose proof (binary_normalize_not_nan prec emax
                  (Uint63.to_Z (Uint63.of_Z (Z.pos p))) 0 false) as Hn.
    by destruct (binary_normalize _ _ _ _ _).
Qed.

(** ... so the test [iter >= max_iter] of the colour mapper holds at
    [iter = (double) max_iter]. *)
Lemma leb_double_of_int_refl (z : Z) :
  PrimFloat.leb (Binary64.double_of_int z) (Binary64.double_of_int z) = true.
Proof. apply leb_refl, double_of_int_not_nan. Qed.


(** *** The conversion of an [int] *)

Lemma digits2_size (p : positive) : digits2_pos p = Pos.size p.
Proof. induction p as [p IH|p IH|]; simpl; by rewrite ?IH. Qed.

(** [2^(d-1) ≤ p < 2^d] for the number [d] of binary digits of [p]. *)
Lemma digits2_bounds (p : positive) :
  2 ^ (Z.pos (digits2_pos p) - 1) ≤ Z.pos p < 2 ^ Z.pos (digits2_pos p).
Proof.
  rewrite digits2_size.
  pose proof (Pos.size_gt p) as Hgt. pose proof (Pos.size_le p) as Hle.
  apply Pos2Z.pos_lt_pos in Hgt. apply Pos2Z.pos_le_pos in Hle.
  rewrite Pos2Z.inj_pow in Hgt, Hle.
  change (Z.pos p~0) with (2 * Z.pos p) in Hle.
  split; [|done].
  assert (2 ^ Z.pos (Pos.size p) = 2 * 2 ^ (Z.pos (Pos.size p) - 1)) as Hpow.
  { rewrite <- Z.pow_succ_r by lia. f_equal. lia. }
  lia.
Qed.

Lemma digits2_mono (p q : positive) :
  Z.pos p ≤ Z.pos q → Z.pos (digits2_pos p) ≤ Z.pos (digits2_pos q).
Proof.
  intros Hpq.
  destruct (digits2_bounds p) as [Hp _]. destruct (digits2_bounds q) as [_ Hq].
  assert (2 ^ (Z.pos (digits2_pos p) - 1) < 2 ^ Z.pos (digits2_pos q)) as Hlt
    by lia.
  apply Z.pow_lt_mono_r_iff in Hlt; lia.
Qed.

Lemma digits2_le_53 (p : positive) :
  Z.pos p < 2 ^ 53 → Z.pos (digits2_pos p) ≤ 53.
Proof.
  intros Hp. destruct (digits2_bounds p) as [Hlo _].
  assert (2 ^ (Z.pos (digits2_pos p) - 1) < 2 ^ 53) as Hlt by lia.
  apply Z.pow_lt_mono_r_iff in Hlt; lia.
Qed.

Lemma iter_xO_pow (p n : positive) :
  Z.pos (Pos.iter xO p n) = Z.pos p * 2 ^ Z.pos n.
Proof.
  apply (Pos.iter_ind _ xO p (λ n q, Z.pos q = Z.pos p * 2 ^ Z.pos n)).
  - rewrite Pos2Z.inj_xO. lia.
  - intros k q Hq. rewrite Pos2Z.inj_xO, Hq, Pos2Z.inj_succ, Z.pow_succ_r; lia.
Qed.

Lemma digits2_iter_xO (p n : positive) :
  digits2_pos (Pos.iter xO p n) = (digits2_pos p + n)%positive.
Proof.
  apply (Pos.iter_ind _ xO p (λ n q, digits2_pos q = (digits2_pos p + n)%positive)).
  - simpl. lia.
  - intros k q Hq. simpl. rewrite Hq. lia.
Qed.

(** The mantissa and the exponent of [(double) z] for [0 < z < 2^53]: [z]
    shifted to 53 binary digits. *)
Definition normal_mantissa (p : positive) : positive :=
  match (53 - Z.pos (digits2_pos p))%Z with
  | Z.pos n => Pos.iter xO p n
  | _ => p
  end.

Definition normal_exponent (p : positive) : Z := Z.pos (digits2_pos p) - 53.

Lemma normal_mantissa_digits (p : positive) :
  Z.pos p < 2 ^ 53 → digits2_pos (normal_mantissa p) = 53%positive.
Proof.
  intros Hp. unfold normal_mantissa.
  pose proof (digits2_le_53 p Hp) as Hd.
  destruct (53 - Z.pos (digits2_pos p)) as [|n|n] eqn:Hn; [lia| |lia].
  rewrite digits2_iter_xO. lia.
Qed.

Lemma normal_mantissa_value (p : positive) :
  Z.pos p < 2 ^ 53 →
  Z.pos (normal_mantissa p) = Z.pos p * 2 ^ (- normal_exponent p).
Proof.
  intros Hp. unfold normal_mantissa, normal_exponent.
  pose proof (digits2_le_53 p Hp) as Hd.
  replace (- (Z.pos (digits2_pos p) - 53)) with (53 - Z.pos (digits2_pos p))
    by lia.
  destruct (53 - Z.pos (digits2_pos p)) as [|n|n] eqn:Hn; [lia| |lia].
  apply iter_xO_pow.
Qed.

Lemma binary_round_exact (p : positive) :
  Z.pos p < 2 ^ 53 →
  binary_round prec emax false p 0
  = S754_finite false (normal_mantissa p) (normal_exponent p).
Proof.
  intros Hp. pose proof (normal_mantissa_digits p Hp) as Hdig.
  pose proof (digits2_le_53 p Hp) as Hd.
  unfold binary_round, shl_align.
  assert (fexp prec emax (Z.pos (digits2_pos p) + 0)
          = Z.pos (digits2_pos p) - 53) as ->.
  { unfold fexp, SpecFloat.emin, prec, emax. lia. }
  assert ((let '(mz, ez) :=
             match Z.pos (digits2_pos p) - 53 - 0 with
             | Z.neg d => (Pos.iter xO p d, Z.pos (digits2_pos p) - 53)
             | _ => (p, 0)
             end in (mz, ez))
          = (normal_mantissa p, normal_exponent p)) as Hal.
  { unfold normal_mantissa, normal_exponent.
    destruct (Z.pos (digits2_pos p) - 53 - 0) as [|d|d] eqn:Hsub.
    - replace (53 - Z.pos (digits2_pos p)) with 0 by lia. f_equal. lia.
    - lia.
    - replace (53 - Z.pos (digits2_pos p)) with (Z.pos d) by lia. done. }
  destruct (match Z.pos (digits2_pos p) - 53 - 0 with
            | Z.neg d => _ | _ => _ end) as [mz ez].
  injection Hal as -> ->.
  unfold binary_round_aux, shr_fexp. cbn [Zdigits2]. rewrite Hdig.
  assert (fexp prec emax (53 + normal_exponent p) - normal_exponent p = 0)
    as Hz.
  { unfold fexp, SpecFloat.emin, prec, emax, normal_exponent. lia. }
  rewrite Hz. cbn [shr shr_record_of_loc shr_m loc_of_shr_record
                   round_nearest_even Zdigits2].
  rewrite Hdig, Hz. cbn [shr shr_record_of_loc shr_m].
  unfold normal_exponent, prec, emax.
  by destruct (Z.leb_spec (Z.pos (digits2_pos p) - 53) (1024 - 53)); [|lia].
Qed.

(** The conversion of an [int] is exact. *)
Lemma double_of_int_pos (p : positive) :
  Z.pos p < 2 ^ 53 →
  Prim2SF (Binary64.double_of_int (Z.pos p))
  = S754_finite false (normal_mantissa p) (normal_exponent p).
Proof.
  intros Hp. unfold Binary64.double_of_int.
  rewrite of_uint63_spec, Uint63.of_Z_spec.
  rewrite Z.mod_small by (unfold Uint63.wB, Uint63.size; simpl; lia).
  simpl binary_normalize. by apply binary_round_exact.
Qed.

Lemma double_of_int_neg (p : positive) :
  Z.pos p < 2 ^ 53 →
  Prim2SF (Binary64.double_of_int (Z.neg p))
  = S754_finite true (normal_mantissa p) (normal_exponent p).
Proof.
  intros Hp. unfold Binary64.double_of_int.
  rewrite opp_spec.
  pose proof (double_of_int_pos p Hp) as Hpos.
  unfold Binary64.double_of_int in Hpos. by rewrite Hpos.
Qed.

Lemma shiftl_normal (p : positive) :
  Z.pos p < 2 ^ 53 →
  Z.shiftl (Z.pos (normal_mantissa p)) (normal_exponent p) = Z.pos p.
Proof.
  intros Hp. rewrite normal_mantissa_value by done.
  assert (normal_exponent p ≤ 0) as He
    by (pose proof (digits2_le_53 p Hp); unfold normal_exponent; lia).
  rewrite <- (Z.opp_involutive (normal_exponent p)) at 2.
  rewrite Z.shiftl_opp_r, Z.shiftr_div_pow2 by lia.
  apply Z.div_mul. apply Z.pow_nonzero; lia.
Qed.

(** Converting an [int] to [double] and back gives the [int]. *)
Lemma integral_part_double_of_int (z : Z) :
  - 2 ^ 53 < z < 2 ^ 53 →
  Binary64.integral_part (Binary64.double_of_int z) = Some z.
Proof.
  intros Hz. unfold Binary64.integral_part.
  destruct z as [|p|p].
  - done.
  - rewrite double_of_int_pos by lia. by rewrite shiftl_normal by lia.
  - rewrite double_of_int_neg by lia. by rewrite shiftl_normal by lia.
Qed.

(** The conversion preserves the order. *)
Lemma SFcompare_normal (q p : positive) :
  Z.pos q < 2 ^ 53 → Z.pos p < 2 ^ 53 →
  SFcompare (S754_finite false (normal_mantissa q) (normal_exponent q))
    (S754_finite false (normal_mantissa p) (normal_exponent p))
  = Some (Z.pos q ?= Z.pos p).
Proof.
  intros Hq Hp. cbn [SFcompare]. f_equal. unfold normal_exponent.
  pose proof (digits2_le_53 q Hq) as Hq53.
  pose proof (digits2_le_53 p Hp) as Hp53.
  assert (Hmant : Z.pos (digits2_pos q) = Z.pos (digits2_pos p) →
            (normal_mantissa q ?= normal_mantissa p)%positive
            = (Z.pos q ?= Z.pos p)).
  { intros Hd.
    change ((normal_mantissa q ?= normal_mantissa p)%positive)
      with (Z.pos (normal_mantissa q) ?= Z.pos (normal_mantissa p)).
    rewrite !normal_mantissa_value by done. unfold normal_exponent.
    rewrite Hd. symmetry. apply Zmult_compare_compat_r.
    apply Z.lt_gt, Z.pow_pos_nonneg; lia. }
  destruct (Z.compare_spec (Z.pos q) (Z.pos p)) as [Heq|Hlt|Hgt].
  - injection Heq as ->. rewrite Z.compare_refl.
    by rewrite Pos.compare_cont_refl.
  - pose proof (digits2_mono q p ltac:(lia)) as Hd.
    destruct (Z.compare_spec (Z.pos (digits2_pos q) - 53)
                (Z.pos (digits2_pos p) - 53)) as [Heq|Hlt'|Hgt']; [|done|lia].
    rewrite Pos.compare_cont_spec. simpl. by rewrite Hmant by lia.
  - pose proof (digits2_mono p q ltac:(lia)) as Hd.
    destruct (Z.compare_spec (Z.pos (digits2_pos q) - 53)
                (Z.pos (digits2_pos p) - 53)) as [Heq|Hlt'|Hgt']; [|lia|done].
    rewrite Pos.compare_cont_spec. simpl. by rewrite Hmant by lia.
Qed.

(** The test [iter >= max_iter] of the colour mapper, on the conversion of
    an [int], decides as the integers do. *)
Lemma leb_double_of_int (m i : Z) :
  0 < m < 2 ^ 53 → - 2 ^ 53 < i < 2 ^ 53 →
  PrimFloat.leb (Binary64.double_of_int m) (Binary64.double_of_int i)
  = (m <=? i).
Proof.
  intros Hm Hi. rewrite leb_spec. unfold SFleb.
  destruct m as [|q|q]; [lia| |lia].
  rewrite (double_of_int_pos q) by lia.
  destruct i as [|p|p].
  - done.
  - rewrite (double_of_int_pos p), SFcompare_normal by lia.
    unfold Z.leb. by destruct (Z.pos q ?= Z.pos p).
  - rewrite (double_of_int_neg p) by lia. done.
Qed.

(** *** Rounding *)

Lemma shr_1_m (r : shr_record) :
  0 ≤ shr_m r → shr_m (shr_1 r) = shr_m r / 2.
Proof.
  destruct r as [[|[p|p|]|p] b s]; cbn [shr_1 shr_m]; intros Hm.
  - done.
  - change (Z.pos p~1) with (2 * Z.pos p + 1).
    apply Z.div_unique with 1; lia.
  - change (Z.pos p~0) with (2 * Z.pos p).
    apply Z.div_unique with 0; lia.
  - done.
  - lia.
Qed.

Lemma iter_shr_1_m (p : positive) (r : shr_record) :
  0 ≤ shr_m r →
  shr_m (SpecFloat.iter_pos shr_1 p r) = shr_m r / 2 ^ Z.pos p.
Proof.
  revert r. induction p as [p IH|p IH|]; intros r Hm;
    cbn [SpecFloat.iter_pos].
  - rewrite IH by (by apply iter_shr_1_nonneg, shr_1_nonneg).
    rewrite IH by (by apply shr_1_nonneg). rewrite shr_1_m by done.
    assert (0 < 2 ^ Z.pos p) by (apply Z.pow_pos_nonneg; lia).
    rewrite !Z.div_div by lia. f_equal.
    replace (Z.pos p~1) with (1 + Z.pos p + Z.pos p) by lia.
    rewrite !Z.pow_add_r by lia. lia.
  - rewrite IH by (by apply iter_shr_1_nonneg). rewrite IH by done.
    assert (0 < 2 ^ Z.pos p) by (apply Z.pow_pos_nonneg; lia).
    rewrite !Z.div_div by lia. f_equal.
    replace (Z.pos p~0) with (Z.pos p + Z.pos p) by lia.
    rewrite !Z.pow_add_r by lia. lia.
  - by rewrite shr_1_m.
Qed.

(** [shr_fexp] divides the mantissa by the power of two that brings the
    exponent to [fexp], when that is larger. *)
Lemma shr_fexp_m (m e : Z) (l : location) :
  0 ≤ m →
  let n := Z.max 0 (fexp prec emax (Zdigits2 m + e) - e) in
  shr_m (shr_fexp prec emax m e l).1 = m / 2 ^ n
  ∧ (shr_fexp prec emax m e l).2 = e + n.
Proof.
  intros Hm n. unfold shr_fexp, shr. subst n.
  assert (shr_m (shr_record_of_loc m l) = m) as H0 by (by destruct l as [|[]]).
  destruct (fexp prec emax (Zdigits2 m + e) - e) as [|p|p]; simpl.
  - rewrite H0, Z.div_1_r. split; [done|lia].
  - rewrite iter_shr_1_m by lia. rewrite H0. done.
  - rewrite H0, Z.div_1_r. split; [done|lia].
Qed.

Lemma round_nearest_even_le (m : Z) (l : location) :
  round_nearest_even m l ≤ m + 1.
Proof. destruct l as [|[]]; simpl; try lia. destruct (Z.even m); lia. Qed.

Lemma Zdigits2_le (m k : Z) : 0 ≤ m < 2 ^ k → 0 ≤ k → Zdigits2 m ≤ k.
Proof.
  intros [Hlo Hhi] Hk. destruct m as [|p|p]; simpl; [done| |lia].
  destruct (digits2_bounds p) as [Hp _].
  assert (2 ^ (Z.pos (digits2_pos p) - 1) < 2 ^ k) as Hlt by lia.
  apply Z.pow_lt_mono_r_iff in Hlt; lia.
Qed.

Lemma fexp_le_0 (d : Z) : d ≤ 53 → fexp prec emax d ≤ 0.
Proof. unfold fexp, SpecFloat.emin, prec, emax. lia. Qed.

(** The integral part of a number of [spec_float]. *)
Definition sf_integral (f : spec_float) : option Z :=
  match f with
  | S754_zero _ => Some 0
  | S754_finite s m e =>
      let a := Z.shiftl (Zpos m) e in
      Some (if s then - a else a)
  | S754_infinity _ | S754_nan => None
  end.

Lemma integral_part_sf (d : float) :
  Binary64.integral_part d = sf_integral (Prim2SF d).
Proof. done. Qed.

(** Rounding a positive number below the integer [K ≤ 2^31] gives a number
    whose integral part is at most [K]. *)
Lemma binary_round_aux_below (mx ex K : Z) (lx : location) (z : Z) :
  0 ≤ mx → ex ≤ 0 → 0 < K ≤ 2 ^ 31 → mx < K * 2 ^ (- ex) →
  sf_integral (binary_round_aux prec emax false mx ex lx) = Some z → z ≤ K.
Proof.
  intros Hmx Hex HK Hlt. unfold binary_round_aux.
  destruct (shr_fexp_m mx ex lx Hmx) as [Hm1 He1].
  destruct (shr_fexp prec emax mx ex lx) as [mrs1 e1]. simpl in Hm1, He1.
  set (n1 := Z.max 0 (fexp prec emax (Zdigits2 mx + ex) - ex)) in *.
  assert (0 < 2 ^ (- ex)) as Hpex by (apply Z.pow_pos_nonneg; lia).
  assert (K * 2 ^ (- ex) ≤ 2 ^ (31 - ex)) as HKex.
  { replace (31 - ex) with (31 + - ex) by lia.
    rewrite Z.pow_add_r by lia. nia. }
  assert (Zdigits2 mx ≤ 31 - ex) as Hdx by (apply Zdigits2_le; lia).
  assert (e1 ≤ 0) as He10.
  { pose proof (fexp_le_0 (Zdigits2 mx + ex) ltac:(lia)). lia. }
  assert (0 ≤ n1) as Hn1 by lia.
  assert (0 < 2 ^ n1) as Hpn1 by (apply Z.pow_pos_nonneg; lia).
  assert (0 < 2 ^ (- e1)) as Hpe1 by (apply Z.pow_pos_nonneg; lia).
  assert (2 ^ (- ex) = 2 ^ (- e1) * 2 ^ n1) as Hsplit.
  { rewrite <- Z.pow_add_r by lia. f_equal. lia. }
  assert (shr_m mrs1 < K * 2 ^ (- e1)) as Hm1lt.
  { rewrite Hm1. apply Z.div_lt_upper_bound; [done|]. nia. }
  assert (0 ≤ shr_m mrs1) as Hm1pos
    by (rewrite Hm1; apply Z.div_pos; lia).
  set (m2 := round_nearest_even (shr_m mrs1) (loc_of_shr_record mrs1)).
  assert (0 ≤ m2 ≤ K * 2 ^ (- e1)) as Hm2.
  { split; [by apply round_nearest_even_nonneg|].
    pose proof (round_nearest_even_le (shr_m mrs1) (loc_of_shr_record mrs1)).
    unfold m2. lia. }
  destruct (shr_fexp_m m2 e1 loc_Exact ltac:(lia)) as [Hm3 He3].
  destruct (shr_fexp prec emax m2 e1 loc_Exact) as [mrs3 e3].
  simpl in Hm3, He3.
  set (n2 := Z.max 0 (fexp prec emax (Zdigits2 m2 + e1) - e1)) in *.
  assert (K * 2 ^ (- e1) < 2 ^ (32 - e1)) as HKe1.
  { replace (32 - e1) with (32 + - e1) by lia.
    rewrite Z.pow_add_r by lia. nia. }
  assert (Zdigits2 m2 ≤ 32 - e1) as Hd2 by (apply Zdigits2_le; lia).
  assert (e3 ≤ 0) as He30.
  { pose proof (fexp_le_0 (Zdigits2 m2 + e1) ltac:(lia)). lia. }
  assert (0 ≤ n2) as Hn2 by lia.
  assert (0 < 2 ^ n2) as Hpn2 by (apply Z.pow_pos_nonneg; lia).
  assert (0 < 2 ^ (- e3)) as Hpe3 by (apply Z.pow_pos_nonneg; lia).
  assert (2 ^ (- e1) = 2 ^ (- e3) * 2 ^ n2) as Hsplit2.
  { rewrite <- Z.pow_add_r by lia. f_equal. lia. }
  destruct (shr_m mrs3) as [|m3|m3] eqn:Hm3eq.
  - simpl. intros [= <-]. lia.
  - destruct (e3 <=? emax - prec); [|done]. simpl. intros [= <-].
    rewrite <- (Z.opp_involutive e3), Z.shiftl_opp_r, Z.shiftr_div_pow2 by lia.
    apply Z.div_le_upper_bound; [done|].
    assert (Z.pos m3 * 2 ^ n2 ≤ m2) as Hle.
    { rewrite Hm3. rewrite Z.mul_comm. apply Z.mul_div_le. done. }
    nia.
  - done.
Qed.

Lemma binary_round_below (D : positive) (ez K z : Z) :
  ez ≤ 0 → 0 < K ≤ 2 ^ 31 → Z.pos D < K * 2 ^ (- ez) →
  sf_integral (binary_round prec emax false D ez) = Some z → z ≤ K.
Proof.
  intros Hez HK Hlt. unfold binary_round, shl_align.
  destruct (fexp prec emax (Z.pos (digits2_pos D) + ez) - ez) as [|d|d] eqn:Hd.
  - by apply binary_round_aux_below.
  - by apply binary_round_aux_below.
  - apply binary_round_aux_below; [lia|lia|done|].
    rewrite iter_xO_pow.
    replace (- fexp prec emax (Z.pos (digits2_pos D) + ez))
      with (- ez + Z.pos d) by lia.
    rewrite Z.pow_add_r by lia.
    assert (0 < 2 ^ Z.pos d) by (apply Z.pow_pos_nonneg; lia). nia.
Qed.

Lemma binary_round_aux_neg (mx ex : Z) (lx : location) (z : Z) :
  sf_integral (binary_round_aux prec emax true mx ex lx) = Some z → z ≤ 0.
Proof.
  unfold binary_round_aux.
  destruct (shr_fexp prec emax mx ex lx) as [mrs1 e1].
  destruct (shr_fexp prec emax _ e1 loc_Exact) as [mrs3 e3].
  destruct (shr_m mrs3) as [|m3|m3]; [by intros [= <-]| |done].
  destruct (e3 <=? emax - prec); [|done]. simpl. intros [= <-].
  pose proof (proj2 (Z.shiftl_nonneg (Z.pos m3) e3) ltac:(lia)). lia.
Qed.

Lemma shl_align_fst (mx : positive) (ex ex' : Z) :
  ex' ≤ ex → Z.pos (shl_align mx ex ex').1 = Z.pos mx * 2 ^ (ex - ex').
Proof.
  intros He. unfold shl_align.
  destruct (ex' - ex) as [|d|d] eqn:Hd; simpl.
  - replace (ex - ex') with 0 by lia. lia.
  - lia.
  - rewrite iter_xO_pow. do 2 f_equal. lia.
Qed.

(** Subtracting a number that is not negative from [(double) K] gives a
    number whose integral part is at most [K]. *)
Lemma sub_integral_le (K : Z) (nu : float) (z : Z) :
  0 < K ≤ 2 ^ 31 → PrimFloat.leb 0 nu = true →
  Binary64.integral_part (Binary64.double_of_int K - nu)%float = Some z →
  z ≤ K.
Proof.
  intros HK Hnu. rewrite integral_part_sf, sub_spec.
  rewrite leb_spec in Hnu. change (Prim2SF 0) with (S754_zero false) in Hnu.
  destruct K as [|q|q]; [lia| |lia].
  assert (Z.pos q < 2 ^ 53) as Hq.
  { assert (2 ^ 31 < 2 ^ 53) by (by apply Z.pow_lt_mono_r). lia. }
  rewrite (double_of_int_pos q Hq).
  pose proof (shiftl_normal q Hq) as Hround.
  pose proof (normal_mantissa_value q Hq) as Hmant.
  assert (normal_exponent q ≤ 0) as HeA
    by (pose proof (digits2_le_53 q Hq); unfold normal_exponent; lia).
  destruct (Prim2SF nu) as [s|s| |s mn en]; try done.
  - simpl. rewrite Hround. intros [= <-]. lia.
  - destruct s; [done|]. clear Hnu. unfold SF64sub, SFsub.
    set (ez := Z.min (normal_exponent q) en).
    rewrite (shl_align_fst (normal_mantissa q) (normal_exponent q) ez)
      by (unfold ez; lia).
    rewrite (shl_align_fst mn en ez) by (unfold ez; lia).
    unfold cond_Zopp. rewrite Hmant, <- Z.mul_assoc, <- Z.pow_add_r by lia.
    replace (- normal_exponent q + (normal_exponent q - ez)) with (- ez)
      by lia.
    assert (0 < Z.pos mn * 2 ^ (en - ez)) as Hpos.
    { apply Z.mul_pos_pos; [lia|]. apply Z.pow_pos_nonneg; unfold ez; lia. }
    destruct (Z.pos q * 2 ^ (- ez) - Z.pos mn * 2 ^ (en - ez))
      as [|D|D] eqn:HD; cbn [binary_normalize].
    + intros [= <-]. lia.
    + apply binary_round_below; [unfold ez; lia|done|lia].
    + unfold binary_round. destruct (shl_align _ _ _) as [mz ez'].
      intros Hz%binary_round_aux_neg. lia.
Qed.
End Binary64Facts.

(** ** The kernel in binary64 *)

Module Binary64Kernel.
Import Binary64Facts.

Section Termination.
Variables (log : float → float) (fmod : float → float → float).

(** Binary64 with the libm at hand. *)
Let arith : DoubleOps float := Binary64.ops log fmod.
#[local] Existing Instance arith.

(** A count left of the bound: the conversion of [iter + 1 − nu] is at
    most [iter + 1] when [nu], as computed, is not negative. *)
Lemma smooth_count_le (x y : float) (iter r : Z) :
  0 ≤ iter < INT_MAX → PrimFloat.leb 0 (nu x y) = true →
  to_int (smooth_count x y iter) = Some r → r ≤ iter + 1.
Proof.
  intros Hi Hnu. rewrite smooth_count_nu. unfold to_int.
  cbn [dsub of_int trunc arith Binary64.ops].
  destruct (Binary64.integral_part _) as [z|] eqn:Hz; [simpl|done].
  destruct (in_int_range z); [|done]. intros [= <-].
  apply (sub_integral_le (iter + 1) (nu x y)); [|done..].
  unfold INT_MAX in Hi. lia.
Qed.

End Termination.


#[local] Existing Instance Binary64.reference.

End Binary64Kernel.

(** ** The colour mapper in binary64 *)

Section Sextant.
Context `{DoubleOps D}.

(** The branch the cascade of tests in [iteration_to_color] takes. *)
Definition sextant (hue : D) : Z :=
  if dltb hue (of_int 60) then 0
  else if dltb hue (of_int 120) then 1
  else if dltb hue (of_int 180) then 2
  else if dltb hue (of_int 240) then 3
  else if dltb hue (of_int 300) then 4
  else 5.

Lemma hsv_select_sextant (hue c x : D) :
  hsv_select hue c x
  = match sextant hue with
    | 0 => (c, x, of_int 0)
    | 1 => (x, c, of_int 0)
    | 2 => (of_int 0, c, x)
    | 3 => (of_int 0, x, c)
    | 4 => (x, of_int 0, c)
    | _ => (c, of_int 0, x)
    end.
Proof.
  unfold hsv_select, sextant.
  by repeat match goal with |- context [dltb ?a ?b] => destruct (dltb a b) end.
Qed.

(** A value [mandelbrot] returns is the bound or an [int]. *)
Lemma mandelbrot_in_range (x0 y0 : D) (max_iter r : Z) :
  mandelbrot x0 y0 max_iter = Some r →
  r = max_iter ∨ in_int_range r = true.
Proof.
  unfold mandelbrot. destruct (escape_loop _ _ _ _ _ _ _) as [[x y] iter].
  destruct (iter =? max_iter); [intros [= <-]; by left|].
  unfold to_int. destruct (trunc _) as [z|]; [simpl|done].
  destruct (in_int_range z) eqn:Hz; [|done]. intros [= <-]. by right.
Qed.
End Sextant.

Module Binary64Color.
Import Binary64Facts.

(** The bytes of the six triples, [v] the byte of the channel [X]. *)
Definition sextant_bytes (k v : Z) : Z * Z * Z :=
  match k with
  | 0 => (255, v, 0)
  | 1 => (v, 255, 0)
  | 2 => (0, 255, v)
  | 3 => (0, v, 255)
  | 4 => (v, 0, 255)
  | _ => (255, 0, v)
  end.

Lemma sextant_bytes_not_black (k v : Z) : sextant_bytes k v ≠ (0, 0, 0).
Proof. by destruct k as [|[[[]|[]|]|[[]|[]|]|]|]. Qed.

(** For the integer count [it] and the bound [max_iter]: the branch the
    cascade takes is the integral part of [hue / 60]. *)
Definition sextant_ok (max_iter it : Z) : bool :=
  let hue := (360 * (Binary64.double_of_int it
                     / Binary64.double_of_int max_iter))%float in
  bool_decide (Binary64.integral_part (hue / 60)%float
               = Some (sextant (H := Binary64.reference) hue)).

(** It is, for every bound from 1 to 200 and every count below it:
    checked by evaluation. *)
Lemma sextants_ok_200 :
  forallb (λ max_iter, forallb (sextant_ok max_iter) (seqZ 0 max_iter))
    (seqZ 1 200) = true.
Proof. vm_compute. reflexivity. Qed.

Lemma forallb_seqZ (f : Z → bool) (a n x : Z) :
  forallb f (seqZ a n) = true → a ≤ x < a + n → f x = true.
Proof.
  intros Hall Hx. rewrite forallb_forall in Hall.
  apply Hall, list_elem_of_In, elem_of_seqZ. lia.
Qed.

Lemma sextant_ok_spec (max_iter it : Z) :
  1 ≤ max_iter ≤ 200 → 0 ≤ it < max_iter → sextant_ok max_iter it = true.
Proof.
  intros Hm Hi.
  apply (forallb_seqZ (sextant_ok max_iter) 0 max_iter); [|lia].
  apply (forallb_seqZ
           (λ max_iter, forallb (sextant_ok max_iter) (seqZ 0 max_iter))
           1 200 max_iter sextants_ok_200).
  lia.
Qed.

Section Contract.
Variables (log : float → float) (fmod : float → float → float).

(** Binary64 with the libm at hand. *)
Let arith : DoubleOps float := Binary64.ops log fmod.
#[local] Existing Instance arith.

(** Below the bound the colour is that of the branch taken: the chroma
    channel is the byte 255, one channel is the byte 0, and the third is
    the byte of [X]; the colour is defined when that byte is. *)
Lemma iteration_to_color_below (iter : float) (max_iter : Z) :
  PrimFloat.leb (Binary64.double_of_int max_iter) iter = false →
  let hue := (360 * (iter / Binary64.double_of_int max_iter))%float in
  let X := (1 * (1 - PrimFloat.abs (fmod (hue / 60) 2 - 1)))%float in
  iteration_to_color iter max_iter
  = v ← to_uchar ((X + 0) * 255)%float;
    Some (sextant_bytes (sextant hue) v).
Proof.
  intros Htest hue X. unfold iteration_to_color.
  rewrite hsv_select_sextant. unfold sextant, to_uchar.
  cbn [dadd dsub dmul ddiv dleb dltb dabs dfmod of_int trunc arith
       Binary64.ops].
  rewrite Htest.
  change (Binary64.double_of_int 360) with 360%float.
  change (Binary64.double_of_int 300) with 300%float.
  change (Binary64.double_of_int 255) with 255%float.
  change (Binary64.double_of_int 240) with 240%float.
  change (Binary64.double_of_int 180) with 180%float.
  change (Binary64.double_of_int 120) with 120%float.
  change (Binary64.double_of_int 60) with 60%float.
  change (Binary64.double_of_int 2) with 2%float.
  change (Binary64.double_of_int 1) with 1%float.
  change (Binary64.double_of_int 0) with 0%float.
  fold hue. fold X.
  change (Binary64.integral_part ((1 + 0) * 255)%float) with (Some 255).
  change (Binary64.integral_part ((0 + 0) * 255)%float) with (Some 0).
  repeat match goal with
         | |- context [PrimFloat.ltb hue ?b] => destruct (PrimFloat.ltb hue b)
         end; cbn [sextant_bytes]; simpl;
    destruct (Binary64.integral_part ((X + 0) * 255)%float) as [v|]; simpl;
    try done; by destruct (in_uchar_range v).
Qed.

End Contract.


End Binary64Color.

(** ** Lists of equally long blocks *)

Lemma length_join_uniform {A} (ls : list (list A)) (k : nat) :
  Forall (λ l, length l = k) ls → length (mjoin ls) = (length ls * k)%nat.
Proof.
  induction 1 as [|l ls Hl _ IH]; [done|].
  simpl. rewrite length_app, IH, Hl. lia.
Qed.

Lemma lookup_join_uniform {A} (ls : list (list A)) (k i j : nat) (l : list A) :
  Forall (λ l, length l = k) ls → ls !! i = Some l → (j < k)%nat →
  mjoin ls !! (i * k + j)%nat = l !! j.
Proof.
  intros Hall. revert i. induction Hall as [|l0 ls Hl0 _ IH]; intros i Hi Hj.
  - done.
  - destruct i as [|i]; simpl in *.
    + injection Hi as ->. by rewrite lookup_app_l by lia.
    + rewrite lookup_app_r by lia.
      replace (k + i * k + j - length l0)%nat with (i * k + j)%nat by lia.
      by apply IH.
Qed.

(** ** The row-chunk renderer as a function of the pixels *)

Section RowRenderer.
Context `{DoubleOps D}.
Variables (zoom centerX centerY : D) (width height max_iter : Z).

(** The colour [compute_rows] gives to pixel [(x, y)]. *)
Definition pixel_color (x y : Z) : option (Z * Z * Z) :=
  let scale := ddiv (of_int 4) (dmul (of_int width) zoom) in
  let cx := dadd centerX (dmul (of_int (x - width ÷ 2)) scale) in
  let cy := dadd centerY (dmul (of_int (y - height ÷ 2)) scale) in
  it ← mandelbrot cx cy max_iter;
  iteration_to_color (of_int it) max_iter.

Definition pixel_bytes (y x : Z) : option (list Z) :=
  '(r, g, b) ← pixel_color x y; Some [r; g; b].

(** Row [y], left to right, and the rows [startY .. endY-1], top to
    bottom, three bytes a pixel. *)
Definition render_row (y : Z) : option (list Z) :=
  mjoin <$> mapM (pixel_bytes y) (seqZ 0 width).

Definition render_rows (startY endY : Z) : option (list Z) :=
  mjoin <$> mapM render_row (seqZ startY (endY - startY)).

(** The body of the inner loop of [compute_rows]. *)
Definition pixel_step (startY y x : Z) (buffer : list Z) : option (list Z) :=
  let scale := ddiv (of_int 4) (dmul (of_int width) zoom) in
  let cx := map_pixel_to_complex x width centerX scale in
  let cy := map_pixel_to_complex y height centerY scale in
  it ← mandelbrot cx cy max_iter;
  let iter := of_int it in
  let localY := (y - startY)%Z in
  let index := ((localY * width + x) * 3)%Z in
  '(r, g, b) ← iteration_to_color iter max_iter;
  buffer ← store buffer index r;
  buffer ← store buffer (index + 1) g;
  store buffer (index + 2) b.

Lemma compute_rows_unfold (startY endY : Z) (buffer : list Z) :
  compute_rows zoom centerX centerY startY endY width height max_iter buffer
  = for_range startY endY
      (λ y buffer, for_range 0 width (pixel_step startY y) buffer) buffer.
Proof. reflexivity. Qed.

Lemma store_middle (pre post : list Z) (a v : Z) (i : Z) :
  i = Z.of_nat (length pre) →
  store (pre ++ a :: post) i v = Some (pre ++ v :: post).
Proof.
  intros ->. unfold store. rewrite length_app. simpl.
  destruct (Z.leb_spec 0 (Z.of_nat (length pre))); [|lia].
  destruct (Z.ltb_spec (Z.of_nat (length pre))
              (Z.of_nat (length pre + S (length post)))); [|lia].
  simpl. rewrite Nat2Z.id.
  by rewrite insert_app_r_alt, Nat.sub_diag by lia.
Qed.

(** One pixel: the three bytes at [index] are replaced by its colour. *)
Lemma pixel_step_spec (startY y x : Z) (pre post : list Z) (a b c : Z) :
  ((y - startY) * width + x) * 3 = Z.of_nat (length pre) →
  pixel_step startY y x (pre ++ [a; b; c] ++ post)
  = bs ← pixel_bytes y x; Some (pre ++ bs ++ post).
Proof.
  intros Hidx. unfold pixel_step, pixel_bytes, pixel_color, map_pixel_to_complex.
  destruct (mandelbrot _ _ _) as [it|]; [simpl|done].
  destruct (iteration_to_color _ _) as [[[r g] b']|]; [simpl|done].
  rewrite store_middle by done. simpl.
  replace (pre ++ r :: b :: c :: post) with ((pre ++ [r]) ++ b :: c :: post)
    by (by rewrite <- (assoc_L (++))).
  rewrite store_middle by (rewrite length_app; simpl; lia). simpl.
  replace ((pre ++ [r]) ++ g :: c :: post) with ((pre ++ [r; g]) ++ c :: post)
    by (by rewrite <- !(assoc_L (++))).
  rewrite store_middle by (rewrite length_app; simpl; lia).
  by rewrite <- (assoc_L (++)).
Qed.

Lemma render_rows_unfold (startY endY : Z) :
  render_rows startY endY
  = mjoin <$> mapM render_row (seqZ startY (endY - startY)).
Proof. reflexivity. Qed.

Lemma pixel_bytes_length (y x : Z) (bs : list Z) :
  pixel_bytes y x = Some bs → length bs = 3%nat.
Proof.
  unfold pixel_bytes. destruct (pixel_color x y) as [[[??]?]|]; [|done].
  by intros [= <-].
Qed.

(** The inner loop over [n] pixels from column [x0]: the [3·n] bytes behind
    [pre] are replaced by the colours of these pixels. *)
Lemma row_loop_spec (startY y : Z) (n : nat) :
  ∀ (x0 : Z) (pre mid post : list Z),
    length mid = (3 * n)%nat →
    ((y - startY) * width + x0) * 3 = Z.of_nat (length pre) →
    for_each (seqZ x0 (Z.of_nat n)) (pixel_step startY y) (pre ++ mid ++ post)
    = bs ← mapM (pixel_bytes y) (seqZ x0 (Z.of_nat n));
      Some (pre ++ mjoin bs ++ post).
Proof.
  induction n as [|n IH]; intros x0 pre mid post Hmid Hpre.
  - destruct mid; [|done]. by rewrite seqZ_nil by lia.
  - destruct mid as [|a [|b [|c mid]]]; [simpl in Hmid; lia..|].
    rewrite seqZ_cons by lia.
    replace (Z.pred (Z.of_nat (S n))) with (Z.of_nat n) by lia.
    cbn [for_each mapM].
    change (pre ++ (a :: b :: c :: mid) ++ post)
      with (pre ++ [a; b; c] ++ (mid ++ post)).
    rewrite pixel_step_spec by done.
    destruct (pixel_bytes y x0) as [bs0|] eqn:Hbs0; [|done].
    apply pixel_bytes_length in Hbs0. cbn [mbind option_bind].
    rewrite (assoc_L (++) pre bs0).
    rewrite IH.
    + destruct (mapM _ _) as [bs|]; [|done]. simpl.
      by rewrite <- !(assoc_L (++)).
    + simpl in Hmid. lia.
    + rewrite length_app. lia.
Qed.

Lemma render_row_length (y : Z) (row : list Z) :
  render_row y = Some row → length row = Z.to_nat (3 * width).
Proof.
  unfold render_row. intros Hrow.
  destruct (mapM _ _) as [bs|] eqn:Hbs; [|done].
  injection Hrow as <-.
  apply mapM_Some in Hbs.
  assert (Hlen : length bs = Z.to_nat width)
    by (by rewrite <- (Forall2_length _ _ _ Hbs), length_seqZ).
  assert (Hall : Forall (λ b, length b = 3%nat) bs).
  { apply Forall_forall. intros b Hb.
    apply list_elem_of_lookup in Hb as [k Hk].
    destruct (Forall2_lookup_r _ _ _ _ _ Hbs Hk) as (x & _ & Hx).
    by apply pixel_bytes_length in Hx. }
  clear Hbs. replace (Z.to_nat (3 * width)) with (3 * Z.to_nat width)%nat by lia.
  revert Hlen. generalize (Z.to_nat width) as m.
  induction Hall as [|b bs Hb _ IH]; intros m Hm; simpl in *.
  - lia.
  - destruct m as [|m]; [done|]. rewrite length_app, Hb.
    specialize (IH m ltac:(lia)). lia.
Qed.

(** The inner loop as a whole. *)
Lemma row_spec (startY y : Z) (pre mid post : list Z) :
  0 ≤ width →
  length mid = Z.to_nat (3 * width) →
  (y - startY) * width * 3 = Z.of_nat (length pre) →
  for_range 0 width (pixel_step startY y) (pre ++ mid ++ post)
  = row ← render_row y; Some (pre ++ row ++ post).
Proof.
  intros Hw Hmid Hpre. unfold for_range, render_row.
  replace (width - 0) with (Z.of_nat (Z.to_nat width)) by lia.
  rewrite row_loop_spec by lia.
  rewrite Z2Nat.id by done.
  by destruct (mapM _ _).
Qed.

(** The outer loop over [n] rows from row [y0]. *)
Lemma rows_loop_spec (startY : Z) (n : nat) :
  ∀ (y0 : Z) (pre mid post : list Z),
    0 ≤ width →
    length mid = (n * Z.to_nat (3 * width))%nat →
    (y0 - startY) * width * 3 = Z.of_nat (length pre) →
    for_each (seqZ y0 (Z.of_nat n))
      (λ y buffer, for_range 0 width (pixel_step startY y) buffer)
      (pre ++ mid ++ post)
    = rows ← mapM render_row (seqZ y0 (Z.of_nat n));
      Some (pre ++ mjoin rows ++ post).
Proof.
  induction n as [|n IH]; intros y0 pre mid post Hw Hmid Hpre.
  - destruct mid; [|done]. by rewrite seqZ_nil by lia.
  - rewrite seqZ_cons by lia.
    replace (Z.pred (Z.of_nat (S n))) with (Z.of_nat n) by lia.
    cbn [for_each mapM].
    rewrite <- (take_drop (Z.to_nat (3 * width)) mid).
    rewrite <- (assoc_L (++) (take _ mid)).
    rewrite row_spec; [|done|rewrite length_take; simpl in Hmid; lia|done].
    destruct (render_row y0) as [row|] eqn:Hrow; [|done].
    apply render_row_length in Hrow. cbn [mbind option_bind].
    rewrite (assoc_L (++) pre row).
    rewrite IH.
    + destruct (mapM _ _) as [rows|]; [|done]. simpl.
      by rewrite <- !(assoc_L (++)).
    + done.
    + rewrite length_drop. simpl in Hmid. lia.
    + rewrite length_app. lia.
Qed.

(** [compute_rows], run on a buffer of [3·width·(endY − startY)] bytes,
    fills it with [render_rows startY endY]; the bytes it held before do
    not matter. *)
Lemma compute_rows_render (startY endY : Z) (buffer : list Z) :
  0 ≤ width → startY ≤ endY →
  length buffer = Z.to_nat (3 * width * (endY - startY)) →
  compute_rows zoom centerX centerY startY endY width height max_iter buffer
  = render_rows startY endY.
Proof.
  intros Hw Hy Hlen. rewrite compute_rows_unfold.
  unfold for_range at 1. unfold render_rows.
  replace (endY - startY) with (Z.of_nat (Z.to_nat (endY - startY))) by lia.
  pose proof (rows_loop_spec startY (Z.to_nat (endY - startY)) startY
                [] buffer [] Hw) as Hloop.
  rewrite app_nil_r in Hloop. change ([] ++ buffer) with buffer in Hloop.
  rewrite Hloop; [|nia|simpl; lia].
  destruct (mapM _ _) as [rows|]; [|done]. simpl.
  by rewrite app_nil_r.
Qed.

Lemma render_rows_rows (startY endY : Z) (buf : list Z) :
  render_rows startY endY = Some buf →
  ∃ rows, buf = mjoin rows
    ∧ length rows = Z.to_nat (endY - startY)
    ∧ Forall (λ row, length row = Z.to_nat (3 * width)) rows
    ∧ ∀ (i : nat) row, rows !! i = Some row →
        render_row (startY + Z.of_nat i) = Some row.
Proof.
  unfold render_rows. intros Hbuf.
  destruct (mapM _ _) as [rows|] eqn:Hrows; [|done].
  injection Hbuf as <-. apply mapM_Some in Hrows.
  exists rows. split; [done|].
  assert (Hi : ∀ (i : nat) row, rows !! i = Some row →
                 render_row (startY + Z.of_nat i) = Some row).
  { intros i row Hrow.
    destruct (Forall2_lookup_r _ _ _ _ _ Hrows Hrow) as (y & Hy & Hr).
    apply lookup_seqZ in Hy as [-> _]. done. }
  split; [by rewrite <- (Forall2_length _ _ _ Hrows), length_seqZ|].
  split; [|done].
  apply Forall_forall. intros row Hrow.
  apply list_elem_of_lookup in Hrow as [i Hrow].
  eapply render_row_length, Hi, Hrow.
Qed.

Lemma render_rows_length (startY endY : Z) (buf : list Z) :
  0 ≤ width → startY ≤ endY →
  render_rows startY endY = Some buf →
  length buf = Z.to_nat (3 * width * (endY - startY)).
Proof.
  intros Hw Hy (rows & -> & Hlen & Hall & _)%render_rows_rows.
  rewrite (length_join_uniform _ _ Hall), Hlen. nia.
Qed.

(** The three bytes of pixel [(x, y)] in the rendered rows. *)
Lemma render_rows_lookup (startY endY : Z) (buf : list Z) (x y : Z) :
  render_rows startY endY = Some buf →
  0 ≤ x < width → startY ≤ y < endY →
  ∃ r g b, pixel_color x y = Some (r, g, b)
    ∧ buf !! Z.to_nat (((y - startY) * width + x) * 3) = Some r
    ∧ buf !! Z.to_nat (((y - startY) * width + x) * 3 + 1) = Some g
    ∧ buf !! Z.to_nat (((y - startY) * width + x) * 3 + 2) = Some b.
Proof.
  intros (rows & -> & Hlen & Hall & Hrows)%render_rows_rows Hx Hy.
  destruct (lookup_lt_is_Some_2 rows (Z.to_nat (y - startY))) as [row Hrow];
    [lia|].
  pose proof (Hrows _ _ Hrow) as Hr.
  replace (startY + Z.of_nat (Z.to_nat (y - startY))) with y in Hr by lia.
  unfold render_row in Hr.
  destruct (mapM _ _) as [bss|] eqn:Hbss; [|done].
  injection Hr as <-. apply mapM_Some in Hbss.
  assert (Hblen : length bss = Z.to_nat width)
    by (by rewrite <- (Forall2_length _ _ _ Hbss), length_seqZ).
  destruct (lookup_lt_is_Some_2 bss (Z.to_nat x)) as [bs Hbs]; [lia|].
  destruct (Forall2_lookup_r _ _ _ _ _ Hbss Hbs) as (x' & Hx' & Hpx).
  apply lookup_seqZ in Hx' as [-> _].
  replace (0 + Z.of_nat (Z.to_nat x)) with x in Hpx by lia.
  assert (Hb3 : Forall (λ b, length b = 3%nat) bss).
  { apply Forall_forall. intros b Hb.
    apply list_elem_of_lookup in Hb as [k Hk].
    destruct (Forall2_lookup_r _ _ _ _ _ Hbss Hk) as (? & _ & ?).
    by eapply pixel_bytes_length. }
  unfold pixel_bytes in Hpx.
  destruct (pixel_color x y) as [[[r g] b]|]; [|done].
  injection Hpx as <-. exists r, g, b. split; [done|].
  assert (Hbyte : ∀ c : nat, (c < 3)%nat →
    mjoin rows !! Z.to_nat (((y - startY) * width + x) * 3 + Z.of_nat c)
    = [r; g; b] !! c).
  { intros c Hc.
    replace (Z.to_nat (((y - startY) * width + x) * 3 + Z.of_nat c))
      with (Z.to_nat (y - startY) * Z.to_nat (3 * width)
            + (Z.to_nat x * 3 + c))%nat by nia.
    rewrite (lookup_join_uniform _ _ _ _ _ Hall Hrow) by nia.
    by rewrite (lookup_join_uniform _ _ _ _ _ Hb3 Hbs). }
  pose proof (Hbyte 0%nat ltac:(lia)) as H0.
  pose proof (Hbyte 1%nat ltac:(lia)) as H1.
  pose proof (Hbyte 2%nat ltac:(lia)) as H2.
  rewrite Z.add_0_r in H0. done.
Qed.

Lemma render_rows_defined (startY endY : Z) :
  (∀ x y, 0 ≤ x < width → startY ≤ y < endY → is_Some (pixel_color x y)) →
  is_Some (render_rows startY endY).
Proof.
  intros Hpx. unfold render_rows. apply fmap_is_Some, mapM_is_Some_2.
  apply Forall_seqZ. intros y Hy. simpl.
  unfold render_row. apply fmap_is_Some, mapM_is_Some_2.
  apply Forall_seqZ. intros x Hx. simpl. unfold pixel_bytes.
  destruct (Hpx x y) as [[[r g] b] ->]; [lia..|]. done.
Qed.

(** Rendering [a .. c-1] is rendering [a .. b-1], then [b .. c-1]. *)
Lemma render_rows_app (a b c : Z) :
  a ≤ b ≤ c →
  render_rows a c
  = l1 ← render_rows a b; l2 ← render_rows b c; Some (l1 ++ l2).
Proof.
  intros Habc. unfold render_rows.
  replace (c - a) with ((b - a) + (c - b)) by lia.
  rewrite seqZ_app by lia.
  replace (a + (b - a)) with b by lia.
  generalize (seqZ a (b - a)) as l1, (seqZ b (c - b)) as l2.
  induction l1 as [|y l1 IH]; intros l2; simpl.
  - by destruct (mapM render_row l2).
  - destruct (render_row y) as [row|]; [simpl|done].
    specialize (IH l2). 
    destruct (mapM render_row (l1 ++ l2)) as [rs|],
             (mapM render_row l1) as [rs1|]; simpl in *;
      [|done| |done].
    + destruct (mapM render_row l2) as [rs2|]; simpl in *; [|done].
      injection IH as ->. by rewrite (assoc_L (++)).
    + by destruct (mapM render_row l2).
Qed.

(** C7. For positive [width] and [height] (and any [zoom]), run on the
    chunk [[startY, endY)] with a buffer of [3·width·(endY − startY)] bytes,
    [compute_rows] is defined exactly when the colour of every pixel of the
    chunk is, and then the bytes at offset [((y − startY)·width + x)·3] are
    the colour of the point [cx = centerX + (x − width/2)·scale],
    [cy = centerY + (y − height/2)·scale], [scale = 4.0/(width·zoom)],
    with [width/2] and [height/2] the [int] quotients. *)
Theorem compute_rows_pixels (startY endY : Z) (buffer : list Z) :
  0 < width → 0 < height → startY ≤ endY →
  length buffer = Z.to_nat (3 * width * (endY - startY)) →
  (is_Some (compute_rows zoom centerX centerY startY endY width height
              max_iter buffer)
   ↔ ∀ x y, 0 ≤ x < width → startY ≤ y < endY → is_Some (pixel_color x y))
  ∧ ∀ buf',
      compute_rows zoom centerX centerY startY endY width height max_iter
        buffer = Some buf' →
      length buf' = length buffer
      ∧ ∀ x y, 0 ≤ x < width → startY ≤ y < endY →
          let scale := ddiv (of_int 4) (dmul (of_int width) zoom) in
          let cx := dadd centerX (dmul (of_int (x - width ÷ 2)) scale) in
          let cy := dadd centerY (dmul (of_int (y - height ÷ 2)) scale) in
          ∃ r g b,
            (it ← mandelbrot cx cy max_iter;
             iteration_to_color (of_int it) max_iter) = Some (r, g, b)
            ∧ buf' !! Z.to_nat (((y - startY) * width + x) * 3) = Some r
            ∧ buf' !! Z.to_nat (((y - startY) * width + x) * 3 + 1) = Some g
            ∧ buf' !! Z.to_nat (((y - startY) * width + x) * 3 + 2) = Some b.
Proof.
  intros Hw Hh Hy Hlen.
  rewrite compute_rows_render by (done || lia).
  split; [split|].
  - intros [buf Hbuf] x y Hx Hyr.
    destruct (render_rows_lookup _ _ _ x y Hbuf Hx Hyr) as (r & g & b & -> & _).
    done.
  - apply render_rows_defined.
  - intros buf' Hbuf. split.
    + rewrite Hlen. apply render_rows_length; (done || lia).
    + intros x y Hx Hyr. by apply (render_rows_lookup startY endY).
Qed.
End RowRenderer.

(** ** The dispatch loop of [main]

    One frame of the master/worker protocol.  Rank 0 is the master; the
    worker of rank [k ≥ 1] is the entry [k − 1] of [st_workers].  Messages
    between two ranks are matched in the order they were sent: each worker
    has a queue of the messages it has sent to rank 0 ([outbox]) and a queue
    of the tag-2 integers rank 0 has sent to it ([inbox]).  A send completes
    without waiting for its receive; a receive on an empty queue waits (the
    step is not enabled). *)

Inductive payload :=
  | PEmpty
  | PInt (z : Z)
  | PBytes (l : list Z).

Record message := Msg { msg_tag : Z; msg_body : payload }.

(** Where a worker stands in its [while (1)] loop: before the
    [MPI_Send] of tag 1, before the [MPI_Recv] of [startY], or after
    [break]. *)
Inductive wpc := AtRequest | AtAssign | Finished.

Record worker := Worker {
  pc : wpc;
  inbox : list Z;
  outbox : list message
}.

(** The master's variables: [nextRow] and [activeWorkers] are initialised
    for every frame, [fullBuffer] is allocated once before the main loop. *)
Record master := Master {
  nextRow : Z;
  activeWorkers : Z;
  fullBuffer : list Z
}.

Record state := State {
  st_master : master;
  st_workers : list worker
}.

(** What a step does, as seen from outside. *)
Inductive event :=
  | EvRequest (w : nat)                           (* worker: sends tag 1 *)
  | EvAssign (w : nat) (chunkStart chunkSize : Z) (* master: sends a chunk *)
  | EvSentinel (w : nat)                          (* master: sends -1 *)
  | EvCompute (w : nat) (startY chunkSize : Z)    (* worker: renders, sends tag 3 *)
  | EvResult (w : nat) (resultStartY resultSize : Z) (data : list Z)
                                                  (* master: copies a result *)
  | EvDone (w : nat)                              (* worker: sends tag 4 *)
  | EvRetire (w : nat).                           (* master: activeWorkers-- *)

(** [MPI_Recv] from one source with one tag: the first pending message of
    that tag. *)
Fixpoint recv_tag (tag : Z) (q : list message)
    : option (payload * list message) :=
  match q with
  | [] => None
  | m :: q' =>
      if msg_tag m =? tag then Some (msg_body m, q')
      else '(b, q'') ← recv_tag tag q'; Some (b, m :: q'')
  end.

Definition as_empty (b : payload) : option unit :=
  match b with PEmpty => Some () | _ => None end.

Definition as_int (b : payload) : option Z :=
  match b with PInt z => Some z | _ => None end.

Definition as_bytes (b : payload) : option (list Z) :=
  match b with PBytes l => Some l | _ => None end.

(** [MPI_Recv(buf + off, cnt, MPI_UNSIGNED_CHAR, ...)] of the message
    [data]: a message longer than [cnt] is an error, a copy that leaves the
    buffer is undefined. *)
Definition recv_bytes (buf : list Z) (off cnt : Z) (data : list Z)
    : option (list Z) :=
  if (0 <=? off) && (Z.of_nat (length data) <=? cnt)
     && (off + Z.of_nat (length data) <=? Z.of_nat (length buf))
  then Some (take (Z.to_nat off) buf ++ data
             ++ drop (Z.to_nat off + length data) buf)
  else None.

Section Dispatcher.
Context `{DoubleOps D}.
Variables (zoom centerX centerY : D) (width height max_iter size : Z).

(** One iteration of the master's [while (activeWorkers > 0)] loop, the
    probe answering with a message of the worker [w]. *)
Definition master_step (w : nat) (s : state) : option (state * event) :=
  let m := st_master s in
  if activeWorkers m >? 0 then
    wk ← st_workers s !! w;
    match outbox wk with
    | [] => None
    | Msg tag _ :: _ =>
        if tag =? 1 then
          '(body, q) ← recv_tag 1 (outbox wk);
          _ ← as_empty body;
          if nextRow m >=? height then
            let terminator := -1 in
            Some (State m
                    (<[w := Worker (pc wk) (inbox wk ++ [terminator]) q]>
                       (st_workers s)),
                  EvSentinel w)
          else
            let chunkStart := nextRow m in
            let chunkEnd := nextRow m + CHUNK_SIZE in
            let chunkEnd := if chunkEnd >? height then height else chunkEnd in
            let chunkSize := chunkEnd - chunkStart in
            Some (State (Master chunkEnd (activeWorkers m) (fullBuffer m))
                    (<[w := Worker (pc wk)
                              (inbox wk ++ [chunkStart; chunkSize]) q]>
                       (st_workers s)),
                  EvAssign w chunkStart chunkSize)
        else if tag =? 3 then
          '(b1, q) ← recv_tag 3 (outbox wk);
          resultStartY ← as_int b1;
          '(b2, q) ← recv_tag 3 q;
          resultSize ← as_int b2;
          '(b3, q) ← recv_tag 3 q;
          data ← as_bytes b3;
          buf ← recv_bytes (fullBuffer m) (3 * width * resultStartY)
                  (3 * width * resultSize) data;
          Some (State (Master (nextRow m) (activeWorkers m) buf)
                  (<[w := Worker (pc wk) (inbox wk) q]> (st_workers s)),
                EvResult w resultStartY resultSize data)
        else if tag =? 4 then
          '(body, q) ← recv_tag 4 (outbox wk);
          _ ← as_empty body;
          Some (State (Master (nextRow m) (activeWorkers m - 1) (fullBuffer m))
                  (<[w := Worker (pc wk) (inbox wk) q]> (st_workers s)),
                EvRetire w)
        else None
    end
  else None.

(** One step of the worker [w]: the send of a request, or the receive of
    an assignment with what follows it up to the next send of a request.
    What [malloc] returns for [localBuffer] holds zeros here; its content is
    immaterial, [compute_rows] overwrites every byte of it
    ([compute_rows_render]). *)
Definition worker_step (w : nat) (s : state) : option (state * event) :=
  wk ← st_workers s !! w;
  match pc wk with
  | AtRequest =>
      Some (State (st_master s)
              (<[w := Worker AtAssign (inbox wk)
                        (outbox wk ++ [Msg 1 PEmpty])]> (st_workers s)),
            EvRequest w)
  | AtAssign =>
      match inbox wk with
      | [] => None
      | startY :: rest =>
          if startY =? -1 then
            Some (State (st_master s)
                    (<[w := Worker Finished rest
                              (outbox wk ++ [Msg 4 PEmpty])]> (st_workers s)),
                  EvDone w)
          else
            match rest with
            | [] => None
            | chunkSize :: rest' =>
                let localBuffer :=
                  replicate (Z.to_nat (3 * width * chunkSize)) 0 in
                localBuffer ← compute_rows zoom centerX centerY startY
                                (startY + chunkSize) width height max_iter
                                localBuffer;
                Some (State (st_master s)
                        (<[w := Worker AtRequest rest'
                                  (outbox wk
                                   ++ [Msg 3 (PInt startY);
                                       Msg 3 (PInt chunkSize);
                                       Msg 3 (PBytes localBuffer)])]>
                           (st_workers s)),
                      EvCompute w startY chunkSize)
            end
      end
  | Finished => None
  end.

(** The processes when the frame starts: the master with [nextRow = 0] and
    [activeWorkers = size - 1], every worker at the top of its loop. *)
Definition init_state (buf : list Z) : state :=
  State (Master 0 (size - 1) buf)
    (replicate (Z.to_nat (size - 1)) (Worker AtRequest [] [])).

(** The master has left its loop. *)
Definition frame_done (s : state) : bool :=
  negb (activeWorkers (st_master s) >? 0).

(** Who moves next. *)
Inductive actor := MasterFrom (w : nat) | WorkerAt (w : nat).

Definition step_by (a : actor) (s : state) : option (state * event) :=
  match a with
  | MasterFrom w => master_step w s
  | WorkerAt w => worker_step w s
  end.

(** A schedule, run from [s]; it must name an enabled step each time. *)
Fixpoint exec (sched : list actor) (s : state) : option (state * list event) :=
  match sched with
  | [] => Some (s, [])
  | a :: sched' =>
      '(s', e) ← step_by a s;
      '(s'', tr) ← exec sched' s';
      Some (s'', e :: tr)
  end.

(** The states a frame can reach, with the events that led there. *)
Inductive reachable (buf : list Z) : list event → state → Prop :=
  | reach_init : reachable buf [] (init_state buf)
  | reach_step tr s a s' e :
      reachable buf tr s → step_by a s = Some (s', e) →
      reachable buf (tr ++ [e]) s'.
End Dispatcher.

(** ** The shapes of a worker in a reachable state *)

(** A rendered chunk waiting in an outbox: header and bytes. *)
Definition pending := option (Z * Z * list Z).

Inductive shape :=
  | Idle (res : pending)       (* at the top of the loop *)
  | Requested (res : pending)  (* request sent, no answer yet *)
  | Assigned (a n : Z)         (* a chunk waits in the inbox *)
  | Draining                   (* the sentinel waits in the inbox *)
  | Leaving                    (* tag 4 sent, not yet received *)
  | Retired.                   (* tag 4 received by the master *)

Definition result_msgs (res : pending) : list message :=
  match res with
  | None => []
  | Some (a, n, data) => [Msg 3 (PInt a); Msg 3 (PInt n); Msg 3 (PBytes data)]
  end.

Definition realize (sh : shape) : worker :=
  match sh with
  | Idle res => Worker AtRequest [] (result_msgs res)
  | Requested res => Worker AtAssign [] (result_msgs res ++ [Msg 1 PEmpty])
  | Assigned a n => Worker AtAssign [a; n] []
  | Draining => Worker AtAssign [-1] []
  | Leaving => Worker Finished [] [Msg 4 PEmpty]
  | Retired => Worker Finished [] []
  end.

Definition is_retired (sh : shape) : bool :=
  match sh with Retired => true | _ => false end.

(** The chunks on their way: assigned and not yet copied by the master. *)
Definition in_flight (sh : shape) : list (Z * Z) :=
  match sh with
  | Idle (Some (a, n, _)) | Requested (Some (a, n, _)) | Assigned a n => [(a, n)]
  | _ => []
  end.

(** The steps, on shapes. *)
Section AbstractSteps.
Context `{DoubleOps D}.
Variables (zoom centerX centerY : D) (width height max_iter : Z).

Inductive astep (m : master) (shs : list shape)
    : event → master → list shape → Prop :=
  | astep_request w res :
      shs !! w = Some (Idle res) →
      astep m shs (EvRequest w) m (<[w := Requested res]> shs)
  | astep_assign w :
      shs !! w = Some (Requested None) →
      0 < activeWorkers m → nextRow m < height →
      let n := Z.min CHUNK_SIZE (height - nextRow m) in
      astep m shs (EvAssign w (nextRow m) n)
        (Master (nextRow m + n) (activeWorkers m) (fullBuffer m))
        (<[w := Assigned (nextRow m) n]> shs)
  | astep_sentinel w :
      shs !! w = Some (Requested None) →
      0 < activeWorkers m → height ≤ nextRow m →
      astep m shs (EvSentinel w) m (<[w := Draining]> shs)
  | astep_compute w a n data :
      shs !! w = Some (Assigned a n) →
      compute_rows zoom centerX centerY a (a + n) width height max_iter
        (replicate (Z.to_nat (3 * width * n)) 0) = Some data →
      astep m shs (EvCompute w a n) m (<[w := Idle (Some (a, n, data))]> shs)
  | astep_result_idle w a n data buf :
      shs !! w = Some (Idle (Some (a, n, data))) →
      0 < activeWorkers m →
      recv_bytes (fullBuffer m) (3 * width * a) (3 * width * n) data
        = Some buf →
      astep m shs (EvResult w a n data)
        (Master (nextRow m) (activeWorkers m) buf) (<[w := Idle None]> shs)
  | astep_result_requested w a n data buf :
      shs !! w = Some (Requested (Some (a, n, data))) →
      0 < activeWorkers m →
      recv_bytes (fullBuffer m) (3 * width * a) (3 * width * n) data
        = Some buf →
      astep m shs (EvResult w a n data)
        (Master (nextRow m) (activeWorkers m) buf)
        (<[w := Requested None]> shs)
  | astep_done w :
      shs !! w = Some Draining →
      astep m shs (EvDone w) m (<[w := Leaving]> shs)
  | astep_retire w :
      shs !! w = Some Leaving →
      0 < activeWorkers m →
      astep m shs (EvRetire w)
        (Master (nextRow m) (activeWorkers m - 1) (fullBuffer m))
        (<[w := Retired]> shs).

(** The cursor arithmetic of the master is [min]. *)
Lemma chunk_size_min (r : Z) :
  (if r + CHUNK_SIZE >? height then height else r + CHUNK_SIZE) - r
  = Z.min CHUNK_SIZE (height - r).
Proof. destruct (Z.gtb_spec (r + CHUNK_SIZE) height); lia. Qed.

Lemma chunk_end_min (r : Z) :
  (if r + CHUNK_SIZE >? height then height else r + CHUNK_SIZE)
  = r + Z.min CHUNK_SIZE (height - r).
Proof. destruct (Z.gtb_spec (r + CHUNK_SIZE) height); lia. Qed.

Definition chunk_start_ok (sh : shape) : Prop :=
  match sh with Assigned a _ => a ≠ -1 | _ => True end.

(** A step of the processes is a step on the shapes. *)
Lemma step_by_astep (a : actor) (m : master) (shs : list shape)
    (s' : state) (e : event) :
  Forall chunk_start_ok shs →
  step_by zoom centerX centerY width height max_iter a
    (State m (realize <$> shs)) = Some (s', e) →
  ∃ m' shs', s' = State m' (realize <$> shs') ∧ astep m shs e m' shs'.
Proof.
  intros Hok. destruct a as [w|w]; simpl.
  - unfold master_step. simpl.
    destruct (Z.gtb_spec (activeWorkers m) 0) as [Hact|]; [|done].
    rewrite list_lookup_fmap.
    destruct (shs !! w) as [sh|] eqn:Hsh; [simpl|done].
    destruct sh as [[[[a n] data]|]|[[[a n] data]|]| | | |]; simpl;
      try done.
    + (* Idle, a result waits *)
      destruct (recv_bytes _ _ _ _) as [buf|] eqn:Hbuf; [simpl|done].
      intros [= <- <-]. eexists _, (<[w := Idle None]> shs).
      split; [by rewrite list_fmap_insert|]. by eapply astep_result_idle.
    + (* Requested, a result waits *)
      destruct (recv_bytes _ _ _ _) as [buf|] eqn:Hbuf; [simpl|done].
      intros [= <- <-]. eexists _, (<[w := Requested None]> shs).
      split; [by rewrite list_fmap_insert|].
      by eapply astep_result_requested.
    + (* Requested, the request is first *)
      destruct (Z.geb_spec (nextRow m) height) as [Hge|Hlt].
      * intros [= <- <-]. eexists _, (<[w := Draining]> shs).
        split; [by rewrite list_fmap_insert; destruct m|].
        by apply astep_sentinel.
      * intros [= <- <-]. rewrite chunk_size_min, chunk_end_min.
        eexists _, (<[w := Assigned _ _]> shs).
        split; [by rewrite list_fmap_insert|]. by apply astep_assign.
    + (* Leaving *)
      intros [= <- <-]. eexists _, (<[w := Retired]> shs).
      split; [by rewrite list_fmap_insert|]. by apply astep_retire.
  - unfold worker_step. simpl.
    rewrite list_lookup_fmap.
    destruct (shs !! w) as [sh|] eqn:Hsh; [simpl|done].
    destruct sh as [res|res|a n| | |]; simpl; try done.
    + intros [= <- <-]. eexists _, (<[w := Requested res]> shs).
      split; [by rewrite list_fmap_insert|]. by apply astep_request.
    + assert (a ≠ -1) as Ha.
      { by apply (Forall_lookup_1 _ _ _ _ Hok Hsh). }
      destruct (Z.eqb_spec a (-1)); [done|].
      destruct (compute_rows _ _ _ _ _ _ _ _ _) as [data|] eqn:Hdata;
        [simpl|done].
      intros [= <- <-]. eexists _, (<[w := Idle (Some (a, n, data))]> shs).
      split; [by rewrite list_fmap_insert|]. by apply astep_compute.
    + intros [= <- <-]. eexists _, (<[w := Leaving]> shs).
      split; [by rewrite list_fmap_insert|]. by apply astep_done.
Qed.

(** A step on the shapes is a step of the processes. *)
Lemma astep_step_by (m : master) (shs : list shape) (e : event)
    (m' : master) (shs' : list shape) :
  Forall chunk_start_ok shs →
  astep m shs e m' shs' →
  ∃ a, step_by zoom centerX centerY width height max_iter a
         (State m (realize <$> shs))
       = Some (State m' (realize <$> shs'), e).
Proof.
  intros Hok Hstep.
  destruct Hstep as
    [w res Hsh|w Hsh Hact Hlt n|w Hsh Hact Hge|w a n data Hsh Hdata
    |w a n data buf Hsh Hact Hbuf|w a n data buf Hsh Hact Hbuf
    |w Hsh|w Hsh Hact].
  - exists (WorkerAt w). simpl. unfold worker_step. simpl.
    rewrite list_lookup_fmap, Hsh. simpl. by rewrite list_fmap_insert.
  - exists (MasterFrom w). simpl. unfold master_step. simpl.
    destruct (Z.gtb_spec (activeWorkers m) 0); [|lia].
    rewrite list_lookup_fmap, Hsh. simpl.
    destruct (Z.geb_spec (nextRow m) height); [lia|].
    by rewrite chunk_size_min, chunk_end_min, list_fmap_insert.
  - exists (MasterFrom w). simpl. unfold master_step. simpl.
    destruct (Z.gtb_spec (activeWorkers m) 0); [|lia].
    rewrite list_lookup_fmap, Hsh. simpl.
    destruct (Z.geb_spec (nextRow m) height); [|lia].
    rewrite list_fmap_insert. by destruct m.
  - exists (WorkerAt w). simpl. unfold worker_step. simpl.
    rewrite list_lookup_fmap, Hsh. simpl.
    pose proof (Forall_lookup_1 _ _ _ _ Hok Hsh) as Ha. simpl in Ha.
    destruct (Z.eqb_spec a (-1)); [done|].
    rewrite Hdata. simpl. by rewrite list_fmap_insert.
  - exists (MasterFrom w). simpl. unfold master_step. simpl.
    destruct (Z.gtb_spec (activeWorkers m) 0); [|lia].
    rewrite list_lookup_fmap, Hsh. simpl.
    rewrite Hbuf. simpl. by rewrite list_fmap_insert.
  - exists (MasterFrom w). simpl. unfold master_step. simpl.
    destruct (Z.gtb_spec (activeWorkers m) 0); [|lia].
    rewrite list_lookup_fmap, Hsh. simpl.
    rewrite Hbuf. simpl. by rewrite list_fmap_insert.
  - exists (WorkerAt w). simpl. unfold worker_step. simpl.
    rewrite list_lookup_fmap, Hsh. simpl. by rewrite list_fmap_insert.
  - exists (MasterFrom w). simpl. unfold master_step. simpl.
    destruct (Z.gtb_spec (activeWorkers m) 0); [|lia].
    rewrite list_lookup_fmap, Hsh. simpl. by rewrite list_fmap_insert.
Qed.
End AbstractSteps.

(** ** What a trace assigned and what it copied *)

Definition assigned_by (e : event) : list (Z * Z) :=
  match e with EvAssign _ a n => [(a, n)] | _ => [] end.

Definition copied_by (e : event) : list (Z * Z) :=
  match e with EvResult _ a n _ => [(a, n)] | _ => [] end.

(** The chunks of the assignments of a trace, in the order they were sent,
    and the headers of the results the master copied, in the order it
    received them. *)
Definition assigns (tr : list event) : list (Z * Z) := tr ≫= assigned_by.
Definition results (tr : list event) : list (Z * Z) := tr ≫= copied_by.

(** Row [y] lies in the chunk [c = (start, rows)]. *)
Definition covers (y : Z) (c : Z * Z) : bool :=
  (c.1 <=? y) && (y <? c.1 + c.2).

Lemma assigns_snoc (tr : list event) (e : event) :
  assigns (tr ++ [e]) = assigns tr ++ assigned_by e.
Proof. unfold assigns. by rewrite bind_app, bind_singleton. Qed.

Lemma results_snoc (tr : list event) (e : event) :
  results (tr ++ [e]) = results tr ++ copied_by e.
Proof. unfold results. by rewrite bind_app, bind_singleton. Qed.

(** Replacing the entry [w] of a list changes a sum over it in that
    summand only. *)
Lemma bind_insert_perm {A B} (f : A → list B) (l : list A) (w : nat) (x : A) :
  l !! w = Some x →
  ∃ rest, l ≫= f ≡ₚ f x ++ rest
    ∧ ∀ x', (<[w := x']> l) ≫= f ≡ₚ f x' ++ rest.
Proof.
  intros Hw. exists ((take w l ≫= f) ++ (drop (S w) l ≫= f)).
  assert (Hlen : (w < length l)%nat) by by eapply lookup_lt_Some.
  split.
  - rewrite <- (take_drop_middle l w x Hw) at 1.
    rewrite bind_app, bind_cons.
    by rewrite (assoc_L (++)), (comm (++) (take w l ≫= f)), <- (assoc_L (++)).
  - intros x'. rewrite insert_take_drop by done.
    rewrite bind_app, bind_cons.
    by rewrite (assoc_L (++)), (comm (++) (take w l ≫= f)), <- (assoc_L (++)).
Qed.

(** ** Tiling the rows with chunks *)

Section Tiles.
Variable height : Z.

(** [tiles r l]: the cursor went from 0 to [r] by the chunks [l], each of
    [min (CHUNK_SIZE, height − cursor)] rows. *)
Inductive tiles : Z → list (Z * Z) → Prop :=
  | tiles_nil : tiles 0 []
  | tiles_snoc r l :
      tiles r l → r < height →
      tiles (r + Z.min CHUNK_SIZE (height - r))
        (l ++ [(r, Z.min CHUNK_SIZE (height - r))]).

Lemma tiles_range (r : Z) (l : list (Z * Z)) :
  0 ≤ height → tiles r l → 0 ≤ r ≤ height.
Proof. induction 2; unfold CHUNK_SIZE in *; lia. Qed.

Lemma tiles_chunk (r : Z) (l : list (Z * Z)) (a n : Z) :
  0 ≤ height → tiles r l → (a, n) ∈ l →
  0 ≤ a ∧ 0 < n ≤ CHUNK_SIZE ∧ a + n ≤ r ∧ r ≤ height.
Proof.
  intros Hh Ht. induction Ht as [|r l Ht IH Hr]; intros Hin.
  - by apply elem_of_nil in Hin.
  - pose proof (tiles_range r l Hh Ht). unfold CHUNK_SIZE in *.
    apply elem_of_app in Hin as [Hin|Hin].
    + specialize (IH Hin). lia.
    + apply list_elem_of_singleton in Hin as [= -> ->]. lia.
Qed.

(** Every row below the cursor lies in exactly one chunk, every other row
    in none. *)
Lemma tiles_cover (r : Z) (l : list (Z * Z)) (y : Z) :
  0 ≤ height → tiles r l →
  length (filter (λ c, covers y c = true) l)
  = if decide (0 ≤ y < r) then 1%nat else 0%nat.
Proof.
  intros Hh Ht. induction Ht as [|r l Ht IH Hr].
  - by destruct (decide _); [lia|].
  - pose proof (tiles_range r l Hh Ht) as Hrange.
    set (n := Z.min CHUNK_SIZE (height - r)).
    assert (Hcov : covers y (r, n) = true ↔ r ≤ y < r + n).
    { unfold covers. simpl. by rewrite andb_true_iff, Z.leb_le, Z.ltb_lt. }
    rewrite filter_app, length_app, IH, filter_cons, filter_nil.
    destruct (decide (covers y (r, n) = true)) as [Hc|Hc]; rewrite Hcov in Hc;
      simpl; repeat case_decide; unfold n, CHUNK_SIZE in *; lia.
Qed.
End Tiles.

(** ** The frame buffer, row by row *)

Lemma recv_bytes_length (buf : list Z) (off cnt : Z) (data buf' : list Z) :
  recv_bytes buf off cnt data = Some buf' → length buf' = length buf.
Proof.
  unfold recv_bytes. destruct (_ && _) eqn:Hc; [|done]. intros [= <-].
  apply andb_prop in Hc as [[Ho%Z.leb_le _]%andb_prop Hl%Z.leb_le].
  rewrite !length_app, length_take, length_drop. lia.
Qed.

Lemma recv_bytes_lookup (buf : list Z) (off cnt : Z) (data buf' : list Z)
    (i : nat) :
  recv_bytes buf off cnt data = Some buf' →
  buf' !! i
  = if decide (Z.to_nat off ≤ i < Z.to_nat off + length data)%nat
    then data !! (i - Z.to_nat off)%nat else buf !! i.
Proof.
  unfold recv_bytes. destruct (_ && _) eqn:Hc; [|done]. intros [= <-].
  apply andb_prop in Hc as [[Ho%Z.leb_le _]%andb_prop Hl%Z.leb_le].
  destruct (decide (i < Z.to_nat off)%nat).
  - rewrite lookup_app_l by (rewrite length_take; lia).
    rewrite lookup_take_lt by done. by rewrite decide_False by lia.
  - rewrite lookup_app_r by (rewrite length_take; lia).
    rewrite length_take, Nat.min_l by lia.
    destruct (decide (i < Z.to_nat off + length data)%nat).
    + rewrite lookup_app_l by lia. by rewrite decide_True by lia.
    + rewrite lookup_app_r by lia. rewrite lookup_drop.
      rewrite decide_False by lia. f_equal. lia.
Qed.

Section Rows.
Variable width : Z.
Hypothesis width_pos : 0 < width.

(** The [3·width] bytes of row [y] of a buffer. *)
Definition row_of (buf : list Z) (y : Z) : list Z :=
  take (Z.to_nat (3 * width)) (drop (Z.to_nat (3 * width * y)) buf).

Lemma row_of_lookup (buf : list Z) (y : Z) (i : nat) :
  row_of buf y !! i
  = if decide (i < Z.to_nat (3 * width))%nat
    then buf !! (Z.to_nat (3 * width * y) + i)%nat else None.
Proof.
  unfold row_of. destruct (decide _).
  - by rewrite lookup_take_lt, lookup_drop by done.
  - by rewrite lookup_take_ge by lia.
Qed.

(** A copied chunk leaves the other rows alone ... *)
Lemma row_of_recv_other (buf data buf' : list Z) (a n cnt y : Z) :
  recv_bytes buf (3 * width * a) cnt data = Some buf' →
  length data = Z.to_nat (3 * width * n) → 0 ≤ a → 0 ≤ n → 0 ≤ y →
  y < a ∨ a + n ≤ y →
  row_of buf' y = row_of buf y.
Proof.
  intros Hrecv Hlen Ha Hn Hy Hout. apply list_eq. intros i.
  rewrite !row_of_lookup. destruct (decide _); [|done].
  rewrite (recv_bytes_lookup _ _ _ _ _ _ Hrecv).
  rewrite decide_False; [done|]. rewrite Hlen. nia.
Qed.

(** ... and sets its own rows. *)
Lemma row_of_recv_in (buf data buf' : list Z) (a n cnt y : Z) :
  recv_bytes buf (3 * width * a) cnt data = Some buf' →
  length data = Z.to_nat (3 * width * n) → 0 ≤ a →
  a ≤ y < a + n →
  row_of buf' y = row_of data (y - a).
Proof.
  intros Hrecv Hlen Ha Hin. apply list_eq. intros i.
  rewrite !row_of_lookup. destruct (decide _); [|done].
  rewrite (recv_bytes_lookup _ _ _ _ _ _ Hrecv).
  rewrite decide_True by (rewrite Hlen; nia).
  f_equal. nia.
Qed.

Lemma row_of_join (rows : list (list Z)) (i : nat) (row : list Z) :
  Forall (λ r, length r = Z.to_nat (3 * width)) rows →
  rows !! i = Some row →
  row_of (mjoin rows) (Z.of_nat i) = row.
Proof.
  intros Hall Hrow. apply list_eq. intros j.
  rewrite row_of_lookup.
  pose proof (Forall_lookup_1 _ _ _ _ Hall Hrow) as Hlen. simpl in Hlen.
  destruct (decide _).
  - replace (Z.to_nat (3 * width * Z.of_nat i) + j)%nat
      with (i * Z.to_nat (3 * width) + j)%nat by nia.
    by apply lookup_join_uniform.
  - symmetry. apply lookup_ge_None. lia.
Qed.

(** A buffer is the concatenation of its rows. *)
Lemma join_rows (buf : list Z) (k : nat) :
  mjoin (row_of buf <$> seqZ 0 (Z.of_nat k))
  = take (Z.to_nat (3 * width * Z.of_nat k)) buf.
Proof.
  induction k as [|k IH].
  - by rewrite seqZ_nil, Z.mul_0_r by lia.
  - rewrite seqZ_S, fmap_app, join_app, IH. simpl. rewrite app_nil_r.
    unfold row_of. rewrite Z.add_0_l, take_take_drop. f_equal. nia.
Qed.
End Rows.

(** ** The invariant of a frame *)

Section Invariant.
Context `{DoubleOps D}.
Variables (zoom centerX centerY : D) (width height max_iter : Z).
Hypothesis width_pos : 0 < width.
Hypothesis height_pos : 0 < height.

Local Abbreviation render_row :=
  (render_row zoom centerX centerY width height max_iter).
Local Abbreviation render_rows :=
  (render_rows zoom centerX centerY width height max_iter).
Local Abbreviation astep :=
  (astep zoom centerX centerY width height max_iter).

(** A result in an outbox is the rendering of its chunk; the sentinel is
    sent only once the cursor has reached [height]. *)
Definition shape_ok (m : master) (sh : shape) : Prop :=
  match sh with
  | Idle (Some (a, n, data)) | Requested (Some (a, n, data)) =>
      render_rows a (a + n) = Some data
  | Draining | Leaving | Retired => height ≤ nextRow m
  | _ => True
  end.

(** The workers the master still waits for. *)
Definition active (sh : shape) : list unit :=
  if is_retired sh then [] else [()].

Record inv (tr : list event) (m : master) (shs : list shape) : Prop := {
  inv_tiles : tiles height (nextRow m) (assigns tr);
  inv_flight : assigns tr ≡ₚ results tr ++ (shs ≫= in_flight);
  inv_active : activeWorkers m = Z.of_nat (length (shs ≫= active));
  inv_shapes : Forall (shape_ok m) shs;
  inv_length : length (fullBuffer m) = Z.to_nat (3 * width * height);
  inv_rows : ∀ y c, 0 ≤ y < height → c ∈ results tr → covers y c = true →
               render_row y = Some (row_of width (fullBuffer m) y)
}.

Lemma inv_init (size : Z) (buf : list Z) :
  1 ≤ size → length buf = Z.to_nat (3 * width * height) →
  inv [] (Master 0 (size - 1) buf)
    (replicate (Z.to_nat (size - 1)) (Idle None)).
Proof.
  intros Hs Hlen. split; simpl.
  - constructor.
  - generalize (Z.to_nat (size - 1)) as k.
    induction k as [|k IH]; [done|]. by rewrite replicate_S, bind_cons.
  - replace (size - 1) with (Z.of_nat (Z.to_nat (size - 1))) at 1 by lia.
    f_equal. generalize (Z.to_nat (size - 1)) as k.
    induction k as [|k IH]; [done|].
    rewrite replicate_S, bind_cons. simpl. by f_equal.
  - by apply Forall_replicate.
  - done.
  - intros y c _ Hc. by apply elem_of_nil in Hc.
Qed.

(** A chunk on its way is one of the assigned chunks: it lies within the
    frame. *)
Lemma inv_chunk tr m shs (w : nat) (sh : shape) (a n : Z) :
  inv tr m shs → shs !! w = Some sh → (a, n) ∈ in_flight sh →
  0 ≤ a ∧ 0 < n ≤ CHUNK_SIZE ∧ a + n ≤ height.
Proof.
  intros Hinv Hsh Hin.
  assert ((a, n) ∈ assigns tr) as Hassigned.
  { rewrite (inv_flight _ _ _ Hinv). apply elem_of_app. right.
    apply list_elem_of_bind. exists sh. split; [done|].
    by eapply list_elem_of_lookup_2. }
  pose proof (tiles_chunk height _ _ a n ltac:(lia) (inv_tiles _ _ _ Hinv)
                Hassigned).
  lia.
Qed.

Lemma inv_chunk_start_ok tr m shs :
  inv tr m shs → Forall chunk_start_ok shs.
Proof.
  intros Hinv. apply Forall_lookup. intros w sh Hsh.
  destruct sh as [| |a n| | |]; simpl; try done.
  destruct (inv_chunk tr m shs w (Assigned a n) a n Hinv Hsh) as [? _];
    [by apply list_elem_of_singleton|lia].
Qed.

Lemma shape_ok_mono (m m' : master) (sh : shape) :
  nextRow m ≤ nextRow m' → shape_ok m sh → shape_ok m' sh.
Proof. destruct sh as [[[[??]?]|]|[[[??]?]|]| | | |]; simpl; lia || done. Qed.

(** The rows of a rendered chunk are the renderings of its rows. *)
Lemma render_rows_row (a n y : Z) (data : list Z) :
  render_rows a (a + n) = Some data → a ≤ y < a + n →
  render_row y = Some (row_of width data (y - a)).
Proof.
  intros (rows & -> & Hlen & Hall & Hrows)%render_rows_rows Hy.
  destruct (lookup_lt_is_Some_2 rows (Z.to_nat (y - a))) as [row Hrow];
    [lia|].
  pose proof (Hrows _ _ Hrow) as Hr.
  replace (a + Z.of_nat (Z.to_nat (y - a))) with y in Hr by lia.
  rewrite Hr. f_equal. symmetry.
  replace (y - a) with (Z.of_nat (Z.to_nat (y - a))) by lia.
  by apply row_of_join.
Qed.

Lemma active_insert (shs : list shape) (w : nat) (sh sh' : shape) :
  shs !! w = Some sh →
  Z.of_nat (length (<[w := sh']> shs ≫= active))
  = Z.of_nat (length (shs ≫= active))
    - Z.of_nat (length (active sh)) + Z.of_nat (length (active sh')).
Proof.
  intros Hsh.
  destruct (bind_insert_perm active shs w sh Hsh) as (rest & Hold & Hnew).
  rewrite (Hnew sh'), Hold, !length_app. lia.
Qed.

Lemma flight_insert (shs : list shape) (w : nat) (sh sh' : shape)
    (assigned copied : list (Z * Z)) (xs ys : list (Z * Z)) :
  shs !! w = Some sh →
  xs ≡ₚ ys ++ (shs ≫= in_flight) →
  in_flight sh ++ assigned ≡ₚ copied ++ in_flight sh' →
  xs ++ assigned ≡ₚ (ys ++ copied) ++ (<[w := sh']> shs ≫= in_flight).
Proof.
  intros Hsh Hxs Hlocal.
  destruct (bind_insert_perm in_flight shs w sh Hsh) as (rest & Hold & Hnew).
  rewrite (Hnew sh'), Hxs, Hold.
  rewrite <- !(assoc_L (++)). f_equiv.
  rewrite (comm (++) rest assigned), (assoc_L (++) (in_flight sh)), Hlocal.
  by rewrite <- (assoc_L (++)).
Qed.

(** The copy of a result: the rows of its chunk now hold their rendering,
    the others are untouched. *)
Lemma inv_step_result tr m shs (w : nat) (a n : Z) (data buf : list Z)
    (sh sh' : shape) :
  inv tr m shs → shs !! w = Some sh →
  in_flight sh = [(a, n)] → in_flight sh' = [] →
  active sh' = active sh →
  shape_ok m sh → render_rows a (a + n) = Some data →
  (∀ m', shape_ok m' sh') →
  recv_bytes (fullBuffer m) (3 * width * a) (3 * width * n) data = Some buf →
  inv (tr ++ [EvResult w a n data])
    (Master (nextRow m) (activeWorkers m) buf) (<[w := sh']> shs).
Proof.
  intros Hinv Hsh Hfl Hfl' Hact Hok Hdata Hok' Hbuf.
  destruct (inv_chunk tr m shs w sh a n Hinv Hsh) as (Ha & Hn & Han);
    [rewrite Hfl; by apply list_elem_of_singleton|].
  assert (Hlen : length data = Z.to_nat (3 * width * n)).
  { rewrite (render_rows_length zoom centerX centerY width height max_iter
               a (a + n) data) by (done || lia).
    f_equal. lia. }
  split; rewrite ?assigns_snoc, ?results_snoc; simpl; rewrite ?app_nil_r.
  - apply Hinv.
  - rewrite <- (app_nil_r (assigns tr)).
    eapply flight_insert; [done|apply Hinv|]. by rewrite Hfl, Hfl'.
  - rewrite (active_insert _ _ _ _ Hsh), <- (inv_active _ _ _ Hinv), Hact.
    lia.
  - apply Forall_insert; [|done].
    eapply Forall_impl; [apply Hinv|]. intros sh0.
    by apply shape_ok_mono.
  - rewrite (recv_bytes_length _ _ _ _ _ Hbuf). apply Hinv.
  - intros y c Hy Hc Hcov.
    destruct (decide (a ≤ y < a + n)) as [Hin|Hout].
    + rewrite (row_of_recv_in width width_pos _ _ _ a n _ y Hbuf) by done.
      by apply (render_rows_row a n).
    + rewrite (row_of_recv_other width width_pos _ _ _ a n _ y Hbuf)
        by (done || lia).
      apply elem_of_app in Hc as [Hc|Hc].
      * by eapply (inv_rows _ _ _ Hinv).
      * apply list_elem_of_singleton in Hc as ->.
        unfold covers in Hcov. simpl in Hcov. lia.
Qed.

(** Every step keeps the invariant. *)
Lemma inv_step tr m shs e m' shs' :
  inv tr m shs → astep m shs e m' shs' → inv (tr ++ [e]) m' shs'.
Proof.
  intros Hinv Hstep.
  pose proof (tiles_range height _ _ ltac:(lia) (inv_tiles _ _ _ Hinv))
    as Hrange.
  destruct Hstep as
    [w res Hsh|w Hsh Hact Hlt n|w Hsh Hact Hge|w a n data Hsh Hdata
    |w a n data buf Hsh Hact Hbuf|w a n data buf Hsh Hact Hbuf
    |w Hsh|w Hsh Hact].
  - (* request *)
    split; rewrite ?assigns_snoc, ?results_snoc; simpl; rewrite ?app_nil_r.
    + apply Hinv.
    + rewrite <- (app_nil_r (assigns tr)), <- (app_nil_r (results tr)).
      eapply flight_insert; [done|apply Hinv|]. by destruct res as [[[??]?]|].
    + rewrite (active_insert _ _ _ _ Hsh), <- (inv_active _ _ _ Hinv).
      simpl. lia.
    + apply Forall_insert; [apply Hinv|].
      apply (Forall_lookup_1 _ _ _ _ (inv_shapes _ _ _ Hinv) Hsh).
    + apply Hinv.
    + apply Hinv.
  - (* assign *)
    split; rewrite ?assigns_snoc, ?results_snoc; simpl; rewrite ?app_nil_r.
    + by apply tiles_snoc; [apply Hinv|].
    + rewrite <- (app_nil_r (results tr)).
      eapply flight_insert; [done|apply Hinv|done].
    + rewrite (active_insert _ _ _ _ Hsh), <- (inv_active _ _ _ Hinv).
      simpl. lia.
    + apply Forall_insert; [|done].
      eapply Forall_impl; [apply Hinv|]. intros sh. simpl.
      apply shape_ok_mono. simpl. unfold n, CHUNK_SIZE. lia.
    + apply Hinv.
    + apply Hinv.
  - (* sentinel *)
    split; rewrite ?assigns_snoc, ?results_snoc; simpl; rewrite ?app_nil_r.
    + apply Hinv.
    + rewrite <- (app_nil_r (assigns tr)), <- (app_nil_r (results tr)).
      eapply flight_insert; [done|apply Hinv|done].
    + rewrite (active_insert _ _ _ _ Hsh), <- (inv_active _ _ _ Hinv).
      simpl. lia.
    + apply Forall_insert; [apply Hinv|done].
    + apply Hinv.
    + apply Hinv.
  - (* compute *)
    destruct (inv_chunk tr m shs w _ a n Hinv Hsh) as (Ha & Hn & Han);
      [by apply list_elem_of_singleton|].
    split; rewrite ?assigns_snoc, ?results_snoc; simpl; rewrite ?app_nil_r.
    + apply Hinv.
    + rewrite <- (app_nil_r (assigns tr)), <- (app_nil_r (results tr)).
      eapply flight_insert; [done|apply Hinv|done].
    + rewrite (active_insert _ _ _ _ Hsh), <- (inv_active _ _ _ Hinv).
      simpl. lia.
    + apply Forall_insert; [apply Hinv|]. simpl.
      rewrite <- Hdata. symmetry. apply compute_rows_render; [lia..|].
      rewrite length_replicate. f_equal. lia.
    + apply Hinv.
    + apply Hinv.
  - (* result, worker idle *)
    pose proof (Forall_lookup_1 _ _ _ _ (inv_shapes _ _ _ Hinv) Hsh) as Hok.
    by eapply (inv_step_result tr m shs w a n data buf
                 (Idle (Some (a, n, data))) (Idle None)).
  - (* result, worker has requested *)
    pose proof (Forall_lookup_1 _ _ _ _ (inv_shapes _ _ _ Hinv) Hsh) as Hok.
    by eapply (inv_step_result tr m shs w a n data buf
                 (Requested (Some (a, n, data))) (Requested None)).
  - (* done *)
    split; rewrite ?assigns_snoc, ?results_snoc; simpl; rewrite ?app_nil_r.
    + apply Hinv.
    + rewrite <- (app_nil_r (assigns tr)), <- (app_nil_r (results tr)).
      eapply flight_insert; [done|apply Hinv|done].
    + rewrite (active_insert _ _ _ _ Hsh), <- (inv_active _ _ _ Hinv).
      simpl. lia.
    + apply Forall_insert; [apply Hinv|]. simpl.
      apply (Forall_lookup_1 _ _ _ _ (inv_shapes _ _ _ Hinv) Hsh).
    + apply Hinv.
    + apply Hinv.
  - (* retire *)
    split; rewrite ?assigns_snoc, ?results_snoc; simpl; rewrite ?app_nil_r.
    + apply Hinv.
    + rewrite <- (app_nil_r (assigns tr)), <- (app_nil_r (results tr)).
      eapply flight_insert; [done|apply Hinv|done].
    + rewrite (active_insert _ _ _ _ Hsh), (inv_active _ _ _ Hinv).
      simpl. lia.
    + apply Forall_insert; [apply Hinv|]. simpl.
      apply (Forall_lookup_1 _ _ _ _ (inv_shapes _ _ _ Hinv) Hsh).
    + apply Hinv.
    + apply Hinv.
Qed.

Lemma astep_length m shs e m' shs' :
  astep m shs e m' shs' → length shs' = length shs.
Proof. destruct 1; apply length_insert. Qed.

(** The invariant holds in every reachable state of a frame. *)
Lemma reachable_inv (size : Z) (buf : list Z) (tr : list event) (s : state) :
  1 ≤ size → length buf = Z.to_nat (3 * width * height) →
  reachable zoom centerX centerY width height max_iter size buf tr s →
  ∃ shs, st_workers s = realize <$> shs
    ∧ length shs = Z.to_nat (size - 1)
    ∧ inv tr (st_master s) shs.
Proof.
  intros Hsize Hlen Hreach.
  induction Hreach as [|tr s a s' e Hreach (shs & Hw & Hl & Hinv) Hstep].
  - exists (replicate (Z.to_nat (size - 1)) (Idle None)). simpl.
    split; [by rewrite fmap_replicate|].
    split; [by rewrite length_replicate|]. by apply inv_init.
  - destruct s as [m ws]. simpl in *. subst ws.
    destruct (step_by_astep zoom centerX centerY width height max_iter
                a m shs s' e) as (m' & shs' & -> & Hastep);
      [by eapply inv_chunk_start_ok|done|].
    exists shs'. simpl. split; [done|].
    split; [by rewrite (astep_length _ _ _ _ _ Hastep)|].
    by eapply inv_step.
Qed.

Lemma bind_nil_length {A B} (f : A → list B) (l : list A) (x : A) :
  length (l ≫= f) = 0%nat → x ∈ l → f x = [].
Proof.
  intros Hlen Hx. apply list_elem_of_lookup in Hx as [i Hi].
  destruct (bind_insert_perm f l i x Hi) as (rest & Hold & _).
  rewrite Hold, length_app in Hlen.
  apply length_zero_iff_nil. lia.
Qed.

(** When the master waits for nobody, every worker has retired. *)
Lemma inv_all_retired tr m shs (sh : shape) :
  inv tr m shs → activeWorkers m ≤ 0 → sh ∈ shs → sh = Retired.
Proof.
  intros Hinv Hact Hsh.
  assert (active sh = []) as Hnil.
  { apply (bind_nil_length active shs); [|done].
    pose proof (inv_active _ _ _ Hinv). lia. }
  by destruct sh.
Qed.

(** A buffer each of whose rows is rendered is the rendered frame. *)
Lemma render_rows_by_row (buf : list Z) :
  length buf = Z.to_nat (3 * width * height) →
  (∀ y, 0 ≤ y < height → render_row y = Some (row_of width buf y)) →
  render_rows 0 height = Some buf.
Proof.
  intros Hlen Hrows. rewrite render_rows_unfold, Z.sub_0_r.
  assert (mapM render_row (seqZ 0 height)
          = Some (row_of width buf <$> seqZ 0 height)) as ->.
  { apply mapM_Some_2, Forall2_fmap_r, Forall_Forall2_diag, Forall_seqZ.
    intros y Hy. apply Hrows. lia. }
  simpl. f_equal.
  replace height with (Z.of_nat (Z.to_nat height)) at 1 by lia.
  rewrite (join_rows width width_pos).
  rewrite Z2Nat.id by lia. apply take_ge. lia.
Qed.

(** The frame buffer when the master leaves its loop. *)
Lemma inv_final tr m shs :
  inv tr m shs → activeWorkers m ≤ 0 → (0 < length shs)%nat →
  nextRow m = height
  ∧ assigns tr ≡ₚ results tr
  ∧ render_rows 0 height = Some (fullBuffer m).
Proof.
  intros Hinv Hact Hlen.
  pose proof (tiles_range height _ _ ltac:(lia) (inv_tiles _ _ _ Hinv))
    as Hrange.
  assert (Hnext : nextRow m = height).
  { destruct shs as [|sh shs]; [simpl in Hlen; lia|].
    pose proof (inv_all_retired tr m _ sh Hinv Hact ltac:(left)) as ->.
    pose proof (Forall_inv (inv_shapes _ _ _ Hinv)) as Hok. simpl in Hok. lia. }
  assert (Hperm : assigns tr ≡ₚ results tr).
  { rewrite (inv_flight _ _ _ Hinv).
    assert (shs ≫= in_flight = []) as ->; [|by rewrite app_nil_r].
    assert (Hall : Forall (λ sh, sh = Retired) shs).
    { apply Forall_forall. intros sh Hsh. by eapply inv_all_retired. }
    clear Hlen Hinv. induction Hall as [|sh shs -> _ IH]; [done|].
    by rewrite bind_cons, IH. }
  split; [done|]. split; [done|].
  apply render_rows_by_row; [apply Hinv|].
  intros y Hy.
  pose proof (tiles_cover height _ _ y ltac:(lia) (inv_tiles _ _ _ Hinv))
    as Hcov.
  rewrite decide_True in Hcov by lia.
  destruct (filter (λ c, covers y c = true) (assigns tr)) as [|c l] eqn:Hf;
    [done|].
  assert (c ∈ filter (λ c, covers y c = true) (assigns tr)) as Hc
    by (rewrite Hf; left).
  apply list_elem_of_filter in Hc as [Hcy Hc].
  rewrite Hperm in Hc.
  by apply (inv_rows _ _ _ Hinv y c).
Qed.

(** *** Progress and termination *)

(** The steps a worker in a given shape still owes to the frame, its next
    chunk apart. *)
Definition owed (sh : shape) : nat :=
  match sh with
  | Idle None => 4
  | Idle (Some _) => 5
  | Requested None => 3
  | Requested (Some _) => 4
  | Assigned _ _ => 6
  | Draining => 2
  | Leaving => 1
  | Retired => 0
  end.

(** The chunks the cursor [r] has still to hand out. *)
Definition chunks_left (r : Z) : Z := (height - r + CHUNK_SIZE - 1) / CHUNK_SIZE.

(** The number of steps the frame still takes: four for every chunk not
    yet assigned (assign, compute, copy and the request that follows),
    and what each worker owes. *)
Definition steps_left (m : master) (shs : list shape) : Z :=
  4 * chunks_left (nextRow m)
  + Z.of_nat (length (shs ≫= λ sh, replicate (owed sh) ())).

Lemma owed_insert (shs : list shape) (w : nat) (sh sh' : shape) :
  shs !! w = Some sh →
  Z.of_nat (length (<[w := sh']> shs ≫= λ sh, replicate (owed sh) ()))
  = Z.of_nat (length (shs ≫= λ sh, replicate (owed sh) ()))
    - Z.of_nat (owed sh) + Z.of_nat (owed sh').
Proof.
  intros Hsh.
  destruct (bind_insert_perm (λ sh, replicate (owed sh) ()) shs w sh Hsh)
    as (rest & Hold & Hnew).
  rewrite (Hnew sh'), Hold, !length_app, !length_replicate. lia.
Qed.

Lemma owed_init (k : nat) :
  length (replicate k (Idle None) ≫= λ sh, replicate (owed sh) ())
  = (4 * k)%nat.
Proof.
  induction k as [|k IH]; [done|].
  rewrite replicate_S, bind_cons, length_app, IH. simpl. lia.
Qed.

Lemma chunks_left_advance (r : Z) :
  0 ≤ r < height →
  chunks_left (r + Z.min CHUNK_SIZE (height - r)) = chunks_left r - 1.
Proof.
  intros Hr. unfold chunks_left, CHUNK_SIZE.
  destruct (Z.min_spec 10 (height - r)) as [[Hlt ->]|[Hge ->]].
  - replace (height - r + 10 - 1) with (height - (r + 10) + 10 - 1 + 1 * 10)
      by lia.
    rewrite Z.div_add by lia. lia.
  - replace (height - (r + (height - r)) + 10 - 1) with 9 by lia.
    replace (height - r + 10 - 1) with (height - r - 1 + 1 * 10) by lia.
    rewrite Z.div_add, (Z.div_small (height - r - 1)) by lia. done.
Qed.

(** Every step takes one off [steps_left]. *)
Lemma astep_steps_left tr m shs e m' shs' :
  inv tr m shs → astep m shs e m' shs' →
  steps_left m' shs' = steps_left m shs - 1.
Proof.
  intros Hinv Hstep.
  pose proof (tiles_range height _ _ ltac:(lia) (inv_tiles _ _ _ Hinv))
    as Hrange.
  unfold steps_left.
  destruct Hstep as
    [w res Hsh|w Hsh Hact Hlt n|w Hsh Hact Hge|w a n data Hsh Hdata
    |w a n data buf Hsh Hact Hbuf|w a n data buf Hsh Hact Hbuf
    |w Hsh|w Hsh Hact];
    rewrite (owed_insert _ _ _ _ Hsh); simpl;
    rewrite ?chunks_left_advance by lia; try lia.
  destruct res; simpl; lia.
Qed.

Lemma steps_left_nonneg tr m shs : inv tr m shs → 0 ≤ steps_left m shs.
Proof.
  intros Hinv.
  pose proof (tiles_range height _ _ ltac:(lia) (inv_tiles _ _ _ Hinv)).
  assert (0 ≤ chunks_left (nextRow m))
    by (apply Z.div_pos; unfold CHUNK_SIZE; lia).
  unfold steps_left. lia.
Qed.

(** The chunks of a frame that can be rendered can be rendered. *)
Lemma render_rows_part (a n : Z) :
  0 ≤ a → 0 ≤ n → a + n ≤ height →
  is_Some (render_rows 0 height) → is_Some (render_rows a (a + n)).
Proof.
  intros Ha Hn Han [frame Hframe].
  rewrite (render_rows_app zoom centerX centerY width height max_iter
             0 a height) in Hframe by lia.
  destruct (render_rows 0 a); [simpl in Hframe|done].
  rewrite (render_rows_app zoom centerX centerY width height max_iter
             a (a + n) height) in Hframe by lia.
  by destruct (render_rows a (a + n)).
Qed.

(** While the master waits for a worker, some process can move. *)
Lemma inv_progress tr m shs :
  inv tr m shs → 0 < activeWorkers m →
  is_Some (render_rows 0 height) →
  ∃ e m' shs', astep m shs e m' shs'.
Proof.
  intros Hinv Hact Hframe.
  assert (∃ w sh, shs !! w = Some sh ∧ sh ≠ Retired) as (w & sh & Hsh & Hne).
  { rewrite (inv_active _ _ _ Hinv) in Hact.
    destruct (shs ≫= active) as [|[] l] eqn:Hb; [simpl in Hact; lia|].
    assert (() ∈ shs ≫= active) as Hin by (rewrite Hb; left).
    apply list_elem_of_bind in Hin as (sh & Hu & Hin).
    apply list_elem_of_lookup in Hin as [w Hw].
    exists w, sh. split; [done|]. intros ->. by apply elem_of_nil in Hu. }
  pose proof (Forall_lookup_1 _ _ _ _ (inv_shapes _ _ _ Hinv) Hsh) as Hok.
  destruct sh as [res|[[[a n] data]|]|a n| | |]; [| | | | | |done].
  - eexists _, _, _. by apply astep_request.
  - destruct (inv_chunk tr m shs w _ a n Hinv Hsh) as (Ha & Hn & Han);
      [by apply list_elem_of_singleton|].
    simpl in Hok.
    pose proof (render_rows_length zoom centerX centerY width height max_iter
                  a (a + n) data ltac:(lia) ltac:(lia) Hok) as Hlen.
    assert (is_Some (recv_bytes (fullBuffer m) (3 * width * a)
                       (3 * width * n) data)) as [buf Hbuf].
    { unfold recv_bytes. rewrite (inv_length _ _ _ Hinv), Hlen.
      destruct (Z.leb_spec 0 (3 * width * a)); [|nia].
      destruct (Z.leb_spec (Z.of_nat (Z.to_nat (3 * width * (a + n - a))))
                  (3 * width * n)); [|nia].
      destruct (Z.leb_spec
                  (3 * width * a
                   + Z.of_nat (Z.to_nat (3 * width * (a + n - a))))
                  (Z.of_nat (Z.to_nat (3 * width * height)))); [|nia].
      done. }
    eexists _, _, _. by eapply astep_result_requested.
  - destruct (decide (nextRow m < height)).
    + eexists _, _, _. by apply astep_assign.
    + eexists _, _, _. apply astep_sentinel; [done..|lia].
  - destruct (inv_chunk tr m shs w _ a n Hinv Hsh) as (Ha & Hn & Han);
      [by apply list_elem_of_singleton|].
    destruct (render_rows_part a n) as [data Hdata]; [lia..|done|].
    eexists _, _, _. eapply astep_compute; [done|].
    rewrite compute_rows_render; [done|lia..|].
    rewrite length_replicate. f_equal. lia.
  - eexists _, _, _. by apply astep_done.
  - eexists _, _, _. by apply astep_retire.
Qed.
End Invariant.

(** ** The assignment a worker is answering

    [pending_assign w tr] is the chunk of the last assignment sent to the
    worker [w] in the trace [tr], as long as [w] has not answered it with a
    result; [pending_result w tr] is the header of the result [w] sent last,
    as long as the master has not copied it. *)

Definition track_assign (w : nat) (p : option (Z * Z)) (e : event)
    : option (Z * Z) :=
  match e with
  | EvAssign w' a n => if decide (w' = w) then Some (a, n) else p
  | EvCompute w' _ _ => if decide (w' = w) then None else p
  | _ => p
  end.

Definition track_result (w : nat) (p : option (Z * Z)) (e : event)
    : option (Z * Z) :=
  match e with
  | EvCompute w' a n => if decide (w' = w) then Some (a, n) else p
  | EvResult w' _ _ _ => if decide (w' = w) then None else p
  | _ => p
  end.

Definition pending_assign (w : nat) (tr : list event) : option (Z * Z) :=
  foldl (track_assign w) None tr.

Definition pending_result (w : nat) (tr : list event) : option (Z * Z) :=
  foldl (track_result w) None tr.

Definition shape_assign (sh : shape) : option (Z * Z) :=
  match sh with Assigned a n => Some (a, n) | _ => None end.

Definition shape_result (sh : shape) : option (Z * Z) :=
  match sh with
  | Idle (Some (a, n, _)) | Requested (Some (a, n, _)) => Some (a, n)
  | _ => None
  end.

(** ** Frames *)

(** A list with exactly one element satisfying [P], split at it. *)
Lemma filter_once {A} (P : A → Prop) `{!∀ x, Decision (P x)} (l : list A) :
  length (filter P l) = 1%nat →
  ∃ pre x post, l = pre ++ x :: post ∧ P x ∧ ∀ y, y ∈ pre ++ post → ¬ P y.
Proof.
  induction l as [|x l IH]; [done|].
  rewrite filter_cons. destruct (decide (P x)) as [Hx|Hx]; simpl.
  - intros [= Hnil%nil_length_inv]. exists [], x, l.
    split; [done|]. split; [done|]. intros y Hy Hp. simpl in Hy.
    assert (y ∈ filter P l) as Hin by (by apply list_elem_of_filter).
    rewrite Hnil in Hin. by apply elem_of_nil in Hin.
  - intros (pre & z & post & -> & Hz & Hrest)%IH.
    exists (x :: pre), z, post. split; [done|]. split; [done|].
    intros y [->|Hy]%elem_of_cons; [done|by apply Hrest].
Qed.

Section Frames.
Context `{DoubleOps D}.
Variables (zoom centerX centerY : D) (width height max_iter : Z).
Hypothesis width_pos : 0 < width.
Hypothesis height_pos : 0 < height.

Local Abbreviation render_rows :=
  (render_rows zoom centerX centerY width height max_iter).
Local Abbreviation reachable :=
  (reachable zoom centerX centerY width height max_iter).
Local Abbreviation step_by :=
  (step_by zoom centerX centerY width height max_iter).
Local Abbreviation exec :=
  (exec zoom centerX centerY width height max_iter).
Local Abbreviation inv :=
  (inv zoom centerX centerY width height max_iter).

Lemma frame_done_spec (s : state) :
  frame_done s = true ↔ activeWorkers (st_master s) ≤ 0.
Proof.
  unfold frame_done. destruct (Z.gtb_spec (activeWorkers (st_master s)) 0);
    simpl; split; (done || lia).
Qed.

(** A schedule that runs is a way to reach a state. *)
Lemma exec_reachable (size : Z) (buf : list Z) (sched : list actor) :
  ∀ tr0 s0 s tr,
    reachable size buf tr0 s0 → exec sched s0 = Some (s, tr) →
    reachable size buf (tr0 ++ tr) s.
Proof.
  induction sched as [|a sched IH]; intros tr0 s0 s tr Hreach; simpl.
  - intros [= <- <-]. by rewrite app_nil_r.
  - destruct (step_by a s0) as [[s1 e]|] eqn:Hstep; [simpl|done].
    destruct (exec sched s1) as [[s2 tr2]|] eqn:Hexec; [simpl|done].
    intros [= <- <-].
    rewrite (cons_middle e), (assoc_L (++)).
    eapply IH; [|done]. by eapply reach_step.
Qed.

(** A reachable state is reached by some schedule. *)
Lemma reachable_exec (size : Z) (buf : list Z) (tr : list event) (s : state) :
  reachable size buf tr s →
  ∃ sched, exec sched (init_state size buf) = Some (s, tr).
Proof.
  induction 1 as [|tr s a s' e _ [sched Hsched] Hstep].
  - by exists [].
  - exists (sched ++ [a]).
    revert Hsched. generalize (init_state size buf) as s0. revert tr.
    induction sched as [|b sched IH]; intros tr s0; simpl.
    + intros [= -> <-]. by rewrite Hstep.
    + destruct (step_by b s0) as [[s1 e1]|]; [simpl|done].
      destruct (exec sched s1) as [[s2 tr2]|] eqn:Hexec; [simpl|done].
      intros [= -> <-]. by rewrite (IH tr2 s1 Hexec).
Qed.

(** The frame buffer when the master leaves its loop is the rendered
    frame, whatever it held before, whoever computed which chunk and in
    whatever order the results came. *)
Lemma frame_buffer_final (size : Z) (buf : list Z) (tr : list event) (s : state) :
  2 ≤ size → length buf = Z.to_nat (3 * width * height) →
  reachable size buf tr s → frame_done s = true →
  render_rows 0 height = Some (fullBuffer (st_master s))
  ∧ tiles height height (assigns tr)
  ∧ assigns tr ≡ₚ results tr.
Proof.
  intros Hsize Hlen Hreach Hdone%frame_done_spec.
  assert (∃ shs, st_workers s = realize <$> shs
            ∧ length shs = Z.to_nat (size - 1)
            ∧ inv tr (st_master s) shs) as (shs & Hw & Hl & Hinv)
    by (eapply reachable_inv; revgoals; eauto; lia).
  assert (nextRow (st_master s) = height
          ∧ assigns tr ≡ₚ results tr
          ∧ render_rows 0 height = Some (fullBuffer (st_master s)))
    as (Hnext & Hperm & Hframe)
    by (eapply inv_final; revgoals; eauto; lia).
  split; [done|]. split; [|done].
  rewrite <- Hnext at 2. eapply inv_tiles. exact Hinv.
Qed.

(** The number of steps taken and of steps left is constant: a frame
    takes four steps for every chunk and four for every worker. *)
Lemma frame_steps (size : Z) (buf : list Z) (tr : list event) (s : state) :
  1 ≤ size → length buf = Z.to_nat (3 * width * height) →
  reachable size buf tr s →
  ∃ shs, st_workers s = realize <$> shs
    ∧ inv tr (st_master s) shs
    ∧ Z.of_nat (length tr) + steps_left height (st_master s) shs
      = 4 * chunks_left height 0 + 4 * (size - 1).
Proof.
  intros Hsize Hlen Hreach.
  induction Hreach as [|tr s a s' e Hreach (shs & Hw & Hinv & Hsteps) Hstep].
  - exists (replicate (Z.to_nat (size - 1)) (Idle None)).
    split; [by rewrite fmap_replicate|].
    split; [by apply inv_init|].
    unfold steps_left. simpl. rewrite owed_init. lia.
  - destruct s as [m ws]. simpl in *. subst ws.
    destruct (step_by_astep zoom centerX centerY width height max_iter
                a m shs s' e) as (m' & shs' & -> & Hastep);
      [eapply inv_chunk_start_ok; revgoals; eauto|done|].
    exists shs'. simpl. split; [done|].
    split; [eapply inv_step; revgoals; eauto|].
    assert (steps_left height m' shs' = steps_left height m shs - 1) as ->
      by (eapply astep_steps_left; revgoals; eauto).
    rewrite length_app. simpl. lia.
Qed.

(** No run of a frame is longer than that, whatever the schedule. *)
Lemma frame_bounded (size : Z) (buf : list Z) (tr : list event) (s : state) :
  1 ≤ size → length buf = Z.to_nat (3 * width * height) →
  reachable size buf tr s →
  Z.of_nat (length tr) ≤ 4 * chunks_left height 0 + 4 * (size - 1).
Proof.
  intros Hsize Hlen Hreach.
  destruct (frame_steps size buf tr s Hsize Hlen Hreach)
    as (shs & _ & Hinv & Hsteps).
  assert (0 ≤ steps_left height (st_master s) shs)
    by (eapply steps_left_nonneg; revgoals; eauto).
  lia.
Qed.

(** Every frame that can be rendered is completed: from any reachable
    state the processes can go on until the master leaves its loop. *)
Lemma frame_completes (size : Z) (buf : list Z) (tr : list event) (s : state) :
  1 ≤ size → length buf = Z.to_nat (3 * width * height) →
  is_Some (render_rows 0 height) →
  reachable size buf tr s →
  ∃ tr' s', reachable size buf (tr ++ tr') s' ∧ frame_done s' = true.
Proof.
  intros Hsize Hlen Hframe Hreach.
  destruct (frame_steps size buf tr s Hsize Hlen Hreach)
    as (shs & Hw & Hinv & _).
  remember (Z.to_nat (steps_left height (st_master s) shs)) as k eqn:Hk.
  revert tr s shs Hreach Hw Hinv Hk.
  induction k as [k IH] using lt_wf_ind.
  intros tr s shs Hreach Hw Hinv Hk.
  destruct (frame_done s) eqn:Hdone.
  - exists [], s. by rewrite app_nil_r.
  - assert (0 < activeWorkers (st_master s)) as Hact.
    { destruct (decide (0 < activeWorkers (st_master s))); [done|].
      assert (frame_done s = true) by (apply frame_done_spec; lia).
      congruence. }
    assert (∃ e m' shs',
              astep zoom centerX centerY width height max_iter
                (st_master s) shs e m' shs') as (e & m' & shs' & Hastep)
      by (eapply inv_progress; revgoals; eauto).
    assert (Forall chunk_start_ok shs) as Hok
      by (eapply inv_chunk_start_ok; revgoals; eauto).
    destruct (astep_step_by _ _ _ _ _ _ _ _ _ _ _ Hok Hastep) as [a Hstep].
    destruct s as [m ws]. simpl in *. subst ws.
    pose proof (reach_step _ _ _ _ _ _ _ _ _ _ _ _ _ Hreach Hstep) as Hreach'.
    assert (inv (tr ++ [e]) m' shs') as Hinv' by (eapply inv_step; revgoals; eauto).
    assert (steps_left height m' shs' = steps_left height m shs - 1) as Hdec
      by (eapply astep_steps_left; revgoals; eauto).
    assert (0 ≤ steps_left height m' shs') as Hnonneg'
      by (eapply steps_left_nonneg; revgoals; eauto).
    destruct (IH (Z.to_nat (steps_left height m' shs')) ltac:(lia)
                (tr ++ [e]) (State m' (realize <$> shs')) shs')
      as (tr' & s' & Hreach'' & Hdone'); try done.
    exists (e :: tr'), s'. split; [|done].
    by rewrite (cons_middle e), (assoc_L (++)).
Qed.

(** *** Traces *)

(** A step from a reachable state, on the shapes. *)
Lemma reachable_astep (size : Z) (buf : list Z) (tr : list event)
    (s s' : state) (a : actor) (e : event) :
  1 ≤ size → length buf = Z.to_nat (3 * width * height) →
  reachable size buf tr s → step_by a s = Some (s', e) →
  ∃ shs shs',
    st_workers s = realize <$> shs ∧ st_workers s' = realize <$> shs'
    ∧ length shs = Z.to_nat (size - 1)
    ∧ inv tr (st_master s) shs
    ∧ astep zoom centerX centerY width height max_iter
        (st_master s) shs e (st_master s') shs'.
Proof.
  intros Hsize Hlen Hreach Hstep.
  assert (∃ shs, st_workers s = realize <$> shs
            ∧ length shs = Z.to_nat (size - 1)
            ∧ inv tr (st_master s) shs) as (shs & Hw & Hl & Hinv)
    by (eapply reachable_inv; revgoals; eauto).
  destruct s as [m ws]. simpl in *. subst ws.
  destruct (step_by_astep zoom centerX centerY width height max_iter
              a m shs s' e) as (m' & shs' & -> & Hastep);
    [eapply inv_chunk_start_ok; revgoals; eauto|done|].
  by exists shs, shs'.
Qed.

(** Every event of a trace was a step from the state its prefix led to. *)
Lemma reachable_prefix (size : Z) (buf : list Z) (pre post : list event)
    (e : event) (s : state) :
  reachable size buf (pre ++ e :: post) s →
  ∃ s0 a s1, reachable size buf pre s0 ∧ step_by a s0 = Some (s1, e).
Proof.
  revert s. induction post as [|e' post IH] using rev_ind; intros s Hreach.
  - inversion Hreach as [Hnil|tr s0 a s1 e0 Hreach0 Hstep Heq].
    + by destruct pre.
    + apply app_inj_tail in Heq as [-> ->]. by exists s0, a, s.
  - inversion Hreach as [Hnil|tr s0 a s1 e0 Hreach0 Hstep Heq].
    + by destruct pre.
    + rewrite app_comm_cons, (assoc_L (++)) in Heq.
      apply app_inj_tail in Heq as [-> ->]. by eapply IH.
Qed.

(** The bytes of a copied result are as many as its header says. *)
Definition result_sized (e : event) : Prop :=
  match e with
  | EvResult _ a n data => length data = Z.to_nat (3 * width * n) ∧ 0 < n
  | _ => True
  end.

Lemma reachable_result_sized (size : Z) (buf : list Z) (tr : list event)
    (s : state) :
  1 ≤ size → length buf = Z.to_nat (3 * width * height) →
  reachable size buf tr s → Forall result_sized tr.
Proof.
  intros Hsize Hlen Hreach.
  induction Hreach as [|tr s a s' e Hreach IH Hstep]; [done|].
  apply Forall_app. split; [done|]. apply Forall_singleton.
  destruct (reachable_astep size buf tr s s' a e)
    as (shs & shs' & Hw & Hw' & Hl & Hinv & Hastep); [done..|].
  assert (∀ w sh a n data, shs !! w = Some sh → in_flight sh = [(a, n)] →
            shape_ok zoom centerX centerY width height max_iter
              (st_master s) sh
            = (render_rows a (a + n) = Some data) →
            length data = Z.to_nat (3 * width * n) ∧ 0 < n) as Hsized.
  { intros w sh a0 n data Hsh Hfl Hok.
    assert (0 ≤ a0 ∧ 0 < n ≤ CHUNK_SIZE ∧ a0 + n ≤ height) as (? & ? & ?).
    { eapply inv_chunk; revgoals; [rewrite Hfl; by left|eauto..]. }
    pose proof (Forall_lookup_1 _ _ _ _
                  (inv_shapes _ _ _ _ _ _ _ _ _ Hinv) Hsh) as Hsh_ok.
    rewrite Hok in Hsh_ok.
    rewrite (render_rows_length zoom centerX centerY width height max_iter
               a0 (a0 + n) data) by (done || lia).
    split; [f_equal|]; lia. }
  destruct Hastep; simpl; try done; by eapply Hsized.
Qed.

(** The byte at offset [o] is written by the copy of the event [e]. *)
Definition writes (o : Z) (e : event) : bool :=
  match e with
  | EvResult _ a _ data =>
      (3 * width * a <=? o) && (o <? 3 * width * a + Z.of_nat (length data))
  | _ => false
  end.

Lemma writes_covers (o : Z) (tr : list event) :
  0 ≤ o → Forall result_sized tr →
  length (filter (λ e, writes o e = true) tr)
  = length (filter (λ c, covers (o / (3 * width)) c = true) (results tr)).
Proof.
  intros Ho Hall. unfold results.
  induction Hall as [|e tr He _ IH]; [done|].
  rewrite bind_cons, filter_app, length_app, filter_cons, <- IH.
  destruct e as [w|w a n|w|w a n|w a n data|w|w]; cbn [copied_by writes];
    try (rewrite filter_nil, decide_False by done; simpl; lia).
  destruct He as [Hlen Hn]. rewrite filter_cons, filter_nil.
  unfold covers. cbn [fst snd]. rewrite Hlen.
  assert (3 * width * a ≤ o ↔ a ≤ o / (3 * width)) as Hlo.
  { split; intros.
    - apply Z.div_le_lower_bound; lia.
    - pose proof (Z.mul_div_le o (3 * width) ltac:(lia)). nia. }
  assert (o < 3 * width * a + Z.of_nat (Z.to_nat (3 * width * n))
          ↔ o / (3 * width) < a + n) as Hhi.
  { rewrite Z2Nat.id by nia. split; intros.
    - apply Z.div_lt_upper_bound; lia.
    - pose proof (Z.mod_pos_bound o (3 * width) ltac:(lia)).
      pose proof (Z.div_mod o (3 * width) ltac:(lia)). nia. }
  destruct (Z.leb_spec (3 * width * a) o),
           (Z.ltb_spec o (3 * width * a
                          + Z.of_nat (Z.to_nat (3 * width * n)))),
           (Z.leb_spec a (o / (3 * width))),
           (Z.ltb_spec (o / (3 * width)) (a + n)); simpl;
    repeat case_decide; simpl; try done; lia.
Qed.

(** The inbox and the outbox of a worker hold what the trace says is
    pending. *)
Lemma reachable_pending (size : Z) (buf : list Z) (tr : list event)
    (s : state) :
  1 ≤ size → length buf = Z.to_nat (3 * width * height) →
  reachable size buf tr s →
  ∃ shs, st_workers s = realize <$> shs
    ∧ inv tr (st_master s) shs
    ∧ ∀ w sh, shs !! w = Some sh →
        pending_assign w tr = shape_assign sh
        ∧ pending_result w tr = shape_result sh.
Proof.
  intros Hsize Hlen Hreach.
  induction Hreach as [|tr s a s' e Hreach (shs & Hw & Hinv & Hpend) Hstep].
  - exists (replicate (Z.to_nat (size - 1)) (Idle None)).
    split; [by rewrite fmap_replicate|]. split; [by apply inv_init|].
    by intros w sh [-> _]%lookup_replicate.
  - destruct s as [m ws]. simpl in *. subst ws.
    destruct (step_by_astep zoom centerX centerY width height max_iter
                a m shs s' e) as (m' & shs' & -> & Hastep);
      [eapply inv_chunk_start_ok; revgoals; eauto|done|].
    exists shs'. split; [done|].
    split; [eapply inv_step; revgoals; eauto|].
    intros w' sh' Hsh'. unfold pending_assign, pending_result.
    rewrite !foldl_app. simpl.
    fold (pending_assign w' tr). fold (pending_result w' tr).
    destruct Hastep as
      [w res Hsh|w Hsh Hact Hlt n|w Hsh Hact Hge|w a0 n data Hsh Hdata
      |w a0 n data buf0 Hsh Hact Hbuf|w a0 n data buf0 Hsh Hact Hbuf
      |w Hsh|w Hsh Hact];
      (destruct (decide (w = w')) as [<-|Hne];
       [ rewrite list_lookup_insert_eq in Hsh'
           by (by eapply lookup_lt_Some);
         injection Hsh' as <-;
         destruct (Hpend _ _ Hsh) as [Ha Hr]; simpl in *;
         rewrite ?decide_True by done; try done;
         by destruct res as [[[??]?]|]
       | rewrite list_lookup_insert_ne in Hsh' by done;
         destruct (Hpend _ _ Hsh') as [Ha Hr]; simpl;
         by rewrite ?decide_False by done ]).
Qed.

(** What the master's receive of the event [e] makes of the frame buffer:
    the bytes of a result replace those from offset [3·width·resultStartY]
    on; no other event touches the buffer. *)
Definition copy (buffer : list Z) (e : event) : list Z :=
  match e with
  | EvResult _ a _ data =>
      take (Z.to_nat (3 * width * a)) buffer ++ data
      ++ drop (Z.to_nat (3 * width * a) + length data) buffer
  | _ => buffer
  end.

(** The frame buffer is the buffer of the start with the copies of the
    trace made on it, in their order. *)
Lemma reachable_buffer (size : Z) (buf : list Z) (tr : list event) (s : state) :
  1 ≤ size → length buf = Z.to_nat (3 * width * height) →
  reachable size buf tr s →
  fullBuffer (st_master s) = foldl copy buf tr.
Proof.
  intros Hsize Hlen Hreach.
  induction Hreach as [|tr s a s' e Hreach IH Hstep]; [done|].
  rewrite foldl_app. simpl. rewrite <- IH.
  destruct (reachable_astep size buf tr s s' a e)
    as (shs & shs' & _ & _ & _ & _ & Hastep); [done..|].
  destruct Hastep as
    [w res Hsh|w Hsh Hact Hlt n|w Hsh Hact Hge|w a0 n data Hsh Hdata
    |w a0 n data buf0 Hsh Hact Hbuf|w a0 n data buf0 Hsh Hact Hbuf
    |w Hsh|w Hsh Hact]; try done;
    unfold recv_bytes in Hbuf; destruct (_ && _); [|done| |done];
    by injection Hbuf as <-.
Qed.

(** A copied result is the rendering of the rows its header names, which
    lie within the frame. *)
Definition result_rendered (e : event) : Prop :=
  match e with
  | EvResult _ a n data =>
      render_rows a (a + n) = Some data ∧ 0 ≤ a ∧ 0 < n ∧ a + n ≤ height
  | _ => True
  end.

Lemma reachable_result_rendered (size : Z) (buf : list Z) (tr : list event)
    (s : state) :
  1 ≤ size → length buf = Z.to_nat (3 * width * height) →
  reachable size buf tr s → Forall result_rendered tr.
Proof.
  intros Hsize Hlen Hreach.
  induction Hreach as [|tr s a s' e Hreach IH Hstep]; [done|].
  apply Forall_app. split; [done|]. apply Forall_singleton.
  destruct (reachable_astep size buf tr s s' a e)
    as (shs & shs' & Hw & Hw' & Hl & Hinv & Hastep); [done..|].
  assert (∀ w sh a n data, shs !! w = Some sh → in_flight sh = [(a, n)] →
            shape_ok zoom centerX centerY width height max_iter
              (st_master s) sh
            = (render_rows a (a + n) = Some data) →
            render_rows a (a + n) = Some data
            ∧ 0 ≤ a ∧ 0 < n ∧ a + n ≤ height) as Hrend.
  { intros w sh a0 n data Hsh Hfl Hok.
    assert (0 ≤ a0 ∧ 0 < n ≤ CHUNK_SIZE ∧ a0 + n ≤ height) as (? & ? & ?).
    { eapply inv_chunk; revgoals; [rewrite Hfl; by left|eauto..]. }
    pose proof (Forall_lookup_1 _ _ _ _
                  (inv_shapes _ _ _ _ _ _ _ _ _ Hinv) Hsh) as Hsh_ok.
    rewrite Hok in Hsh_ok. split; [done|]. lia. }
  destruct Hastep; simpl; try done; by eapply Hrend.
Qed.

(** In the rendered frame, the bytes of the rows [a .. a+n-1] are the
    rendering of those rows. *)
Lemma render_rows_window (a n : Z) (frame data : list Z) (o : Z) :
  0 ≤ a → 0 < n → a + n ≤ height →
  render_rows 0 height = Some frame → render_rows a (a + n) = Some data →
  3 * width * a ≤ o < 3 * width * (a + n) →
  frame !! Z.to_nat o = data !! Z.to_nat (o - 3 * width * a).
Proof.
  intros Ha Hn Han Hframe Hdata Ho.
  rewrite (render_rows_app zoom centerX centerY width height max_iter
             0 a height) in Hframe by lia.
  destruct (render_rows 0 a) as [l1|] eqn:H1; [simpl in Hframe|done].
  rewrite (render_rows_app zoom centerX centerY width height max_iter
             a (a + n) height) in Hframe by lia.
  rewrite Hdata in Hframe. simpl in Hframe.
  destruct (render_rows (a + n) height) as [l3|] eqn:H3; [|done].
  injection Hframe as <-.
  pose proof (render_rows_length zoom centerX centerY width height max_iter
                0 a l1 ltac:(lia) ltac:(lia) H1) as Hl1.
  pose proof (render_rows_length zoom centerX centerY width height max_iter
                a (a + n) data ltac:(lia) ltac:(lia) Hdata) as Hl2.
  rewrite lookup_app_r by (rewrite Hl1; nia).
  rewrite lookup_app_l by (rewrite Hl1, Hl2; nia).
  f_equal. rewrite Hl1. nia.
Qed.

(** *** The frame protocol: the claims *)

(** C1. With at least one worker, the frame buffer at the end of the
    dispatch loop is the rendered frame [render_rows 0 height], a function
    of the view and the configuration alone: two runs, with any numbers of
    workers [size1 − 1, size2 − 1 ≥ 1], any schedules (so any order of the
    results) and any earlier contents of the buffers, end with the same
    bytes; and every frame that can be rendered has such a run. *)
Theorem dispatch_deterministic (size1 size2 : Z) (buf1 buf2 : list Z)
    (tr1 tr2 : list event) (s1 s2 : state) :
  2 ≤ size1 → 2 ≤ size2 →
  length buf1 = Z.to_nat (3 * width * height) →
  length buf2 = Z.to_nat (3 * width * height) →
  reachable size1 buf1 tr1 s1 → frame_done s1 = true →
  reachable size2 buf2 tr2 s2 → frame_done s2 = true →
  fullBuffer (st_master s1) = fullBuffer (st_master s2)
  ∧ render_rows 0 height = Some (fullBuffer (st_master s1))
  ∧ ∃ tr s, reachable size1 buf2 tr s ∧ frame_done s = true.
Proof.
  intros Hs1 Hs2 Hl1 Hl2 Hr1 Hd1 Hr2 Hd2.
  destruct (frame_buffer_final size1 buf1 tr1 s1) as (Hf1 & _); [done..|].
  destruct (frame_buffer_final size2 buf2 tr2 s2) as (Hf2 & _); [done..|].
  split; [congruence|]. split; [done|].
  destruct (frame_completes size1 buf2 [] (init_state size1 buf2))
    as (tr & s & Hreach & Hdone); [lia|done|by rewrite Hf1|constructor|].
  by exists tr, s.
Qed.

(** C2. In every run of the dispatch loop to its end, with at least one
    worker: the assignments, in the order they were sent, are the chunks
    [(nextRow, min (CHUNK_SIZE, height − nextRow))] by which the cursor
    goes from 0 to [height] ([tiles]), so that every row lies in exactly
    one of them; a sentinel is sent only when the cursor has reached
    [height]; the results the master copied are the assigned chunks, each
    once; every byte offset of the frame buffer lies in the range of
    exactly one copy; the frame buffer at the end is the buffer of the
    start with those copies made on it ([copy]); and the byte at every
    offset is the byte the one copy that covers it put there. *)
Theorem dispatch_covers_frame (size : Z) (buf : list Z) (tr : list event)
    (s : state) :
  2 ≤ size → length buf = Z.to_nat (3 * width * height) →
  reachable size buf tr s → frame_done s = true →
  tiles height height (assigns tr)
  ∧ (∀ y, 0 ≤ y < height →
       length (filter (λ c, covers y c = true) (assigns tr)) = 1%nat)
  ∧ (∀ pre w post, tr = pre ++ EvSentinel w :: post →
       tiles height height (assigns pre))
  ∧ results tr ≡ₚ assigns tr
  ∧ (∀ o, 0 ≤ o < 3 * width * height →
       length (filter (λ e, writes o e = true) tr) = 1%nat)
  ∧ fullBuffer (st_master s) = foldl copy buf tr
  ∧ (∀ o, 0 ≤ o < 3 * width * height →
       ∃ pre w a n data post,
         tr = pre ++ EvResult w a n data :: post
         ∧ (∀ e, e ∈ pre ++ post → writes o e = false)
         ∧ 3 * width * a ≤ o < 3 * width * (a + n)
         ∧ Z.of_nat (length data) = 3 * width * n
         ∧ fullBuffer (st_master s) !! Z.to_nat o
           = data !! Z.to_nat (o - 3 * width * a)).
Proof.
  intros Hsize Hlen Hreach Hdone.
  destruct (frame_buffer_final size buf tr s) as (Hframe & Htiles & Hperm);
    [done..|].
  assert (Hrows : ∀ y, 0 ≤ y < height →
            length (filter (λ c, covers y c = true) (assigns tr)) = 1%nat).
  { intros y Hy. rewrite (tiles_cover height height) by (done || lia).
    by rewrite decide_True. }
  pose proof (reachable_result_sized size buf tr s ltac:(lia) Hlen Hreach)
    as Hsized.
  assert (Honce : ∀ o, 0 ≤ o < 3 * width * height →
            length (filter (λ e, writes o e = true) tr) = 1%nat).
  { intros o Ho. rewrite writes_covers by (done || lia).
    rewrite <- Hperm. apply Hrows.
    split; [apply Z.div_pos; lia|apply Z.div_lt_upper_bound; lia]. }
  split; [done|]. split; [done|]. split.
  { intros pre w post ->.
    destruct (reachable_prefix size buf pre post (EvSentinel w) s Hreach)
      as (s0 & a & s1 & Hreach0 & Hstep).
    destruct (reachable_astep size buf pre s0 s1 a (EvSentinel w))
      as (shs & shs' & _ & _ & _ & Hinv & Hastep); [lia|done..|].
    pose proof (inv_tiles _ _ _ _ _ _ _ _ _ Hinv) as Ht.
    pose proof (tiles_range height _ _ ltac:(lia) Ht) as Hrange.
    inversion Hastep; subst.
    by replace height with (nextRow (st_master s0)) at 2 by lia. }
  split; [by symmetry|]. split; [done|].
  split; [apply (reachable_buffer size); (done || lia)|].
  intros o Ho.
  destruct (filter_once _ tr (Honce o Ho))
    as (pre & e & post & Htr & He & Hrest).
  destruct e as [w|w a n|w|w a n|w a n data|w|w]; try done.
  exists pre, w, a, n, data, post. split; [done|]. split.
  { intros e' He'. specialize (Hrest e' He').
    by destruct (writes o e'). }
  pose proof (reachable_result_rendered size buf tr s ltac:(lia) Hlen Hreach)
    as Hrend.
  rewrite Htr, Forall_app, Forall_cons in Hsized, Hrend.
  destruct Hsized as (_ & [Hdlen Hn] & _).
  destruct Hrend as (_ & (Hdata & Ha & _ & Han) & _).
  simpl in He. apply andb_prop in He as [Hlo%Z.leb_le Hhi%Z.ltb_lt].
  rewrite Hdlen, Z2Nat.id in Hhi by nia.
  split; [nia|]. split; [rewrite Hdlen; nia|].
  eapply render_rows_window; revgoals; eauto; nia.
Qed.

End Frames.

(** ** The command line and the range of [int] *)

(** [argv[1]], [argv[2]], [argv[3]] as [atoi] reads them, as far as they are
    given: the width, the height and the iteration bound, the defaults where
    one is missing or not positive. *)
Definition configure (args : list Z) : Z * Z * Z :=
  let width := default DEFAULT_WIDTH (args !! 0%nat) in
  let height := default DEFAULT_HEIGHT (args !! 1%nat) in
  let max_iter := default DEFAULT_MAX_ITER (args !! 2%nat) in
  let width := if width <=? 0 then DEFAULT_WIDTH else width in
  let height := if height <=? 0 then DEFAULT_HEIGHT else height in
  let max_iter := if max_iter <=? 0 then DEFAULT_MAX_ITER else max_iter in
  (width, height, max_iter).

(** The configuration [main] works with is positive, as the results above
    assume of [width] and [height]. *)
Lemma configure_positive (args : list Z) :
  0 < (configure args).1.1 ∧ 0 < (configure args).1.2 ∧ 0 < (configure args).2.
Proof.
  unfold configure, DEFAULT_WIDTH, DEFAULT_HEIGHT, DEFAULT_MAX_ITER. simpl.
  repeat split; by match goal with
                   | |- context [?a <=? 0] => destruct (Z.leb_spec a 0)
                   end.
Qed.

Lemma configure_default : configure [] = (800, 600, 200).
Proof. reflexivity. Qed.

(** X22. The [int] expressions of the source are modelled in [Z].  As long
    as the size of the frame buffer, [3 * width * height], is an [int], so
    is every one of them: the pixel offsets of [map_pixel_to_complex], the index
    of [compute_rows], the end of a chunk and the offset and size of a
    copy. *)
Lemma int_expressions_in_range (width height startY n x y : Z) :
  0 < width → 0 < height → 3 * width * height ≤ INT_MAX →
  0 ≤ startY → 0 ≤ n → startY + n ≤ height →
  startY ≤ y < startY + n → 0 ≤ x < width →
  Forall (λ z, in_int_range z = true)
    [x - width ÷ 2; y - height ÷ 2; (y - startY) * width;
     (y - startY) * width + x; ((y - startY) * width + x) * 3 + 2;
     startY + CHUNK_SIZE; 3 * width; 3 * width * startY; 3 * width * n;
     3 * width * height].
Proof.
  intros Hw Hh Hmax Ha Hn Han Hy Hx.
  assert (Hb : ∀ z, 0 ≤ z ≤ 3 * width * height → in_int_range z = true).
  { intros z Hz. unfold in_int_range, INT_MIN, INT_MAX in *.
    apply andb_true_intro. split; apply Z.leb_le; lia. }
  assert (Hs : ∀ z, - INT_MAX ≤ z ≤ INT_MAX → in_int_range z = true).
  { intros z Hz. unfold in_int_range, INT_MIN, INT_MAX in *.
    apply andb_true_intro. split; apply Z.leb_le; lia. }
  assert (0 ≤ width ÷ 2 ≤ width)
    by (rewrite Z.quot_div_nonneg by lia; split;
        [apply Z.div_pos|apply Z.div_le_upper_bound]; lia).
  assert (0 ≤ height ÷ 2 ≤ height)
    by (rewrite Z.quot_div_nonneg by lia; split;
        [apply Z.div_pos|apply Z.div_le_upper_bound]; lia).
  assert (width ≤ width * height) by nia.
  assert (height ≤ width * height) by nia.
  assert (width * startY ≤ width * height) by nia.
  assert (0 ≤ width * startY) by nia.
  assert (width * n ≤ width * height) by nia.
  assert (0 ≤ width * n) by nia.
  assert (0 ≤ (y - startY) * width) by nia.
  assert ((y - startY) * width + width ≤ width * n) by nia.
  unfold CHUNK_SIZE, INT_MAX in *.
  repeat first [apply Forall_nil_2|apply Forall_cons_2];
    (apply Hs; lia) || (apply Hb; lia).
Qed.

(** ** The main loop *)

(** A line of standard input as [sscanf (line, "%lf %lf %lf", ...)] reads
    it: three numbers, or fewer. *)
Inductive line (D : Type) :=
  | Parsed (zoom centerX centerY : D)
  | Malformed.
Arguments Parsed {D} _ _ _.
Arguments Malformed {D}.

(** What a run leaves behind: the frames written to standard output (each
    the [P6] header's width and height and the [3·width·height] bytes), the
    number of "Invalid input line" diagnostics, and the exit code of every
    rank. *)
Record outcome := Outcome {
  frames : list (Z * Z * list Z);
  invalid_lines : nat;
  exit_codes : list Z
}.

Section MainLoop.
Context `{DoubleOps D}.
Variables (width height max_iter size : Z).

(** The [while (1)] loop of [main], all ranks together: rank 0 reads a
    line and broadcasts [zoom]; every rank leaves the loop when
    [zoom <= 0]; otherwise the frame is dispatched (the schedule says in
    which order the processes move) and written out.  The result is the
    frames ([printf] of the header, [fwrite] of [3 * width * height]
    bytes of [fullBuffer]) and the number of diagnostics. *)
Fixpoint main_loop (lines : list (line D)) (scheds : list (list actor))
    (fullBuffer0 : list Z) : option (list (Z * Z * list Z) * nat) :=
  match lines with
  | [] => Some ([], 0%nat)
  | Malformed :: _ => Some ([], 1%nat)
  | Parsed zoom centerX centerY :: rest =>
      if dleb zoom (of_int 0) then Some ([], 0%nat)
      else
        match scheds with
        | [] => None
        | sched :: scheds' =>
            '(s, _) ← exec zoom centerX centerY width height max_iter sched
                        (init_state size fullBuffer0);
            if frame_done s then
              '(fs, diags) ← main_loop rest scheds'
                                (fullBuffer (st_master s));
              let written :=
                take (Z.to_nat (3 * width * height)) (fullBuffer (st_master s)) in
              Some ((width, height, written) :: fs, diags)
            else None
        end
  end.

(** After the loop every rank frees what it holds, calls [MPI_Finalize]
    and returns 0. *)
Definition main (lines : list (line D)) (scheds : list (list actor))
    (fullBuffer0 : list Z) : option outcome :=
  '(fs, diags) ← main_loop lines scheds fullBuffer0;
  Some (Outcome fs diags (replicate (Z.to_nat size) 0)).

(** The views before the first line that ends the run. *)
Fixpoint views (lines : list (line D)) : list (D * D * D) :=
  match lines with
  | Parsed zoom centerX centerY :: rest =>
      if dleb zoom (of_int 0) then []
      else (zoom, centerX, centerY) :: views rest
  | _ => []
  end.

(** The run was ended by a line that did not parse. *)
Fixpoint ends_malformed (lines : list (line D)) : bool :=
  match lines with
  | [] => false
  | Malformed :: _ => true
  | Parsed zoom _ _ :: rest =>
      if dleb zoom (of_int 0) then false else ends_malformed rest
  end.

Definition rendering (v : D * D * D) : option (list Z) :=
  render_rows v.1.1 v.1.2 v.2 width height max_iter 0 height.

Hypothesis width_pos : 0 < width.
Hypothesis height_pos : 0 < height.

Lemma main_loop_frames (lines : list (line D)) :
  ∀ scheds buf fs diags,
    1 ≤ size → length buf = Z.to_nat (3 * width * height) →
    main_loop lines scheds buf = Some (fs, diags) →
    diags = (if ends_malformed lines then 1%nat else 0%nat)
    ∧ length fs = length (views lines)
    ∧ (2 ≤ size →
       Forall2 (λ v f, f.1 = (width, height) ∧ rendering v = Some f.2)
         (views lines) fs).
Proof.
  induction lines as [|[zoom centerX centerY|] rest IH];
    intros scheds buf fs diags Hsize Hlen; simpl.
  - intros [= <- <-]. by repeat split.
  - destruct (dleb zoom (of_int 0)); [intros [= <- <-]; by repeat split|].
    destruct scheds as [|sched scheds]; [done|].
    destruct (exec _ _ _ _ _ _ _ _) as [[s tr]|] eqn:Hexec; [simpl|done].
    destruct (frame_done s) eqn:Hdone; [|done].
    destruct (main_loop rest scheds _) as [[fs' diags']|] eqn:Hrest;
      [simpl|done].
    intros [= <- <-].
    assert (Hreach : reachable zoom centerX centerY width height max_iter
                       size buf tr s).
    { apply (exec_reachable zoom centerX centerY width height max_iter
               size buf sched [] (init_state size buf)); [constructor|done]. }
    assert (length (fullBuffer (st_master s))
            = Z.to_nat (3 * width * height)) as Hlen'.
    { destruct (reachable_inv zoom centerX centerY width height max_iter
                  width_pos height_pos size buf tr s)
        as (shs & _ & _ & Hinv); [done..|].
      apply (inv_length _ _ _ _ _ _ _ _ _ Hinv). }
    destruct (IH scheds _ fs' diags' Hsize Hlen' Hrest) as (Hd & Hl & Hf).
    split; [done|]. split; [simpl; by f_equal|].
    intros Hsize2. constructor; [|by apply Hf].
    split; [done|]. unfold rendering. simpl.
    rewrite take_ge by lia.
    by destruct (frame_buffer_final zoom centerX centerY width height max_iter
                   width_pos height_pos size buf tr s) as (? & _).
  - intros [= <- <-]. by repeat split.
Qed.

Lemma main_loop_runs (lines : list (line D)) :
  ∀ buf,
    1 ≤ size → length buf = Z.to_nat (3 * width * height) →
    Forall (λ v, is_Some (rendering v)) (views lines) →
    ∃ scheds out, main_loop lines scheds buf = Some out.
Proof.
  induction lines as [|[zoom centerX centerY|] rest IH];
    intros buf Hsize Hlen Hall; simpl.
  - by exists [], ([], 0%nat).
  - simpl in Hall. destruct (dleb zoom (of_int 0));
      [by exists [], ([], 0%nat)|].
    apply Forall_cons in Hall as [Hview Hall].
    destruct (frame_completes zoom centerX centerY width height max_iter
                width_pos height_pos size buf [] (init_state size buf))
      as (tr & s & Hreach & Hdone); [done..|constructor|].
    simpl in Hreach.
    destruct (reachable_exec zoom centerX centerY width height max_iter
                size buf tr s Hreach) as [sched Hsched].
    assert (length (fullBuffer (st_master s))
            = Z.to_nat (3 * width * height)) as Hlen'.
    { destruct (reachable_inv zoom centerX centerY width height max_iter
                  width_pos height_pos size buf tr s)
        as (shs & _ & _ & Hinv); [done..|].
      apply (inv_length _ _ _ _ _ _ _ _ _ Hinv). }
    destruct (IH _ Hsize Hlen' Hall) as (scheds & [fs diags] & Hrest).
    exists (sched :: scheds). rewrite Hsched. simpl. rewrite Hdone, Hrest.
    simpl. by eexists.
  - by exists [], ([], 1%nat).
Qed.

End MainLoop.

(** ** A single process *)

Section SingleProcess.
Context `{DoubleOps D}.

(** C4. With a single process ([size = 1]) there is no worker, the
    master's loop is not entered ([activeWorkers] is 0 from the start) and
    no step of the protocol is possible; for a view line the frame the
    master writes is the frame buffer as it was before, whatever the view:
    not a rendering. *)
Theorem single_process_frame (zoom centerX centerY : D)
    (width height max_iter : Z) (fullBuffer0 : list Z) :
  frame_done (init_state 1 fullBuffer0) = true
  ∧ (∀ a, step_by zoom centerX centerY width height max_iter a
            (init_state 1 fullBuffer0) = None)
  ∧ main width height max_iter 1 [Parsed zoom centerX centerY] [[]] fullBuffer0
    = Some (if dleb zoom (of_int 0) then Outcome [] 0 [0]
            else Outcome
                   [(width, height,
                     take (Z.to_nat (3 * width * height)) fullBuffer0)]
                   0 [0]).
Proof.
  split; [done|]. split; [by intros [[|w]|[|w]]|].
  unfold main. simpl. by destruct (dleb zoom (of_int 0)).
Qed.
End SingleProcess.

(** ** The model at work: binary64, a 2 × 12 raster *)

Module Demo.
#[local] Existing Instance Binary64.reference.

(** The view of the first scenario of the specification. *)
Definition zoom : float := 1%float.
Definition centerX : float := (-0.5)%float.
Definition centerY : float := 0%float.

(** One worker: request, chunk 0..9, chunk 10..11, sentinel. *)
Definition sched2 : list actor :=
  [WorkerAt 0; MasterFrom 0; WorkerAt 0; WorkerAt 0; MasterFrom 0;
   MasterFrom 0; WorkerAt 0; WorkerAt 0; MasterFrom 0; MasterFrom 0;
   WorkerAt 0; MasterFrom 0]%nat.

(** Two workers; the second chunk comes back before the first. *)
Definition sched3 : list actor :=
  [WorkerAt 0; WorkerAt 1; MasterFrom 1; MasterFrom 0; WorkerAt 0;
   WorkerAt 0; MasterFrom 0; WorkerAt 1; MasterFrom 0; WorkerAt 1;
   MasterFrom 1; MasterFrom 1; WorkerAt 0; WorkerAt 1; MasterFrom 1;
   MasterFrom 0]%nat.

Definition run2 : option (state * list event) :=
  exec zoom centerX centerY 2 12 50 sched2 (init_state 2 (replicate 72 0)).

Definition run3 : option (state * list event) :=
  exec zoom centerX centerY 2 12 50 sched3 (init_state 3 (replicate 72 255)).

Example kernel_origin_binary64 (log : float → float)
    (fmod : float → float → float) :
  @mandelbrot float (Binary64.ops log fmod) 0%float 0%float 200 = Some 200
  ∧ @iteration_to_color float (Binary64.ops log fmod) 200%float 200
    = Some (0, 0, 0).
Proof. split; vm_compute; reflexivity. Qed.

Example kernel_2_0_binary64 (log : float → float)
    (fmod : float → float → float) :
  @escape_loop float (Binary64.ops log fmod) 200 2%float 0%float 200
    0%float 0%float 0
  = (6%float, 0%float, 2).
Proof. vm_compute. reflexivity. Qed.

Example kernel_2_0_reference : mandelbrot 2%float 0%float 200 = Some 1.
Proof. vm_compute. reflexivity. Qed.

Example color_half_reference :
  iteration_to_color 100%float 200 = Some (0, 255, 255).
Proof. vm_compute. reflexivity. Qed.

Example chunk_reference :
  compute_rows zoom centerX centerY 0 3 4 3 50 (replicate 36 7)
  = Some [255; 30; 0; 255; 61; 0; 255; 122; 0; 255; 61; 0;
          255; 30; 0; 0; 0; 0; 0; 0; 0; 255; 153; 0;
          255; 30; 0; 255; 61; 0; 255; 122; 0; 255; 61; 0].
Proof. vm_compute. reflexivity. Qed.

(** Far from the origin [x*x + y*y] overflows to infinity, the smooth
    count is minus infinity and its conversion to [int] is undefined. *)
Example kernel_overflow_reference :
  escape_loop 200 0x1p600%float 0%float 200 0%float 0%float 0
  = (0x1p600%float, 0%float, 1)
  ∧ mandelbrot 0x1p600%float 0%float 200 = None.
Proof. split; vm_compute; reflexivity. Qed.

(** A single process writes the frame buffer it started with; two
    processes write the rendering of the view. *)
Example single_process_stale :
  main 2 12 50 1 [Parsed zoom centerX centerY] [[]] (replicate 72 255)
  = Some (Outcome [(2, 12, replicate 72 255)] 0 [0])
  ∧ (∃ out, main 2 12 50 2 [Parsed zoom centerX centerY] [sched2]
              (replicate 72 255) = Some out
            ∧ frames out ≠ [(2, 12, replicate 72 255)]).
Proof.
  split; [vm_compute; reflexivity|].
  eexists. split; [vm_compute; reflexivity|]. simpl. intros [=].
Qed.

Lemma run2_reachable (s : state) (tr : list event) :
  run2 = Some (s, tr) →
  reachable zoom centerX centerY 2 12 50 2 (replicate 72 0) tr s.
Proof.
  intros Hrun.
  apply (exec_reachable zoom centerX centerY 2 12 50 2 (replicate 72 0)
           sched2 [] (init_state 2 (replicate 72 0))); [constructor|done].
Qed.

Lemma run3_reachable (s : state) (tr : list event) :
  run3 = Some (s, tr) →
  reachable zoom centerX centerY 2 12 50 3 (replicate 72 255) tr s.
Proof.
  intros Hrun.
  apply (exec_reachable zoom centerX centerY 2 12 50 3 (replicate 72 255)
           sched3 [] (init_state 3 (replicate 72 255))); [constructor|done].
Qed.

Lemma dispatch_deterministic_witness :
  match run2, run3 with
  | Some (s1, _), Some (s2, _) =>
      frame_done s1 = true ∧ frame_done s2 = true
      ∧ fullBuffer (st_master s1) = fullBuffer (st_master s2)
  | _, _ => False
  end.
Proof.
  destruct run2 as [[s1 tr1]|] eqn:E1; [|by vm_compute in E1].
  destruct run3 as [[s2 tr2]|] eqn:E2; [|by vm_compute in E2].
  assert (frame_done s1 = true) as Hd1
    by (vm_compute in E1; by injection E1 as <- <-).
  assert (frame_done s2 = true) as Hd2
    by (vm_compute in E2; by injection E2 as <- <-).
  split; [done|]. split; [done|].
  eapply (dispatch_deterministic zoom centerX centerY 2 12 50);
    [lia|lia| | | | |exact (run2_reachable _ _ E1)|exact Hd1
    |exact (run3_reachable _ _ E2)|exact Hd2]; (lia || reflexivity).
Defined.

Lemma dispatch_covers_frame_witness :
  match run3 with
  | Some (s, tr) =>
      frame_done s = true
      ∧ tiles 12 12 (assigns tr)
      ∧ results tr ≡ₚ assigns tr
      ∧ length (filter (λ e, writes 2 40 e = true) tr) = 1%nat
      ∧ fullBuffer (st_master s) = foldl (copy 2) (replicate 72 255) tr
  | None => False
  end.
Proof.
  destruct run3 as [[s tr]|] eqn:E; [|by vm_compute in E].
  assert (frame_done s = true) as Hd
    by (vm_compute in E; by injection E as <- <-).
  split; [done|].
  destruct (dispatch_covers_frame zoom centerX centerY 2 12 50
              ltac:(lia) ltac:(lia) 3 (replicate 72 255) tr s
              ltac:(lia) ltac:(reflexivity) (run3_reachable _ _ E) Hd)
    as (Ht & _ & _ & Hp & Hw & Hbuf & _).
  split; [done|]. split; [done|]. split; [apply Hw; lia|exact Hbuf].
Defined.

Lemma compute_rows_pixels_witness :
  0 < 4 ∧ 0 < 3 ∧ 1 ≤ 3
  ∧ ∃ buf', compute_rows zoom centerX centerY 1 3 4 3 50 (replicate 24 7)
            = Some buf'
      ∧ length buf' = 24%nat.
Proof.
  split; [lia|]. split; [lia|]. split; [lia|].
  destruct (compute_rows zoom centerX centerY 1 3 4 3 50 (replicate 24 7))
    as [buf'|] eqn:E; [|by vm_compute in E].
  exists buf'. split; [done|].
  destruct (compute_rows_pixels zoom centerX centerY 4 3 50 1 3
              (replicate 24 7) ltac:(lia) ltac:(lia) ltac:(lia)
              ltac:(reflexivity)) as [_ Hb].
  destruct (Hb buf' E) as [Hl _]. exact Hl.
Defined.


Definition demo_lines : list (line float) :=
  [Parsed zoom centerX centerY; Malformed; Parsed zoom centerX centerY].

End Demo.

(** * Further properties of the code *)

(** ** The iteration bound *)

Section IterationBound.
Context `{DoubleOps D}.

(** X1. The loop of [mandelbrot] with a bound [m] is the loop with a larger
    bound [m'] cut at [m]: [iter] at the exit is the smaller of [m] and the
    [iter] of the larger bound.  A point that leaves the loop before the
    bound [m] leaves it at the same iteration under every larger bound, and
    [mandelbrot] returns the same for both. *)
Theorem mandelbrot_bound_stable (x0 y0 : D) (m m' : Z) :
  0 ≤ m ≤ m' →
  escape_iter x0 y0 m = Z.min m (escape_iter x0 y0 m')
  ∧ (escape_iter x0 y0 m < m →
     escape_iter x0 y0 m' = escape_iter x0 y0 m
     ∧ mandelbrot x0 y0 m' = mandelbrot x0 y0 m).
Proof.
  intros Hm.
  destruct (mandelbrot_cases x0 y0 m) as (j & Hj & Hin & Hcase); [lia|].
  destruct (mandelbrot_cases x0 y0 m') as (j' & Hj' & Hin' & Hcase'); [lia|].
  rewrite Hj, Hj'.
  assert (Hlt : Z.of_nat j < m → j' = j).
  { intros Hjm.
    destruct Hcase as [[Heq _]|(_ & Hout & _)]; [lia|].
    destruct (Nat.lt_trichotomy j j') as [Hlt|[->|Hlt]]; [|done|].
    - rewrite Hin' in Hout by done. done.
    - destruct Hcase' as [[Heq' _]|(_ & Hout' & _)]; [lia|].
      rewrite Hin in Hout' by done. done. }
  split.
  - destruct (decide (Z.of_nat j < m)) as [Hjm|Hjm].
    + rewrite (Hlt Hjm). lia.
    + destruct Hcase as [[Heq _]|(? & _)]; [|lia].
      enough (j ≤ j')%nat by lia.
      destruct (Nat.le_gt_cases j j') as [|Hgt]; [done|].
      destruct Hcase' as [[Heq' _]|(_ & Hout' & _)]; [lia|].
      rewrite Hin in Hout' by done. done.
  - intros Hjm. specialize (Hlt Hjm). subst j'. split; [done|].
    destruct Hcase as [[Heq _]|(_ & _ & ->)]; [lia|].
    destruct Hcase' as [[Heq' _]|(_ & _ & ->)]; [lia|]. done.
Qed.
End IterationBound.

(** *** The bound at [(2, 0)] *)

Module RealOrbit.
#[local] Existing Instance RealArith.ops.
Import RealKernel.
Local Open Scope R_scope.

Lemma mandelbrot_bound_stable_witness :
  (0 ≤ 3 ≤ 200)%Z ∧ escape_iter 2 0 3 = 3 `min` escape_iter 2 0 200.
Proof.
  split; [lia|]. apply (mandelbrot_bound_stable 2 0 3 200). lia.
Defined.

End RealOrbit.

(** ** Clamping a coordinate *)

Module RealView.
#[local] Existing Instance RealArith.ops.
Local Open Scope R_scope.

(** [static inline double clamp(double v, double min, double max)] *)
Definition clamp `{DoubleOps D} (v min max : D) : D :=
  if dltb v min then min else if dltb max v then max else v.



End RealView.

(** ** The row-chunk renderer and its buffer *)

Section ChunkBuffer.
Context `{DoubleOps D}.
Variables (zoom centerX centerY : D) (width height max_iter : Z).

Local Abbreviation pixel_step' :=
  (pixel_step zoom centerX centerY width height max_iter).

Lemma store_Some (buffer : list Z) (i v : Z) (buffer' : list Z) :
  store buffer i v = Some buffer' →
  length buffer' = length buffer ∧ 0 ≤ i < Z.of_nat (length buffer).
Proof.
  unfold store.
  destruct (Z.leb_spec 0 i), (Z.ltb_spec i (Z.of_nat (length buffer)));
    simpl; try done.
  intros [= <-]. by rewrite length_insert.
Qed.

(** A pixel that is written lies within the buffer. *)
Lemma pixel_step_Some (startY y x : Z) (buffer buffer' : list Z) :
  pixel_step' startY y x buffer = Some buffer' →
  length buffer' = length buffer
  ∧ 0 ≤ ((y - startY) * width + x) * 3
  ∧ ((y - startY) * width + x) * 3 + 2 < Z.of_nat (length buffer).
Proof.
  unfold pixel_step.
  destruct (mandelbrot _ _ _) as [it|]; [simpl|done].
  destruct (iteration_to_color _ _) as [[[r g] b]|]; [simpl|done].
  destruct (store buffer _ r) as [b1|] eqn:H1; [simpl|done].
  destruct (store b1 _ g) as [b2|] eqn:H2; [simpl|done].
  intros H3.
  apply store_Some in H1 as [L1 ?], H2 as [L2 ?], H3 as [L3 ?].
  rewrite L3, L2, L1 in *. lia.
Qed.

(** A loop whose body keeps the length of the buffer keeps it, and every
    iteration saw a buffer of that length. *)
Lemma for_each_Some (P : Z → nat → Prop) (body : Z → list Z → option (list Z))
    (l : list Z) :
  (∀ i s s', body i s = Some s' → length s' = length s ∧ P i (length s)) →
  ∀ s s', for_each l body s = Some s' →
    length s' = length s ∧ Forall (λ i, P i (length s)) l.
Proof.
  intros Hbody. induction l as [|i l IH]; intros s s'; simpl.
  - intros [= <-]. by split.
  - destruct (body i s) as [s1|] eqn:H1; [simpl|done].
    intros H2. apply Hbody in H1 as [L1 HP].
    apply IH in H2 as [L2 Hall]. rewrite L1 in *.
    split; [done|]. by constructor.
Qed.

Lemma to_uchar_range (d : D) (z : Z) :
  to_uchar d = Some z → 0 ≤ z ≤ UCHAR_MAX.
Proof.
  unfold to_uchar. destruct (trunc d) as [t|]; [simpl|done].
  unfold in_uchar_range.
  destruct (Z.leb_spec 0 t), (Z.leb_spec t UCHAR_MAX); simpl; try done.
  intros [= <-]. lia.
Qed.

Lemma iteration_to_color_range (iter : D) (r g b : Z) :
  iteration_to_color iter max_iter = Some (r, g, b) →
  Forall (λ z, 0 ≤ z ≤ UCHAR_MAX) [r; g; b].
Proof.
  unfold iteration_to_color.
  destruct (dleb _ _).
  { intros [= <- <- <-]. unfold UCHAR_MAX.
    repeat first [apply Forall_nil_2|apply Forall_cons_2]; lia. }
  destruct (hsv_select _ _ _) as [[r0 g0] b0].
  destruct (to_uchar (dmul (dadd r0 _) _)) as [r'|] eqn:Hr; [simpl|done].
  destruct (to_uchar (dmul (dadd g0 _) _)) as [g'|] eqn:Hg; [simpl|done].
  destruct (to_uchar (dmul (dadd b0 _) _)) as [b'|] eqn:Hb; [simpl|done].
  intros [= <- <- <-].
  apply to_uchar_range in Hr, Hg, Hb.
  by repeat first [apply Forall_nil_2|apply Forall_cons_2].
Qed.

Lemma render_rows_range (startY endY : Z) (rows : list Z) :
  render_rows zoom centerX centerY width height max_iter startY endY
  = Some rows →
  Forall (λ z, 0 ≤ z ≤ UCHAR_MAX) rows.
Proof.
  intros (rs & -> & _ & _ & Hrs)%render_rows_rows.
  apply Forall_forall. intros z Hz.
  apply list_elem_of_join in Hz as (row & Hz & Hrow).
  apply list_elem_of_lookup in Hrow as [i Hi].
  apply Hrs in Hi. unfold render_row in Hi.
  destruct (mapM _ _) as [bss|] eqn:Hbss; [|done].
  injection Hi as <-. apply mapM_Some in Hbss.
  apply list_elem_of_join in Hz as (bs & Hz & Hbs).
  apply list_elem_of_lookup in Hbs as [k Hk].
  destruct (Forall2_lookup_r _ _ _ _ _ Hbss Hk) as (x & _ & Hpx).
  unfold pixel_bytes, pixel_color in Hpx.
  destruct (mandelbrot _ _ _) as [it|]; [simpl in Hpx|done].
  destruct (iteration_to_color _ _) as [[[r g] b]|] eqn:Hc; [|done].
  injection Hpx as <-. apply iteration_to_color_range in Hc.
  by apply (proj1 (Forall_forall _ _) Hc).
Qed.

(** X10. [compute_rows] writes the first [3·width·(endY − startY)] bytes
    of its buffer and nothing else: they become the rendering of the rows
    [[startY, endY)], whatever they held before, each of them an
    [unsigned char] in [0..255], for any arithmetic of [double]; and the
    bytes behind them are left as they were. *)
Theorem compute_rows_frame (startY endY : Z) (chunk rest : list Z) :
  0 ≤ width → startY ≤ endY →
  length chunk = Z.to_nat (3 * width * (endY - startY)) →
  compute_rows zoom centerX centerY startY endY width height max_iter
    (chunk ++ rest)
  = (rows ← render_rows zoom centerX centerY width height max_iter
              startY endY;
     Some (rows ++ rest))
  ∧ ∀ buffer',
      compute_rows zoom centerX centerY startY endY width height max_iter
        (chunk ++ rest) = Some buffer' →
      Forall (λ z, 0 ≤ z ≤ 255) (take (length chunk) buffer')
      ∧ drop (length chunk) buffer' = rest.
Proof.
  intros Hw Hy Hlen.
  assert (Hrun :
    compute_rows zoom centerX centerY startY endY width height max_iter
      (chunk ++ rest)
    = rows ← render_rows zoom centerX centerY width height max_iter
               startY endY;
      Some (rows ++ rest)).
  { rewrite compute_rows_unfold.
    unfold for_range at 1. unfold render_rows.
    replace (endY - startY) with (Z.of_nat (Z.to_nat (endY - startY))) by lia.
    pose proof (rows_loop_spec zoom centerX centerY width height max_iter
                  startY (Z.to_nat (endY - startY)) startY [] chunk rest Hw)
      as Hloop.
    change ([] ++ chunk ++ rest) with (chunk ++ rest) in Hloop.
    rewrite Hloop; [|nia|simpl; lia].
    by destruct (mapM _ _). }
  split; [done|]. intros buffer'. rewrite Hrun.
  destruct (render_rows zoom centerX centerY width height max_iter
              startY endY) as [rows|] eqn:Hrows; [simpl|done].
  intros [= <-].
  pose proof (render_rows_length _ _ _ _ _ _ _ _ _ Hw Hy Hrows) as Hl.
  rewrite <- Hlen in Hl.
  rewrite take_app_length', drop_app_length' by done.
  split; [|done]. by apply render_rows_range in Hrows.
Qed.

(** A chunk of one row. *)
Lemma compute_rows_row (y : Z) (buffer : list Z) :
  0 ≤ width → length buffer = Z.to_nat (3 * width) →
  compute_rows zoom centerX centerY y (y + 1) width height max_iter buffer
  = render_row zoom centerX centerY width height max_iter y.
Proof.
  intros Hw Hlen.
  rewrite compute_rows_render by (lia || (rewrite Hlen; f_equal; lia)).
  rewrite render_rows_unfold.
  replace (y + 1 - y) with 1 by lia.
  change (seqZ y 1) with [y]. simpl.
  destruct (render_row _ _ _ _ _ _ y) as [row|]; [simpl|done].
  by rewrite app_nil_r.
Qed.

(** X11. A call of [compute_rows] that returns has kept the length of
    its buffer, and the buffer had room for the chunk: with fewer than
    [3·width·(endY − startY)] bytes a store leaves the buffer and the call
    is undefined. *)
Theorem compute_rows_room (startY endY : Z) (buffer buffer' : list Z) :
  compute_rows zoom centerX centerY startY endY width height max_iter buffer
  = Some buffer' →
  length buffer' = length buffer
  ∧ (0 < width → startY < endY →
     3 * width * (endY - startY) ≤ Z.of_nat (length buffer)).
Proof.
  rewrite compute_rows_unfold. unfold for_range at 1. intros Hrun.
  apply (for_each_Some
           (λ y n, ∀ x, 0 ≤ x < width →
                        ((y - startY) * width + x) * 3 + 2 < Z.of_nat n))
    in Hrun as [Hlen Hall].
  - split; [done|]. intros Hw Hy.
    rewrite Forall_forall in Hall.
    specialize (Hall (endY - 1)
                  ltac:(apply elem_of_seqZ; lia) (width - 1) ltac:(lia)).
    nia.
  - intros y s s' Hrow. unfold for_range in Hrow.
    apply (for_each_Some
             (λ x n, ((y - startY) * width + x) * 3 + 2 < Z.of_nat n))
      in Hrow as [Hlen Hall].
    + split; [done|]. intros x Hx. rewrite Forall_forall in Hall.
      apply Hall, elem_of_seqZ. lia.
    + intros x b b' Hpx. apply pixel_step_Some in Hpx. split; lia.
Qed.

Lemma for_each_skip (l : list Z) (buffer : list Z) :
  for_each l (λ _ b, Some b) buffer = Some buffer.
Proof. induction l as [|i l IH]; [done|]. simpl. apply IH. Qed.

(** X12. A chunk without rows, or rows without pixels: when
    [endY ≤ startY] or [width ≤ 0], [compute_rows] returns with the buffer
    untouched, whatever its length, and the kernel is not called (the view
    does not matter). *)
Theorem compute_rows_empty (startY endY : Z) (buffer : list Z) :
  endY ≤ startY ∨ width ≤ 0 →
  compute_rows zoom centerX centerY startY endY width height max_iter buffer
  = Some buffer.
Proof.
  intros Hempty. rewrite compute_rows_unfold. unfold for_range at 1.
  destruct (decide (endY ≤ startY)) as [Hy|Hy].
  - by rewrite seqZ_nil by lia.
  - destruct Hempty as [?|Hw]; [lia|].
    unfold for_range. rewrite (seqZ_nil 0) by lia. simpl.
    apply for_each_skip.
Qed.

(** X13. Rendering a chunk is rendering its two parts: for
    [a ≤ b ≤ c], [compute_rows] on the rows [[a, c)] gives the bytes of
    [compute_rows] on [[a, b)] followed by those of [compute_rows] on
    [[b, c)], each run on a buffer of the size of its rows; so the bytes of
    a row do not depend on the chunk it is rendered in. *)
Theorem compute_rows_split (a b c : Z) (whole part1 part2 : list Z) :
  0 ≤ width → a ≤ b ≤ c →
  length whole = Z.to_nat (3 * width * (c - a)) →
  length part1 = Z.to_nat (3 * width * (b - a)) →
  length part2 = Z.to_nat (3 * width * (c - b)) →
  compute_rows zoom centerX centerY a c width height max_iter whole
  = l1 ← compute_rows zoom centerX centerY a b width height max_iter part1;
    l2 ← compute_rows zoom centerX centerY b c width height max_iter part2;
    Some (l1 ++ l2).
Proof.
  intros Hw Habc Hl Hl1 Hl2.
  rewrite !compute_rows_render by (done || lia).
  by apply render_rows_app.
Qed.

End ChunkBuffer.

(** ** The dispatch loop, continued *)

(** The sentinels, the tag-4 messages and the retirements of one worker in
    a trace. *)
Definition is_sentinel (w : nat) (e : event) : bool :=
  match e with EvSentinel w' => bool_decide (w' = w) | _ => false end.

Definition is_done (w : nat) (e : event) : bool :=
  match e with EvDone w' => bool_decide (w' = w) | _ => false end.

Definition is_retire (w : nat) (e : event) : bool :=
  match e with EvRetire w' => bool_decide (w' = w) | _ => false end.

Definition count (p : event → bool) (tr : list event) : nat :=
  length (filter (λ e, p e = true) tr).

(** How far a worker in a given shape is on its way out of the frame:
    sentinels received from the master, tag-4 messages sent, retirements. *)
Definition phase (sh : shape) : nat * nat * nat :=
  match sh with
  | Draining => (1, 0, 0)
  | Leaving => (1, 1, 0)
  | Retired => (1, 1, 1)
  | _ => (0, 0, 0)
  end%nat.

Definition signals (w : nat) (tr : list event) : nat * nat * nat :=
  (count (is_sentinel w) tr, count (is_done w) tr, count (is_retire w) tr).

Lemma count_snoc (p : event → bool) (tr : list event) (e : event) :
  count p (tr ++ [e]) = (count p tr + if p e then 1 else 0)%nat.
Proof.
  unfold count. rewrite filter_app, length_app. f_equal.
  rewrite filter_cons, filter_nil. by destruct (p e); simpl.
Qed.

Lemma retired_realize (shs : list shape) :
  Forall (λ sh, sh = Retired) shs →
  realize <$> shs = replicate (length shs) (Worker Finished [] []).
Proof. induction 1 as [|sh shs -> _ IH]; [done|]. simpl. by f_equal. Qed.

Lemma retired_owed (shs : list shape) :
  Forall (λ sh, sh = Retired) shs →
  length (shs ≫= λ sh, replicate (owed sh) ()) = 0%nat.
Proof. induction 1 as [|sh shs -> _ IH]; [done|]. by rewrite bind_cons. Qed.

Lemma active_length (shs : list shape) :
  (length (shs ≫= active) ≤ length shs)%nat.
Proof.
  induction shs as [|sh shs IH]; [done|].
  rewrite bind_cons, length_app. destruct sh; simpl; lia.
Qed.

(** The chunks by which the cursor went are the chunks of [CHUNK_SIZE]
    rows in their order. *)
Lemma tiles_lookup (height r : Z) (l : list (Z * Z)) :
  0 < height → tiles height r l →
  r = Z.min height (CHUNK_SIZE * Z.of_nat (length l))
  ∧ Z.of_nat (length l) + chunks_left height r = chunks_left height 0
  ∧ ∀ (i : nat) a n, l !! i = Some (a, n) →
      a = CHUNK_SIZE * Z.of_nat i ∧ a < height
      ∧ n = Z.min CHUNK_SIZE (height - a).
Proof.
  intros Hh. induction 1 as [|r l Ht (Hr & Hc & Hl) Hlt].
  - split; [unfold CHUNK_SIZE; simpl; lia|]. split; [simpl; lia|].
    intros i a n Hi. by rewrite lookup_nil in Hi.
  - pose proof (tiles_range height r l ltac:(lia) Ht) as Hrange.
    assert (Hrl : r = CHUNK_SIZE * Z.of_nat (length l))
      by (unfold CHUNK_SIZE in *; lia).
    rewrite length_app. simpl length.
    split; [unfold CHUNK_SIZE in *; lia|].
    split.
    { rewrite chunks_left_advance by lia. lia. }
    intros i a n Hi.
    destruct (decide (i < length l)%nat) as [Hil|Hil].
    + rewrite lookup_app_l in Hi by done. by apply Hl.
    + rewrite lookup_app_r in Hi by lia.
      destruct (i - length l)%nat as [|k] eqn:Hk; [|done].
      injection Hi as <- <-.
      assert (i = length l) as -> by lia. done.
Qed.

Section Protocol.
Context `{DoubleOps D}.
Variables (zoom centerX centerY : D) (width height max_iter : Z).
Hypothesis width_pos : 0 < width.
Hypothesis height_pos : 0 < height.

Local Abbreviation render_row :=
  (render_row zoom centerX centerY width height max_iter).
Local Abbreviation render_rows :=
  (render_rows zoom centerX centerY width height max_iter).
Local Abbreviation reachable :=
  (reachable zoom centerX centerY width height max_iter).
Local Abbreviation step_by :=
  (step_by zoom centerX centerY width height max_iter).
Local Abbreviation inv :=
  (inv zoom centerX centerY width height max_iter).

(** A reachable state, on shapes. *)
Lemma reachable_shapes (size : Z) (buf : list Z) (tr : list event) (s : state) :
  1 ≤ size → length buf = Z.to_nat (3 * width * height) →
  reachable size buf tr s →
  ∃ shs, s = State (st_master s) (realize <$> shs)
    ∧ length shs = Z.to_nat (size - 1)
    ∧ inv tr (st_master s) shs.
Proof.
  intros Hsize Hlen Hreach.
  destruct (reachable_inv zoom centerX centerY width height max_iter
              width_pos height_pos size buf tr s Hsize Hlen Hreach)
    as (shs & Hw & Hl & Hinv).
  exists shs. split; [|done]. destruct s as [m ws]. simpl in *. by subst.
Qed.

Lemma done_retired (tr : list event) (m : master) (shs : list shape) :
  inv tr m shs → activeWorkers m ≤ 0 → Forall (λ sh, sh = Retired) shs.
Proof.
  intros Hinv Hact. apply Forall_forall. intros sh Hsh.
  by eapply inv_all_retired.
Qed.

(** X14. No deadlock and no step too many: in a reachable state of a
    frame that can be rendered, no process can move exactly when the
    master has left its loop.  As long as the master waits for a worker,
    some send or receive is enabled; once it has left, every worker has
    left its loop too. *)
Theorem dispatch_stuck_iff_done (size : Z) (buf : list Z) (tr : list event)
    (s : state) :
  1 ≤ size → length buf = Z.to_nat (3 * width * height) →
  is_Some (render_rows 0 height) →
  reachable size buf tr s →
  frame_done s = true ↔ ∀ a, step_by a s = None.
Proof.
  intros Hsize Hlen Hframe Hreach.
  destruct (reachable_shapes size buf tr s Hsize Hlen Hreach)
    as (shs & Hs & Hl & Hinv).
  rewrite frame_done_spec. split.
  - intros Hdone [w|w]; rewrite Hs; simpl.
    + unfold master_step. simpl.
      by destruct (Z.gtb_spec (activeWorkers (st_master s)) 0); [lia|].
    + unfold worker_step. simpl. rewrite list_lookup_fmap.
      destruct (shs !! w) as [sh|] eqn:Hsh; [simpl|done].
      pose proof (done_retired tr _ shs Hinv Hdone) as Hall.
      by rewrite (Forall_lookup_1 _ _ _ _ Hall Hsh).
  - intros Hstuck.
    destruct (decide (activeWorkers (st_master s) ≤ 0)) as [|Hact]; [done|].
    destruct (inv_progress zoom centerX centerY width height max_iter
                width_pos height_pos tr (st_master s) shs Hinv
                ltac:(lia) Hframe) as (e & m' & shs' & Hastep).
    destruct (astep_step_by zoom centerX centerY width height max_iter
                _ _ _ _ _
                (inv_chunk_start_ok zoom centerX centerY width height
                   max_iter height_pos tr _ shs Hinv) Hastep) as [a Ha].
    rewrite <- Hs in Ha. by rewrite Hstuck in Ha.
Qed.

(** X15. The work of a frame does not depend on the schedule: when the
    master leaves its loop, with at least one worker, the processes have
    made four steps for each of the [⌈height / CHUNK_SIZE⌉] chunks and four
    for each worker; there was one assignment for each chunk, and the
    [i]-th assignment, whoever got it, is the chunk that starts at row
    [CHUNK_SIZE · i]. *)
Theorem dispatch_work (size : Z) (buf : list Z) (tr : list event)
    (s : state) :
  2 ≤ size → length buf = Z.to_nat (3 * width * height) →
  reachable size buf tr s → frame_done s = true →
  Z.of_nat (length tr)
  = 4 * ((height + CHUNK_SIZE - 1) / CHUNK_SIZE) + 4 * (size - 1)
  ∧ Z.of_nat (length (assigns tr)) = (height + CHUNK_SIZE - 1) / CHUNK_SIZE
  ∧ ∀ (i : nat) a n, assigns tr !! i = Some (a, n) →
      a = CHUNK_SIZE * Z.of_nat i ∧ n = Z.min CHUNK_SIZE (height - a).
Proof.
  intros Hsize Hlen Hreach Hdone%frame_done_spec.
  destruct (frame_steps zoom centerX centerY width height max_iter
              width_pos height_pos size buf tr s ltac:(lia) Hlen Hreach)
    as (shs & Hw & Hinv & Hsteps).
  destruct (reachable_shapes size buf tr s ltac:(lia) Hlen Hreach)
    as (shs2 & Hs2 & Hl2 & _).
  assert (length shs = Z.to_nat (size - 1)) as Hl.
  { rewrite <- Hl2, <- (length_fmap realize shs), <- Hw, Hs2. simpl.
    by rewrite length_fmap. }
  pose proof (done_retired tr _ shs Hinv Hdone) as Hall.
  destruct (inv_final zoom centerX centerY width height max_iter
              width_pos height_pos tr _ shs Hinv Hdone ltac:(lia))
    as (Hnext & _ & _).
  pose proof (inv_tiles _ _ _ _ _ _ _ _ _ Hinv) as Ht. rewrite Hnext in Ht.
  destruct (tiles_lookup height height _ height_pos Ht) as (_ & Hc & Hi).
  assert (chunks_left height height = 0) as Hz.
  { unfold chunks_left, CHUNK_SIZE.
    replace (height - height + 10 - 1) with 9 by lia. done. }
  assert (chunks_left height 0 = (height + CHUNK_SIZE - 1) / CHUNK_SIZE) as H0.
  { unfold chunks_left. f_equal. lia. }
  unfold steps_left in Hsteps.
  rewrite Hnext, Hz, (retired_owed shs Hall) in Hsteps.
  rewrite <- H0. split; [lia|]. split; [lia|].
  intros i a n Hin. by destruct (Hi i a n Hin) as (-> & _ & ->).
Qed.

(** X16. When the master leaves its loop nothing is left over: every
    worker has left its own loop, with no message in either of its queues,
    [activeWorkers] is 0, and with at least one worker the cursor stands
    at [height].  The next frame starts from processes as [init_state]
    has them. *)
Theorem dispatch_final_state (size : Z) (buf : list Z) (tr : list event)
    (s : state) :
  1 ≤ size → length buf = Z.to_nat (3 * width * height) →
  reachable size buf tr s → frame_done s = true →
  st_workers s = replicate (Z.to_nat (size - 1)) (Worker Finished [] [])
  ∧ activeWorkers (st_master s) = 0
  ∧ (2 ≤ size → nextRow (st_master s) = height).
Proof.
  intros Hsize Hlen Hreach Hdone%frame_done_spec.
  destruct (reachable_shapes size buf tr s Hsize Hlen Hreach)
    as (shs & Hs & Hl & Hinv).
  pose proof (done_retired tr _ shs Hinv Hdone) as Hall.
  split; [rewrite Hs; simpl; by rewrite retired_realize, Hl|].
  split.
  - pose proof (inv_active _ _ _ _ _ _ _ _ _ Hinv). lia.
  - intros Hsize2.
    by destruct (inv_final zoom centerX centerY width height max_iter
                   width_pos height_pos tr _ shs Hinv Hdone ltac:(lia))
      as (Hnext & _ & _).
Qed.

(** X17. The state of a frame is bounded: in every reachable state there
    are [size − 1] workers, each with at most two integers waiting in its
    inbox and at most four messages waiting in its outbox (a result of
    three messages and the next request); [activeWorkers] lies between 0
    and [size − 1] and the cursor between 0 and [height]. *)
Theorem dispatch_bounded_state (size : Z) (buf : list Z) (tr : list event)
    (s : state) :
  1 ≤ size → length buf = Z.to_nat (3 * width * height) →
  reachable size buf tr s →
  length (st_workers s) = Z.to_nat (size - 1)
  ∧ Forall (λ wk, (length (inbox wk) ≤ 2)%nat ∧ (length (outbox wk) ≤ 4)%nat)
      (st_workers s)
  ∧ 0 ≤ activeWorkers (st_master s) ≤ size - 1
  ∧ 0 ≤ nextRow (st_master s) ≤ height.
Proof.
  intros Hsize Hlen Hreach.
  destruct (reachable_shapes size buf tr s Hsize Hlen Hreach)
    as (shs & Hs & Hl & Hinv).
  split; [rewrite Hs; simpl; by rewrite length_fmap|].
  split.
  { rewrite Hs. simpl. apply Forall_fmap, Forall_forall. intros sh _.
    destruct sh as [[[[??]?]|]|[[[??]?]|]| | | |]; simpl; lia. }
  split.
  - pose proof (inv_active _ _ _ _ _ _ _ _ _ Hinv).
    pose proof (active_length shs). lia.
  - apply (tiles_range height _ (assigns tr)); [lia|].
    apply (inv_tiles _ _ _ _ _ _ _ _ _ Hinv).
Qed.

(** The signals of every worker are those of its shape. *)
Lemma reachable_phase (size : Z) (buf : list Z) (tr : list event) (s : state) :
  1 ≤ size → length buf = Z.to_nat (3 * width * height) →
  reachable size buf tr s →
  ∃ shs, st_workers s = realize <$> shs
    ∧ length shs = Z.to_nat (size - 1)
    ∧ inv tr (st_master s) shs
    ∧ (∀ w sh, shs !! w = Some sh → signals w tr = phase sh)
    ∧ (∀ w, shs !! w = None → signals w tr = (0, 0, 0)%nat).
Proof.
  intros Hsize Hlen Hreach.
  induction Hreach as [|tr s a s' e Hreach (shs & Hw & Hl & Hinv & Hph & Hno)
                       Hstep].
  - exists (replicate (Z.to_nat (size - 1)) (Idle None)). simpl.
    split; [by rewrite fmap_replicate|].
    split; [by rewrite length_replicate|].
    split; [by apply inv_init|].
    split; [|done].
    intros w sh [-> _]%lookup_replicate. done.
  - destruct s as [m ws]. simpl in *. subst ws.
    destruct (step_by_astep zoom centerX centerY width height max_iter
                a m shs s' e) as (m' & shs' & -> & Hastep);
      [by eapply inv_chunk_start_ok|done|].
    exists shs'. simpl. split; [done|].
    split; [by rewrite (astep_length _ _ _ _ _ _ _ _ _ _ _ Hastep)|].
    split; [by eapply inv_step|].
    assert (Hsig : ∀ w, signals w (tr ++ [e])
              = (((signals w tr).1.1 + if is_sentinel w e then 1 else 0)%nat,
                 ((signals w tr).1.2 + if is_done w e then 1 else 0)%nat,
                 ((signals w tr).2 + if is_retire w e then 1 else 0)%nat)).
    { intros w. unfold signals. by rewrite !count_snoc. }
    assert (Hupd : ∀ w0 sh0 sh0',
              shs !! w0 = Some sh0 →
              (∀ w, signals w (tr ++ [e])
                    = if decide (w = w0) then phase sh0' else signals w tr) →
              (∀ w sh, <[w0 := sh0']> shs !! w = Some sh →
                       signals w (tr ++ [e]) = phase sh)
              ∧ (∀ w, <[w0 := sh0']> shs !! w = None →
                      signals w (tr ++ [e]) = (0, 0, 0)%nat)).
    { intros w0 sh0 sh0' Hsh0 He. split.
      - intros w sh Hsh. rewrite He.
        destruct (decide (w = w0)) as [->|Hne].
        + rewrite list_lookup_insert_eq in Hsh
            by (by eapply lookup_lt_Some). by injection Hsh as <-.
        + rewrite list_lookup_insert_ne in Hsh by done. by apply Hph.
      - intros w Hnone. rewrite He.
        destruct (decide (w = w0)) as [->|Hne].
        + apply lookup_ge_None in Hnone. rewrite length_insert in Hnone.
          apply lookup_lt_Some in Hsh0. lia.
        + rewrite list_lookup_insert_ne in Hnone by done. by apply Hno. }
    destruct Hastep as
      [w0 res Hsh|w0 Hsh Hact Hlt n|w0 Hsh Hact Hge|w0 a0 n data Hsh Hdata
      |w0 a0 n data buf0 Hsh Hact Hbuf|w0 a0 n data buf0 Hsh Hact Hbuf
      |w0 Hsh|w0 Hsh Hact];
      (eapply Hupd; [exact Hsh|]); intros w; rewrite Hsig; simpl;
      rewrite ?Nat.add_0_r;
      pose proof (Hph _ _ Hsh) as Hw0; simpl in Hw0;
      destruct (decide (w = w0)) as [->|Hne];
      rewrite ?bool_decide_eq_true_2, ?bool_decide_eq_false_2 by congruence;
      rewrite ?Nat.add_0_r; unfold signals in *;
      try destruct res as [[[??]?]|]; simpl in Hw0;
      first [done|by injection Hw0 as -> -> ->].
Qed.

(** X18. Every worker is told once that the rows are used up and answers
    once: in every reachable state a worker has received at most one
    sentinel, has sent a tag-4 message only after a sentinel and at most
    once, and has been counted out by the master only after that message
    and at most once; when the master leaves its loop each of the three
    has happened exactly once for every worker, and never for a rank that
    does not exist. *)
Theorem worker_signals (size : Z) (buf : list Z) (tr : list event)
    (s : state) (w : nat) :
  1 ≤ size → length buf = Z.to_nat (3 * width * height) →
  reachable size buf tr s →
  (count (is_retire w) tr ≤ count (is_done w) tr
   ≤ count (is_sentinel w) tr)%nat
  ∧ (count (is_sentinel w) tr ≤ 1)%nat
  ∧ (frame_done s = true →
     signals w tr
     = if decide (Z.of_nat w < size - 1) then (1, 1, 1)%nat
       else (0, 0, 0)%nat).
Proof.
  intros Hsize Hlen Hreach.
  destruct (reachable_phase size buf tr s Hsize Hlen Hreach)
    as (shs & Hw & Hl & Hinv & Hph & Hno).
  destruct (shs !! w) as [sh|] eqn:Hsh.
  - pose proof (Hph w sh Hsh) as Hsig. unfold signals in Hsig.
    pose proof (lookup_lt_Some _ _ _ Hsh) as Hlt.
    split; [destruct sh; injection Hsig as H1 H2 H3; lia|].
    split; [destruct sh; injection Hsig as H1 H2 H3; lia|].
    intros Hdone%frame_done_spec.
    pose proof (done_retired tr _ shs Hinv Hdone) as Hall.
    rewrite (Forall_lookup_1 _ _ _ _ Hall Hsh) in Hsig.
    unfold signals. rewrite Hsig. simpl.
    by destruct (decide (Z.of_nat w < size - 1)); [|lia].
  - pose proof (Hno w Hsh) as Hsig. unfold signals in Hsig.
    apply lookup_ge_None in Hsh.
    injection Hsig as H1 H2 H3.
    split; [lia|]. split; [lia|]. intros _. unfold signals.
    rewrite H1, H2, H3.
    by destruct (decide (Z.of_nat w < size - 1)); [lia|].
Qed.

(** X19. A chunk the master has copied stays: in every reachable state,
    each row of each result copied so far lies within the frame and holds,
    in the frame buffer, the bytes [compute_rows] yields for that row; no
    later step changes it. *)
Theorem copied_rows_rendered (size : Z) (buf : list Z) (tr : list event)
    (s : state) (w : nat) (a n : Z) (data : list Z) (y : Z) :
  1 ≤ size → length buf = Z.to_nat (3 * width * height) →
  reachable size buf tr s →
  EvResult w a n data ∈ tr → a ≤ y < a + n →
  0 ≤ y < height
  ∧ compute_rows zoom centerX centerY y (y + 1) width height max_iter
      (replicate (Z.to_nat (3 * width)) 0)
    = Some (row_of width (fullBuffer (st_master s)) y).
Proof.
  intros Hsize Hlen Hreach He Hy.
  destruct (reachable_shapes size buf tr s Hsize Hlen Hreach)
    as (shs & Hs & Hl & Hinv).
  assert (Hres : (a, n) ∈ results tr).
  { unfold results. apply list_elem_of_bind. exists (EvResult w a n data).
    split; [by apply list_elem_of_singleton|done]. }
  assert (Hin : (a, n) ∈ assigns tr).
  { rewrite (inv_flight _ _ _ _ _ _ _ _ _ Hinv).
    apply elem_of_app. by left. }
  destruct (tiles_chunk height _ _ a n ltac:(lia)
              (inv_tiles _ _ _ _ _ _ _ _ _ Hinv) Hin) as (Ha & Hn & Han).
  split; [lia|].
  rewrite compute_rows_row by (lia || by rewrite length_replicate).
  apply (inv_rows _ _ _ _ _ _ _ _ _ Hinv y (a, n)); [lia|done|].
  unfold covers. simpl.
  apply andb_true_intro. split; [apply Z.leb_le|apply Z.ltb_lt]; lia.
Qed.
End Protocol.

(** ** The configuration and the frames of a run *)

(** X20. The configuration [main] computes from the command line, place
    by place and for every command line: the width is [argv[1]] when that
    is given and positive and [DEFAULT_WIDTH] otherwise, whatever the other
    arguments are; likewise the height with [argv[2]] and the iteration
    bound with [argv[3]].  Hence the configuration is always positive,
    arguments beyond the third are ignored, and configuring again with a
    configuration returns it. *)
Theorem configure_valid (args : list Z) :
  (configure args).1.1
    = match args !! 0%nat with
      | Some w => if decide (0 < w) then w else DEFAULT_WIDTH
      | None => DEFAULT_WIDTH
      end
  ∧ (configure args).1.2
    = match args !! 1%nat with
      | Some h => if decide (0 < h) then h else DEFAULT_HEIGHT
      | None => DEFAULT_HEIGHT
      end
  ∧ (configure args).2
    = match args !! 2%nat with
      | Some m => if decide (0 < m) then m else DEFAULT_MAX_ITER
      | None => DEFAULT_MAX_ITER
      end
  ∧ (0 < (configure args).1.1 ∧ 0 < (configure args).1.2
     ∧ 0 < (configure args).2)
  ∧ configure (take 3 args) = configure args
  ∧ configure [(configure args).1.1; (configure args).1.2; (configure args).2]
    = configure args.
Proof.
  assert (Hplace : ∀ d (o : option Z),
            (if default d o <=? 0 then d else default d o)
            = match o with
              | Some v => if decide (0 < v) then v else d
              | None => d
              end).
  { intros d [v|]; simpl.
    - destruct (Z.leb_spec v 0), (decide (0 < v)); (done || lia).
    - by destruct (d <=? 0). }
  unfold configure. cbn [fst snd]. rewrite !Hplace.
  split; [done|]. split; [done|]. split; [done|].
  split.
  { unfold DEFAULT_WIDTH, DEFAULT_HEIGHT, DEFAULT_MAX_ITER.
    repeat split;
      repeat match goal with
             | |- context [args !! ?k] => destruct (args !! k)
             | |- context [decide ?P] => destruct (decide P)
             end; lia. }
  split.
  { by destruct args as [|w [|h [|m rest]]]. }
  simpl.
  f_equal; [f_equal|];
    repeat match goal with
           | |- context [args !! ?k] => destruct (args !! k)
           | |- context [decide ?P] => destruct (decide P)
           end; unfold DEFAULT_WIDTH, DEFAULT_HEIGHT, DEFAULT_MAX_ITER in *;
    (done || lia).
Qed.

Section RunFrames.
Context `{DoubleOps D}.
Variables (width height max_iter size : Z).
Hypothesis width_pos : 0 < width.
Hypothesis height_pos : 0 < height.

(** X21. With at least one worker, every frame a run writes is a
    well-formed P6 payload for the header written before it: the header
    carries [width] and [height], the frame has exactly
    [3·width·height] bytes, and every byte is at most the maximal value
    255 of the header. *)
Theorem main_frames_wellformed (lines : list (line D))
    (scheds : list (list actor)) (fullBuffer0 : list Z) (out : outcome) :
  2 ≤ size → length fullBuffer0 = Z.to_nat (3 * width * height) →
  main width height max_iter size lines scheds fullBuffer0 = Some out →
  Forall (λ f, f.1 = (width, height)
               ∧ length f.2 = Z.to_nat (3 * width * height)
               ∧ Forall (λ z, 0 ≤ z ≤ 255) f.2) (frames out).
Proof.
  intros Hsize Hlen. unfold main.
  destruct (main_loop _ _ _ _ lines scheds fullBuffer0) as [[fs diags]|]
    eqn:Hloop; [simpl|done].
  intros [= <-]. simpl.
  destruct (main_loop_frames width height max_iter size width_pos height_pos
              lines scheds fullBuffer0 fs diags ltac:(lia) Hlen Hloop)
    as (_ & _ & Hfs).
  specialize (Hfs Hsize).
  apply Forall_forall. intros f Hf.
  apply list_elem_of_lookup in Hf as [i Hi].
  destruct (Forall2_lookup_r _ _ _ _ _ Hfs Hi) as (v & _ & Hhd & Hrender).
  unfold rendering in Hrender.
  split; [done|]. split.
  - rewrite (render_rows_length v.1.1 v.1.2 v.2 width height max_iter
               0 height f.2 ltac:(lia) ltac:(lia) Hrender). f_equal. lia.
  - by apply render_rows_range in Hrender.
Qed.
End RunFrames.

(** ** The static variants

    [sources/backend/c/fractal_C_MPI_live.c] and
    [sources/backend/c/fractal_C_openMP_live.c] render a fixed raster with
    the plain iteration count; the MPI variant gives every rank one block
    of rows. *)

Module Static.

Definition WIDTH : Z := 800.
Definition HEIGHT : Z := 600.
Definition MAX_ITER : Z := 200.

(** [int mandelbrot(double x0, double y0)]: the same loop, [iter] is
    returned as it is. *)
Definition mandelbrot `{DoubleOps D} (x0 y0 : D) : Z :=
  let '(x, y, iter) :=
    escape_loop (Z.to_nat MAX_ITER) x0 y0 MAX_ITER (of_int 0) (of_int 0) 0 in
  iter.

(** The block of rows of a rank, as [main] computes it for itself and, on
    rank 0, for every rank it receives from. *)
Definition rowsPerRank (size : Z) : Z := HEIGHT ÷ size.
Definition extra (size : Z) : Z := HEIGHT `rem` size.

Definition startY (size rank : Z) : Z :=
  rank * rowsPerRank size + (if rank <? extra size then rank else extra size).

Definition endY (size rank : Z) : Z :=
  startY size rank + rowsPerRank size + (if rank <? extra size then 1 else 0).

Definition localHeight (size rank : Z) : Z := endY size rank - startY size rank.

Lemma partition_arith (size : Z) :
  1 ≤ size →
  0 ≤ rowsPerRank size ∧ 0 ≤ extra size < size
  ∧ HEIGHT = size * rowsPerRank size + extra size.
Proof.
  intros Hs. unfold rowsPerRank, extra.
  pose proof (Z.quot_rem' HEIGHT size).
  pose proof (Z.rem_bound_pos HEIGHT size ltac:(done) ltac:(lia)).
  pose proof (Z.quot_pos HEIGHT size ltac:(done) ltac:(lia)). lia.
Qed.

Lemma startY_closed (size rank : Z) :
  startY size rank = rank * rowsPerRank size + Z.min rank (extra size).
Proof. unfold startY. destruct (Z.ltb_spec rank (extra size)); lia. Qed.

Lemma endY_next (size rank : Z) : endY size rank = startY size (rank + 1).
Proof.
  unfold endY. rewrite !startY_closed.
  destruct (Z.ltb_spec rank (extra size)); lia.
Qed.

Lemma startY_mono (size r1 r2 : Z) :
  1 ≤ size → 0 ≤ r1 ≤ r2 → startY size r1 ≤ startY size r2.
Proof.
  intros Hs Hr. destruct (partition_arith size Hs) as (Hq & He & _).
  rewrite !startY_closed. nia.
Qed.

(** Every row below the start of the rank [k] lies in the block of a rank
    below [k]. *)
Lemma startY_covers (size : Z) (k : nat) (y : Z) :
  1 ≤ size → 0 ≤ y < startY size (Z.of_nat k) →
  ∃ rank, 0 ≤ rank < Z.of_nat k ∧ startY size rank ≤ y < endY size rank.
Proof.
  intros Hs. induction k as [|k IH]; intros Hy.
  - rewrite startY_closed in Hy. simpl in Hy.
    destruct (partition_arith size Hs) as (_ & He & _). lia.
  - destruct (decide (y < startY size (Z.of_nat k))) as [Hlt|Hge].
    + destruct IH as (rank & Hr & Hin); [lia|]. exists rank. split; [lia|done].
    + exists (Z.of_nat k). split; [lia|]. rewrite endY_next.
      replace (Z.of_nat k + 1) with (Z.of_nat (S k)) by lia. lia.
Qed.

(** X23. The blocks of the static variant tile the raster: for
    [size ≥ 1] ranks, the block of rank 0 starts at row 0, each block ends
    where the next one starts, the block of the last rank ends at
    [HEIGHT], and every row of the raster lies in the block of exactly one
    rank. *)
Theorem static_blocks_tile (size : Z) :
  1 ≤ size →
  startY size 0 = 0
  ∧ endY size (size - 1) = HEIGHT
  ∧ (∀ rank, endY size rank = startY size (rank + 1))
  ∧ ∀ y, 0 ≤ y < HEIGHT →
      ∃ rank, (0 ≤ rank < size ∧ startY size rank ≤ y < endY size rank)
        ∧ ∀ rank', 0 ≤ rank' < size →
            startY size rank' ≤ y < endY size rank' → rank' = rank.
Proof.
  intros Hs. destruct (partition_arith size Hs) as (Hq & He & Hsum).
  assert (Hlast : startY size size = HEIGHT)
    by (rewrite startY_closed; lia).
  split; [rewrite startY_closed; lia|].
  split; [rewrite endY_next; by replace (size - 1 + 1) with size by lia|].
  split; [apply endY_next|].
  intros y Hy.
  destruct (startY_covers size (Z.to_nat size) y Hs) as (rank & Hr & Hin).
  { rewrite Z2Nat.id by lia. lia. }
  exists rank. split; [split; [lia|done]|].
  intros rank' Hr' Hin'. rewrite !endY_next in *.
  destruct (Z.lt_trichotomy rank' rank) as [Hlt|[->|Hlt]]; [|done|].
  - pose proof (startY_mono size (rank' + 1) rank Hs ltac:(lia)). lia.
  - pose proof (startY_mono size (rank + 1) rank' Hs ltac:(lia)). lia.
Qed.

Lemma block_bounds (size rank : Z) :
  1 ≤ size → 0 ≤ rank < size →
  0 ≤ startY size rank ∧ startY size rank ≤ endY size rank
  ∧ endY size rank ≤ HEIGHT.
Proof.
  intros Hs Hr. destruct (partition_arith size Hs) as (Hq & He & Hsum).
  split; [rewrite startY_closed; nia|].
  split; [rewrite endY_next; apply startY_mono; lia|].
  rewrite endY_next, startY_closed. nia.
Qed.

(** X24. The blocks of the static variant are balanced and lie within
    the raster: a rank has [HEIGHT / size] rows, one more if it is among
    the first [HEIGHT % size] ranks; its rows lie within [0, HEIGHT], so
    the bytes rank 0 receives at offset [3·WIDTH·startY] fit the
    [3·WIDTH·HEIGHT] bytes of its buffer; and with more ranks than rows
    the ranks from [HEIGHT] on have no row at all. *)
Theorem static_blocks_balanced (size rank : Z) :
  1 ≤ size → 0 ≤ rank < size →
  localHeight size rank
  = HEIGHT ÷ size + (if rank <? HEIGHT `rem` size then 1 else 0)
  ∧ 0 ≤ startY size rank ≤ endY size rank ∧ endY size rank ≤ HEIGHT
  ∧ 0 ≤ 3 * WIDTH * startY size rank
  ∧ 3 * WIDTH * startY size rank + 3 * WIDTH * localHeight size rank
    ≤ 3 * WIDTH * HEIGHT
  ∧ (HEIGHT ≤ rank → localHeight size rank = 0).
Proof.
  intros Hs Hr. destruct (partition_arith size Hs) as (Hq & He & Hsum).
  assert (Hlh : localHeight size rank
                = HEIGHT ÷ size + (if rank <? HEIGHT `rem` size then 1 else 0)).
  { unfold localHeight, endY, rowsPerRank, extra. lia. }
  destruct (block_bounds size rank Hs Hr) as (Hstart & Hle & Hend).
  split; [done|]. split; [done|]. split; [done|].
  unfold localHeight, WIDTH in *. split; [lia|]. split; [lia|].
  intros Hrank. rewrite Hlh.
  assert (HEIGHT `rem` size = HEIGHT ∧ HEIGHT ÷ size = 0) as [-> ->].
  { unfold HEIGHT in *.
    rewrite Z.rem_small, Z.quot_small by lia. done. }
  by destruct (Z.ltb_spec rank HEIGHT); [lia|].
Qed.
Lemma static_blocks_tile_witness :
  1 ≤ 7 ∧ startY 7 0 = 0 ∧ endY 7 (7 - 1) = HEIGHT
  ∧ endY 7 3 = startY 7 (3 + 1).
Proof.
  split; [lia|].
  destruct (static_blocks_tile 7 ltac:(lia)) as (H0 & Hlast & Hnext & _).
  split; [done|]. split; [done|]. apply Hnext.
Defined.

Lemma static_blocks_balanced_witness :
  1 ≤ 7 ∧ 0 ≤ 3 < 7
  ∧ localHeight 7 3 = HEIGHT ÷ 7 + (if 3 <? HEIGHT `rem` 7 then 1 else 0)
  ∧ endY 7 3 ≤ HEIGHT.
Proof.
  split; [lia|]. split; [lia|].
  destruct (static_blocks_balanced 7 3 ltac:(lia) ltac:(lia))
    as (Hl & _ & Hend & _).
  by split.
Defined.
End Static.

(** ** The plain count and the smooth count *)

Section Variants.
Context `{DoubleOps D}.

(** X25. The kernel of the static variants against the kernel of the
    dynamic variant, at the bound 200 of the former and for any arithmetic
    of [double].  The plain count is the [iter] at which the loop of the
    dynamic kernel is left; it lies between 0 and 200, and every test
    before it passed.  Where the plain count is 200 the dynamic kernel
    returns 200; where it is less, the test failed at that iterate and the
    dynamic kernel returns the conversion to [int] of the smooth count
    there. *)
Theorem mandelbrot_variants (cx cy : D) :
  Static.mandelbrot cx cy = escape_iter cx cy Static.MAX_ITER
  ∧ 0 ≤ Static.mandelbrot cx cy ≤ Static.MAX_ITER
  ∧ (∀ i, Z.of_nat i < Static.mandelbrot cx cy →
       within_radius (orbit cx cy i) = true)
  ∧ (Static.mandelbrot cx cy = Static.MAX_ITER →
       mandelbrot cx cy Static.MAX_ITER = Some Static.MAX_ITER)
  ∧ (Static.mandelbrot cx cy < Static.MAX_ITER →
       let j := Z.to_nat (Static.mandelbrot cx cy) in
       within_radius (orbit cx cy j) = false
       ∧ mandelbrot cx cy Static.MAX_ITER
         = to_int (smooth_count (orbit cx cy j).1 (orbit cx cy j).2
                     (Static.mandelbrot cx cy))).
Proof.
  assert (Hplain : Static.mandelbrot cx cy = escape_iter cx cy Static.MAX_ITER).
  { unfold Static.mandelbrot, escape_iter.
    by destruct (escape_loop _ _ _ _ _ _ _) as [[??]?]. }
  rewrite Hplain. split; [done|].
  destruct (mandelbrot_cases cx cy Static.MAX_ITER
              ltac:(unfold Static.MAX_ITER; lia))
    as (j & Hj & Hin & Hcase).
  rewrite Hj.
  split; [destruct Hcase as [[? _]|[? _]]; lia|].
  split; [intros i Hi; apply Hin; lia|].
  split.
  - intros Heq. destruct Hcase as [[_ Hret]|[Hlt _]]; [done|lia].
  - intros Hlt. rewrite Nat2Z.id.
    destruct Hcase as [[Heq _]|(_ & Hout & Hret)]; [lia|done].
Qed.
End Variants.

(** ** The gather of the static MPI variant *)

Module StaticGather.
Import Static.

(** [memcpy (dst, src, n)]: the first [n] bytes of [dst] become those of
    [src]; reading or writing beyond either is undefined. *)
Definition memcpy (dst src : list Z) (n : Z) : option (list Z) :=
  if (0 <=? n) && (n <=? Z.of_nat (length src))
     && (n <=? Z.of_nat (length dst))
  then Some (take (Z.to_nat n) src ++ drop (Z.to_nat n) dst)
  else None.

(** One iteration of the receive loop of rank 0: the block of rank [r]
    is received at the offset of its first row. *)
Definition recv_block (size : Z) (localBuffer : Z → list Z) (r : Z)
    (fullBuffer : list Z) : option (list Z) :=
  let sY := r * rowsPerRank size
            + (if r <? extra size then r else extra size) in
  let eY := sY + rowsPerRank size + (if r <? extra size then 1 else 0) in
  let recvHeight := eY - sY in
  recv_bytes fullBuffer (3 * WIDTH * sY) (3 * WIDTH * recvHeight)
    (localBuffer r).

(** What rank 0 does with the blocks of a frame in [main]:
    [localBuffer r] is the buffer of rank [r] after [compute_part], which
    the rank sends whole; rank 0 copies its own to the start of
    [fullBuffer], receives the others in the order of the ranks, and
    writes [3 * WIDTH * HEIGHT] bytes. *)
Definition gather (size : Z) (localBuffer : Z → list Z) (fullBuffer : list Z)
    : option (list Z) :=
  fullBuffer ← memcpy fullBuffer (localBuffer 0)
                 (3 * WIDTH * localHeight size 0);
  fullBuffer ← for_range 1 size (recv_block size localBuffer) fullBuffer;
  Some (take (Z.to_nat (3 * WIDTH * HEIGHT)) fullBuffer).

(** The receive loop over [k] ranks from [r0]: their blocks, in order,
    replace the bytes between the start of the first and the start of the
    rank after the last. *)
Lemma gather_loop (size : Z) (localBuffer : Z → list Z) (k : nat) :
  1 ≤ size →
  (∀ r, 0 ≤ r < size →
     Z.of_nat (length (localBuffer r)) = 3 * WIDTH * localHeight size r) →
  ∀ (r0 : Z) (b : list Z),
    0 ≤ r0 → r0 + Z.of_nat k ≤ size →
    Z.of_nat (length b) = 3 * WIDTH * HEIGHT →
    for_each (seqZ r0 (Z.of_nat k)) (recv_block size localBuffer) b
    = Some (take (Z.to_nat (3 * WIDTH * startY size r0)) b
            ++ mjoin (localBuffer <$> seqZ r0 (Z.of_nat k))
            ++ drop (Z.to_nat (3 * WIDTH * startY size (r0 + Z.of_nat k))) b).
Proof.
  intros Hs Hblocks. induction k as [|k IH]; intros r0 b Hr0 Hk Hb.
  - rewrite seqZ_nil by lia. simpl. rewrite Z.add_0_r.
    by rewrite take_drop.
  - rewrite seqZ_cons by lia.
    replace (Z.pred (Z.of_nat (S k))) with (Z.of_nat k) by lia.
    cbn [for_each fmap list_fmap mjoin list_join].
    destruct (block_bounds size r0 Hs ltac:(lia)) as (Hst & Hle & Hend).
    pose proof (Hblocks r0 ltac:(lia)) as Hlen0.
    assert (recv_block size localBuffer r0 b
            = Some (take (Z.to_nat (3 * WIDTH * startY size r0)) b
                    ++ localBuffer r0
                    ++ drop (Z.to_nat (3 * WIDTH * startY size r0)
                             + length (localBuffer r0)) b)) as ->.
    { unfold recv_block. cbv zeta.
      fold (startY size r0). fold (endY size r0).
      fold (localHeight size r0).
      unfold recv_bytes. rewrite Hlen0, Hb.
      unfold localHeight in *. unfold WIDTH in *.
      destruct (Z.leb_spec 0 (3 * 800 * startY size r0)); [|lia].
      destruct (Z.leb_spec (3 * 800 * (endY size r0 - startY size r0))
                  (3 * 800 * (endY size r0 - startY size r0))); [|lia].
      destruct (Z.leb_spec
                  (3 * 800 * startY size r0
                   + 3 * 800 * (endY size r0 - startY size r0))
                  (3 * 800 * HEIGHT)); [|lia].
      done. }
    cbn [mbind option_bind].
    unfold localHeight, WIDTH in *.
    set (b1 := take _ b ++ localBuffer r0 ++ drop _ b).
    assert (Hb1 : Z.of_nat (length b1) = 3 * 800 * HEIGHT).
    { unfold b1. rewrite !length_app, length_take, length_drop. lia. }
    rewrite (IH (Z.succ r0) b1) by lia.
    f_equal.
    replace (Z.succ r0 + Z.of_nat k) with (r0 + Z.of_nat (S k)) by lia.
    pose proof (endY_next size r0) as Hnext.
    replace (r0 + 1) with (Z.succ r0) in Hnext by lia.
    pose proof (startY_mono size (Z.succ r0) (r0 + Z.of_nat (S k)) Hs
                  ltac:(lia)) as Hmono.
    assert (Hpre : take (Z.to_nat (3 * 800 * startY size (Z.succ r0))) b1
                   = take (Z.to_nat (3 * 800 * startY size r0)) b
                     ++ localBuffer r0).
    { unfold b1. rewrite (assoc_L (++)).
      apply take_app_length'.
      rewrite length_app, length_take. lia. }
    assert (Hpost : drop (Z.to_nat (3 * 800 * startY size (r0 + Z.of_nat (S k))))
                      b1
                    = drop (Z.to_nat (3 * 800 * startY size (r0 + Z.of_nat (S k))))
                        b).
    { unfold b1. rewrite (assoc_L (++)).
      rewrite drop_app_ge by (rewrite length_app, length_take; lia).
      rewrite drop_drop. f_equal.
      rewrite length_app, length_take. lia. }
    rewrite Hpre, Hpost. by rewrite <- !(assoc_L (++)).
Qed.

Lemma blocks_length (size : Z) (localBuffer : Z → list Z) (k : nat) :
  1 ≤ size →
  (∀ r, 0 ≤ r < size →
     Z.of_nat (length (localBuffer r)) = 3 * WIDTH * localHeight size r) →
  ∀ r0, 0 ≤ r0 → r0 + Z.of_nat k ≤ size →
    Z.of_nat (length (mjoin (localBuffer <$> seqZ r0 (Z.of_nat k))))
    = 3 * WIDTH * (startY size (r0 + Z.of_nat k) - startY size r0).
Proof.
  intros Hs Hblocks. induction k as [|k IH]; intros r0 Hr0 Hk.
  - rewrite seqZ_nil by lia. simpl. rewrite Z.add_0_r. lia.
  - rewrite seqZ_cons by lia.
    replace (Z.pred (Z.of_nat (S k))) with (Z.of_nat k) by lia.
    cbn [fmap list_fmap mjoin list_join].
    rewrite length_app, Nat2Z.inj_add, IH, (Hblocks r0) by lia.
    unfold localHeight. rewrite endY_next.
    replace (Z.succ r0 + Z.of_nat k) with (r0 + Z.of_nat (S k)) by lia.
    replace (r0 + 1) with (Z.succ r0) by lia. lia.
Qed.

(** X26. The gather of the static MPI variant writes every byte of the
    frame: for any number of ranks [size ≥ 1], with every rank sending the
    [3·WIDTH·localHeight] bytes of its block, the frame rank 0 writes is
    the blocks of the ranks [0 .. size − 1] one after the other, whatever
    [malloc] left in [fullBuffer]; with a single process it is the block
    of rank 0, which is the whole raster. *)
Theorem static_gather (size : Z) (localBuffer : Z → list Z)
    (fullBuffer : list Z) :
  1 ≤ size →
  (∀ r, 0 ≤ r < size →
     Z.of_nat (length (localBuffer r)) = 3 * WIDTH * localHeight size r) →
  Z.of_nat (length fullBuffer) = 3 * WIDTH * HEIGHT →
  gather size localBuffer fullBuffer
  = Some (mjoin (localBuffer <$> seqZ 0 size))
  ∧ (size = 1 →
     localHeight size 0 = HEIGHT
     ∧ gather size localBuffer fullBuffer = Some (localBuffer 0)).
Proof.
  intros Hs Hblocks Hb.
  assert (Hrun : gather size localBuffer fullBuffer
                 = Some (mjoin (localBuffer <$> seqZ 0 size))).
  { unfold gather, memcpy.
    pose proof (Hblocks 0 ltac:(lia)) as Hlen0.
    destruct (block_bounds size 0 Hs ltac:(lia)) as (Hst & Hle & Hend).
    destruct (partition_arith size Hs) as (Hq & He & Hsum).
    assert (Hs0 : startY size 0 = 0) by (rewrite startY_closed; lia).
    assert (Hlast : startY size size = HEIGHT)
      by (rewrite startY_closed; lia).
    assert (Hone : startY size 1 = localHeight size 0).
    { unfold localHeight. rewrite endY_next.
      replace (0 + 1) with 1 by lia. lia. }
    assert (Hlh : 0 ≤ localHeight size 0 ≤ HEIGHT)
      by (unfold localHeight; lia).
    rewrite Hlen0, Hb.
    destruct (Z.leb_spec 0 (3 * WIDTH * localHeight size 0));
      [|unfold WIDTH in *; lia].
    destruct (Z.leb_spec (3 * WIDTH * localHeight size 0)
                (3 * WIDTH * localHeight size 0)); [|lia].
    destruct (Z.leb_spec (3 * WIDTH * localHeight size 0)
                (3 * WIDTH * HEIGHT)); [|unfold WIDTH in *; lia].
    cbn [andb mbind option_bind]. unfold for_range.
    rewrite take_ge by lia.
    set (b1 := localBuffer 0 ++ drop _ fullBuffer).
    assert (Hb1 : Z.of_nat (length b1) = 3 * WIDTH * HEIGHT).
    { unfold b1. rewrite length_app, length_drop. lia. }
    replace (size - 1) with (Z.of_nat (Z.to_nat (size - 1))) by lia.
    rewrite (gather_loop size localBuffer (Z.to_nat (size - 1)) Hs Hblocks
               1 b1) by lia.
    cbn [mbind option_bind]. f_equal.
    pose proof (blocks_length size localBuffer (Z.to_nat (size - 1)) Hs
                  Hblocks 1 ltac:(lia) ltac:(lia)) as Hjoin.
    replace (1 + Z.of_nat (Z.to_nat (size - 1))) with size in * by lia.
    rewrite Hlast, Hone in *.
    rewrite (drop_ge b1) by lia. rewrite app_nil_r.
    assert (take (Z.to_nat (3 * WIDTH * localHeight size 0)) b1
            = localBuffer 0) as ->.
    { unfold b1. apply take_app_length'. lia. }
    rewrite take_ge by (rewrite length_app; lia).
    assert (seqZ 0 size = 0 :: seqZ 1 (Z.of_nat (Z.to_nat (size - 1)))) as ->.
    { rewrite (seqZ_cons 0 size) by lia. f_equal. f_equal. lia. }
    done. }
  split; [done|]. intros ->.
  assert (Hlh : localHeight 1 0 = HEIGHT) by reflexivity.
  split; [done|]. rewrite Hrun. simpl. by rewrite app_nil_r.
Qed.
(** Three ranks, the block of rank [r] filled with the byte [r]. *)
Definition demo_blocks (r : Z) : list Z :=
  replicate (Z.to_nat (3 * WIDTH * localHeight 3 r)) r.

Lemma static_gather_witness :
  1 ≤ 3
  ∧ gather 3 demo_blocks (replicate (Z.to_nat (3 * WIDTH * HEIGHT)) 255)
    = Some (mjoin (demo_blocks <$> seqZ 0 3)).
Proof.
  split; [lia|].
  assert (Hblocks : ∀ r, 0 ≤ r < 3 →
            Z.of_nat (length (demo_blocks r)) = 3 * WIDTH * localHeight 3 r).
  { intros r Hr. unfold demo_blocks. rewrite length_replicate.
    apply Z2Nat.id.
    assert (localHeight 3 r = 200) as ->; [|unfold WIDTH; lia].
    assert (r = 0 ∨ r = 1 ∨ r = 2) as [->|[->| ->]] by lia; reflexivity. }
  assert (Hbuf : Z.of_nat (length (replicate (Z.to_nat (3 * WIDTH * HEIGHT))
                                     255)) = 3 * WIDTH * HEIGHT).
  { rewrite length_replicate. apply Z2Nat.id. unfold WIDTH, HEIGHT. lia. }
  exact (proj1 (static_gather 3 demo_blocks _ ltac:(lia) Hblocks Hbuf)).
Defined.
End StaticGather.

(** ** The further properties at work *)

Module DemoMore.
#[local] Existing Instance Binary64.reference.
Import Demo.

Lemma compute_rows_frame_witness :
  0 ≤ 4 ∧ 1 ≤ 3
  ∧ compute_rows zoom centerX centerY 1 3 4 3 50 (replicate 24 7 ++ [1; 2; 3])
    = (rows ← render_rows zoom centerX centerY 4 3 50 1 3;
       Some (rows ++ [1; 2; 3])).
Proof.
  split; [lia|]. split; [lia|].
  apply (compute_rows_frame zoom centerX centerY 4 3 50 1 3
           (replicate 24 7) [1; 2; 3]); [lia|lia|reflexivity].
Defined.

Lemma compute_rows_room_witness :
  match compute_rows zoom centerX centerY 1 3 4 3 50 (replicate 30 7) with
  | Some buffer' =>
      length buffer' = 30%nat ∧ (0 < 4 → 1 < 3 → 3 * 4 * (3 - 1) ≤ 30)
  | None => False
  end.
Proof.
  destruct (compute_rows zoom centerX centerY 1 3 4 3 50 (replicate 30 7))
    as [buffer'|] eqn:E; [|by vm_compute in E].
  apply (compute_rows_room zoom centerX centerY 4 3 50 1 3
           (replicate 30 7) buffer' E).
Defined.

Lemma compute_rows_empty_witness :
  (5 ≤ 5 ∨ 4 ≤ 0)
  ∧ compute_rows zoom centerX centerY 5 5 4 3 50 [1; 2] = Some [1; 2].
Proof.
  assert (H : 5 ≤ 5 ∨ 4 ≤ 0) by (left; lia).
  split; [done|].
  apply (compute_rows_empty zoom centerX centerY 4 3 50 5 5 [1; 2] H).
Defined.

Lemma compute_rows_split_witness :
  0 ≤ 4 ∧ 0 ≤ 1 ≤ 3
  ∧ compute_rows zoom centerX centerY 0 3 4 3 50 (replicate 36 0)
    = (l1 ← compute_rows zoom centerX centerY 0 1 4 3 50 (replicate 12 0);
       l2 ← compute_rows zoom centerX centerY 1 3 4 3 50 (replicate 24 0);
       Some (l1 ++ l2)).
Proof.
  split; [lia|]. split; [lia|].
  apply (compute_rows_split zoom centerX centerY 4 3 50 0 1 3
           (replicate 36 0) (replicate 12 0) (replicate 24 0));
    (lia || reflexivity).
Defined.

Lemma frame_renders : is_Some (render_rows zoom centerX centerY 2 12 50 0 12).
Proof.
  destruct (render_rows zoom centerX centerY 2 12 50 0 12) as [frame|] eqn:E;
    [by eexists|by vm_compute in E].
Qed.

Lemma dispatch_stuck_iff_done_witness :
  match run3 with
  | Some (s, tr) =>
      frame_done s = true
      ↔ ∀ a, step_by zoom centerX centerY 2 12 50 a s = None
  | None => False
  end.
Proof.
  destruct run3 as [[s tr]|] eqn:E; [|by vm_compute in E].
  apply (dispatch_stuck_iff_done zoom centerX centerY 2 12 50
           ltac:(lia) ltac:(lia) 3 (replicate 72 255) tr s
           ltac:(lia) ltac:(reflexivity) frame_renders
           (run3_reachable _ _ E)).
Defined.

Lemma run3_done (s : state) (tr : list event) :
  run3 = Some (s, tr) → frame_done s = true.
Proof. intros E. vm_compute in E. by injection E as <- <-. Qed.

Lemma dispatch_work_witness :
  match run3 with
  | Some (s, tr) =>
      Z.of_nat (length tr) = 4 * ((12 + CHUNK_SIZE - 1) / CHUNK_SIZE) + 4 * (3 - 1)
      ∧ Z.of_nat (length (assigns tr)) = (12 + CHUNK_SIZE - 1) / CHUNK_SIZE
  | None => False
  end.
Proof.
  destruct run3 as [[s tr]|] eqn:E; [|by vm_compute in E].
  destruct (dispatch_work zoom centerX centerY 2 12 50
              ltac:(lia) ltac:(lia) 3 (replicate 72 255) tr s
              ltac:(lia) ltac:(reflexivity) (run3_reachable _ _ E)
              (run3_done _ _ E)) as (Hl & Ha & _).
  by split.
Defined.

Lemma dispatch_final_state_witness :
  match run3 with
  | Some (s, tr) =>
      st_workers s = replicate (Z.to_nat (3 - 1)) (Worker Finished [] [])
      ∧ activeWorkers (st_master s) = 0
  | None => False
  end.
Proof.
  destruct run3 as [[s tr]|] eqn:E; [|by vm_compute in E].
  destruct (dispatch_final_state zoom centerX centerY 2 12 50
              ltac:(lia) ltac:(lia) 3 (replicate 72 255) tr s
              ltac:(lia) ltac:(reflexivity) (run3_reachable _ _ E)
              (run3_done _ _ E)) as (Hw & Ha & _).
  by split.
Defined.

Lemma dispatch_bounded_state_witness :
  match exec zoom centerX centerY 2 12 50 (take 6 sched3)
          (init_state 3 (replicate 72 255)) with
  | Some (s, tr) =>
      length (st_workers s) = Z.to_nat (3 - 1)
      ∧ 0 ≤ activeWorkers (st_master s) ≤ 3 - 1
      ∧ 0 ≤ nextRow (st_master s) ≤ 12
  | None => False
  end.
Proof.
  destruct (exec _ _ _ _ _ _ _ _) as [[s tr]|] eqn:E; [|by vm_compute in E].
  assert (reachable zoom centerX centerY 2 12 50 3 (replicate 72 255) tr s)
    as Hreach.
  { apply (exec_reachable zoom centerX centerY 2 12 50 3 (replicate 72 255)
             (take 6 sched3) [] (init_state 3 (replicate 72 255)));
      [constructor|done]. }
  destruct (dispatch_bounded_state zoom centerX centerY 2 12 50
              ltac:(lia) ltac:(lia) 3 (replicate 72 255) tr s
              ltac:(lia) ltac:(reflexivity) Hreach) as (Hl & _ & Ha & Hn).
  split; [exact Hl|]. split; [exact Ha|exact Hn].
Defined.

Lemma worker_signals_witness :
  match run3 with
  | Some (s, tr) => signals 1 tr = (1, 1, 1)%nat ∧ signals 2 tr = (0, 0, 0)%nat
  | None => False
  end.
Proof.
  destruct run3 as [[s tr]|] eqn:E; [|by vm_compute in E].
  split.
  - destruct (worker_signals zoom centerX centerY 2 12 50
                ltac:(lia) ltac:(lia) 3 (replicate 72 255) tr s 1
                ltac:(lia) ltac:(reflexivity) (run3_reachable _ _ E))
      as (_ & _ & Hd).
    by rewrite (Hd (run3_done _ _ E)).
  - destruct (worker_signals zoom centerX centerY 2 12 50
                ltac:(lia) ltac:(lia) 3 (replicate 72 255) tr s 2
                ltac:(lia) ltac:(reflexivity) (run3_reachable _ _ E))
      as (_ & _ & Hd).
    by rewrite (Hd (run3_done _ _ E)).
Defined.

(** The first result the master copied in a trace. *)
Fixpoint first_result (tr : list event) : option event :=
  match tr with
  | [] => None
  | EvResult w a n data :: _ => Some (EvResult w a n data)
  | _ :: tr' => first_result tr'
  end.

Lemma copied_rows_rendered_witness :
  match run3 with
  | Some (s, tr) =>
      match first_result tr with
      | Some (EvResult w a n data) =>
          compute_rows zoom centerX centerY a (a + 1) 2 12 50
            (replicate (Z.to_nat (3 * 2)) 0)
          = Some (row_of 2 (fullBuffer (st_master s)) a)
      | _ => False
      end
  | None => False
  end.
Proof.
  destruct run3 as [[s tr]|] eqn:E; [|by vm_compute in E].
  destruct (first_result tr) as [e|] eqn:Ef.
  - assert (e ∈ tr ∧ 0 < match e with EvResult _ _ n _ => n | _ => 0 end)
      as [Hin Hn].
    { vm_compute in E. injection E as <- <-. vm_compute in Ef.
      injection Ef as <-. split; [|done].
      repeat first [by left|right]. }
    destruct e as [w|w a n|w|w a n|w a n data|w|w]; try (simpl in Hn; lia).
    apply (copied_rows_rendered zoom centerX centerY 2 12 50
             ltac:(lia) ltac:(lia) 3 (replicate 72 255) tr s w a n data a
             ltac:(lia) ltac:(reflexivity) (run3_reachable _ _ E) Hin).
    lia.
  - vm_compute in E. injection E as <- <-. by vm_compute in Ef.
Defined.

Lemma main_frames_wellformed_witness :
  match main 2 12 50 2 demo_lines [sched2] (replicate 72 0) with
  | Some out =>
      Forall (λ f, f.1 = (2, 12)
                   ∧ length f.2 = Z.to_nat (3 * 2 * 12)
                   ∧ Forall (λ z, 0 ≤ z ≤ 255) f.2) (frames out)
  | None => False
  end.
Proof.
  destruct (main 2 12 50 2 demo_lines [sched2] (replicate 72 0))
    as [out|] eqn:E; [|by vm_compute in E].
  apply (main_frames_wellformed 2 12 50 2 ltac:(lia) ltac:(lia) demo_lines
           [sched2] (replicate 72 0) out ltac:(lia) ltac:(reflexivity) E).
Defined.

Lemma int_expressions_in_range_witness :
  0 < 800 ∧ 0 < 600 ∧ 3 * 800 * 600 ≤ INT_MAX
  ∧ Forall (λ z, in_int_range z = true)
      [5 - 800 ÷ 2; 12 - 600 ÷ 2; (12 - 10) * 800;
       (12 - 10) * 800 + 5; ((12 - 10) * 800 + 5) * 3 + 2;
       10 + CHUNK_SIZE; 3 * 800; 3 * 800 * 10; 3 * 800 * 10;
       3 * 800 * 600].
Proof.
  split; [lia|]. split; [lia|]. split; [unfold INT_MAX; lia|].
  apply (int_expressions_in_range 800 600 10 10 5 12);
    unfold INT_MAX; lia.
Defined.
End DemoMore.
